(** * Deterministic UI Generator: schema, patch engine, code generator, sandbox

    A shallow embedding of the constrained-UI pipeline of the repository:

    - [lib/schema/ui-ast.ts]      the component registry and [validateUIAST];
    - [lib/engine/patch-engine]   [applyPatches] and its helpers;
    - [lib/engine/ast-to-code]    [generateCodeFromAST];
    - [lib/engine/sandbox.ts]     [analyzeCode] and [executeSandboxed].

    JavaScript values are modelled as trees: an object is an association list
    in insertion order, an array is a list, a thrown [Error] is the left
    injection of a sum.  [structuredClone] is the identity on such trees, and
    an in-place mutation through an object reference is a functional update
    at the path that leads to the object.

    The strings of documents, paths and generated text are [string]s that
    hold the UTF-8 encoding of the JavaScript string (every string without
    a lone surrogate has one).  The operations the code performs on them
    are written so that they agree with JavaScript's, which works on
    UTF-16 code units, on such strings: the delimiters the code looks for
    are below 128, [sort] compares in the order of the code units, and
    [trim] removes the white space of the language.  The sandbox, whose
    patterns and whose length limit go by code unit, takes its source text
    as the list of its code units.  A number of a document is an integer
    that a double holds exactly and that prints in plain decimal. *)

From stdpp Require Import base option list strings pretty.
From Stdlib Require Import ZArith Ascii String Lia.

Local Open Scope string_scope.
Local Open Scope list_scope.

#[local] Set Warnings "-register-all".

(* ================================================================== *)
(** ** Thrown errors *)
(* ================================================================== *)

Module Exn.

(** [throw new Error(msg)] is [inl msg]; a normal return is [inr]. *)
Definition t (A : Type) : Type := (string + A)%type.

Definition ret {A} (a : A) : t A := inr a.
Definition throw {A} (msg : string) : t A := inl msg.

Definition bind {A B} (m : t A) (k : A -> t B) : t B :=
  match m with
  | inl e => inl e
  | inr a => k a
  end.

(** Two runs end the same way: both throw, or both return the same value. *)
Definition same_outcome {A} (a b : t A) : Prop :=
  match a, b with
  | inr x, inr y => x = y
  | inl _, inl _ => True
  | _, _ => False
  end.

End Exn.

Notation "'let!' x ':=' m 'in' k" := (Exn.bind m (fun x => k))
  (at level 10, x pattern, m at level 100, k at level 200, only parsing).

(* ================================================================== *)
(** ** Strings *)
(* ================================================================== *)

(** The double-quote character and a string between double quotes. *)
Definition DQ : string := String (ascii_of_nat 34) EmptyString.

Definition quoted (s : string) : string := DQ +:+ s +:+ DQ.

(** The line feed. *)
Definition NL : string := String (ascii_of_nat 10) EmptyString.

(** [a.join(sep)] *)
Definition join (sep : string) (a : list string) : string :=
  String.concat sep a.

(** [s] without its prefix [p], when it starts with [p]. *)
Fixpoint strip_prefix (p s : string) : option string :=
  match p, s with
  | EmptyString, _ => Some s
  | String a p', String b s' =>
      if Ascii.eqb a b then strip_prefix p' s' else None
  | String _ _, EmptyString => None
  end.

(** [s.includes(needle)] *)
Fixpoint includes (needle s : string) : bool :=
  match strip_prefix needle s with
  | Some _ => true
  | None =>
      match s with
      | EmptyString => false
      | String _ s' => includes needle s'
      end
  end.

(** [s.repeat(n)] *)
Fixpoint repeat_string (s : string) (n : nat) : string :=
  match n with
  | O => EmptyString
  | S n' => s +:+ repeat_string s n'
  end.

(** The white space below 128: tab, line feed, vertical tab, form feed,
    carriage return and space. *)
Definition is_space (c : ascii) : bool :=
  let n := nat_of_ascii c in
  ((9 <=? n)%nat && (n <=? 13)%nat) || (n =? 32)%nat.

(** The white space [trim] removes that takes two bytes (U+00A0) or
    three (U+1680, U+2000 to U+200A, U+2028, U+2029, U+202F, U+205F,
    U+3000, U+FEFF). *)
Definition is_space2 (a b : ascii) : bool :=
  (nat_of_ascii a =? 194)%nat && (nat_of_ascii b =? 160)%nat.

Definition is_space3 (a b c : ascii) : bool :=
  let x := nat_of_ascii a in
  let y := nat_of_ascii b in
  let z := nat_of_ascii c in
  ((x =? 225) && (y =? 154) && (z =? 128))%nat
  || ((x =? 226) && (y =? 128)
      && (((128 <=? z) && (z <=? 138)) || (z =? 168) || (z =? 169)
          || (z =? 175)))%nat
  || ((x =? 226) && (y =? 129) && (z =? 159))%nat
  || ((x =? 227) && (y =? 128) && (z =? 128))%nat
  || ((x =? 239) && (y =? 187) && (z =? 191))%nat.

Fixpoint trim_start (s : string) : string :=
  match s with
  | String a r1 =>
      if is_space a then trim_start r1
      else
        match r1 with
        | String b r2 =>
            if is_space2 a b then trim_start r2
            else
              match r2 with
              | String c r3 => if is_space3 a b c then trim_start r3 else s
              | EmptyString => s
              end
        | EmptyString => s
        end
  | EmptyString => EmptyString
  end.

(** [s] is white space throughout. *)
Fixpoint all_space (s : string) : bool :=
  match s with
  | String a r1 =>
      if is_space a then all_space r1
      else
        match r1 with
        | String b r2 =>
            if is_space2 a b then all_space r2
            else
              match r2 with
              | String c r3 => is_space3 a b c && all_space r3
              | EmptyString => false
              end
        | EmptyString => false
        end
  | EmptyString => true
  end.

Fixpoint trim_end (s : string) : string :=
  match s with
  | String c s' => if all_space s then EmptyString else String c (trim_end s')
  | EmptyString => EmptyString
  end.

(** [s.trim()] *)
Definition trim (s : string) : string := trim_end (trim_start s).

(** Membership in an array or a [Set] of strings. *)
Definition string_in (s : string) (l : list string) : bool :=
  existsb (String.eqb s) l.

(** [set.add(x)] on a [Set] kept in insertion order. *)
Definition set_add (x : string) (s : list string) : list string :=
  if string_in x s then s else s ++ [x].

(** The place of a byte in the order of the code units: a first byte of
    U+E000 to U+FFFF (238, 239) comes after the first bytes of the
    characters above U+FFFF (240 and up), whose code units are surrogates;
    everywhere else the order of the bytes is the order of the code
    units. *)
Definition unit_rank (c : ascii) : nat :=
  let n := nat_of_ascii c in
  if ((238 <=? n) && (n <=? 239))%nat then n + 16
  else if (240 <=? n)%nat then n - 2
  else n.

(** [a <= b] as [sort] without a comparator orders strings. *)
Fixpoint unit_leb (a b : string) : bool :=
  match a, b with
  | EmptyString, _ => true
  | String _ _, EmptyString => false
  | String x a', String y b' =>
      if (unit_rank x <? unit_rank y)%nat then true
      else if (unit_rank y <? unit_rank x)%nat then false
      else unit_leb a' b'
  end.

(** [a.sort()] on strings: a stable insertion in that order. *)
Fixpoint sort_insert (x : string) (l : list string) : list string :=
  match l with
  | [] => [x]
  | y :: l' => if unit_leb x y then x :: l else y :: sort_insert x l'
  end.

Definition sort_strings (l : list string) : list string :=
  fold_right sort_insert [] l.

(** [a.forEach((x, i) => ...)] with an accumulator: a left fold that also
    passes the index. *)
Fixpoint fold_indexed {A B} (f : B -> nat -> A -> A) (l : list B) (i : nat)
    (a : A) : A :=
  match l with
  | [] => a
  | x :: l' => fold_indexed f l' (S i) (f x i a)
  end.

(* ================================================================== *)
(** ** JavaScript values *)
(* ================================================================== *)

(** The values that reach the pipeline are parsed JSON.  Numbers are kept
    as integers: every number the registry schemas constrain is a small
    integer literal.  A [JNum n] stands for the number [n] when a double
    holds it exactly and prints it in plain decimal, that is up to 2^53 in
    magnitude; other numbers are not values of this type. *)
Inductive JValue : Type :=
| JNull
| JBool (b : bool)
| JNum (n : Z)
| JStr (s : string)
| JArr (items : list JValue)
| JObj (fields : list (string * JValue)).

(** Induction over a value, with the hypothesis for every item and field. *)
Section JValueInduction.
Variable P : JValue -> Prop.
Hypothesis P_null : P JNull.
Hypothesis P_bool : forall b, P (JBool b).
Hypothesis P_num : forall n, P (JNum n).
Hypothesis P_str : forall s, P (JStr s).
Hypothesis P_arr : forall items, Forall P items -> P (JArr items).
Hypothesis P_obj : forall fields, Forall (fun kv => P kv.2) fields -> P (JObj fields).

Fixpoint JValue_tree_ind (v : JValue) : P v :=
  match v with
  | JNull => P_null
  | JBool b => P_bool b
  | JNum n => P_num n
  | JStr s => P_str s
  | JArr items =>
      P_arr items
        ((fix all (l : list JValue) : Forall P l :=
            match l with
            | [] => @List.Forall_nil _ P
            | x :: l' => @List.Forall_cons _ P x l' (JValue_tree_ind x) (all l')
            end) items)
  | JObj fields =>
      P_obj fields
        ((fix all (l : list (string * JValue)) : Forall (fun kv => P kv.2) l :=
            match l with
            | [] => @List.Forall_nil _ (fun kv => P kv.2)
            | kv :: l' =>
                @List.Forall_cons _ (fun kv => P kv.2) kv l'
                  (JValue_tree_ind kv.2) (all l')
            end) fields)
  end.
End JValueInduction.

(** A JavaScript object: its properties in the order they were created,
    each key with its value.  What enumerates an object ([Object.keys],
    [Object.entries], [for ... in], a spread, [JSON.stringify]) goes
    through [obj_entries], which lists the keys that read as array indices
    first. *)
Definition keys {V} (o : list (string * V)) : list string := o.*1.

Fixpoint obj_get {V} (k : string) (o : list (string * V)) : option V :=
  match o with
  | [] => None
  | (k', v) :: o' => if String.eqb k k' then Some v else obj_get k o'
  end.

(** [o[k] = v]: an existing key keeps its place, a new key goes last. *)
Fixpoint obj_set {V} (k : string) (v : V) (o : list (string * V))
  : list (string * V) :=
  match o with
  | [] => [(k, v)]
  | (k', v') :: o' =>
      if String.eqb k k' then (k, v) :: o' else (k', v') :: obj_set k v o'
  end.

(** Copying the own properties of [src] onto [dst], in order. *)
Definition obj_assign {V} (dst src : list (string * V)) : list (string * V) :=
  fold_left (fun acc kv => obj_set kv.1 kv.2 acc) src dst.

(** The object literal [{ ...a, ...b }].  The copy goes through the
    properties in the order of the list, which is the order JavaScript
    follows but for the keys that read as array indices; as these are
    enumerated first in the source and in the result alike, and the other
    keys keep their relative order, [obj_entries] of the result is what
    JavaScript enumerates. *)
Definition obj_spread {V} (a b : list (string * V)) : list (string * V) :=
  obj_assign (obj_assign [] a) b.

(** The number a string of decimal digits writes, [None] when a
    character is no digit. *)
Fixpoint digits_value (s : string) (acc : N) : option N :=
  match s with
  | EmptyString => Some acc
  | String c s' =>
      let n := nat_of_ascii c in
      if ((48 <=? n) && (n <=? 57))%nat then
        digits_value s' (10 * acc + N.of_nat (n - 48))%N
      else None
  end.

(** The array index a key reads as, if it is one: [0], or digits without
    a leading zero, with a value below 2^32 - 1. *)
Definition array_index (k : string) : option N :=
  match k with
  | EmptyString => None
  | String c rest =>
      if Ascii.eqb c "0"%char && negb (String.eqb rest EmptyString) then None
      else if (10 <? String.length k)%nat then None
      else
        match digits_value k 0 with
        | Some v => if (v <? 4294967295)%N then Some v else None
        | None => None
        end
  end.

Fixpoint index_insert {V} (i : N) (kv : string * V)
    (l : list (N * (string * V))) : list (N * (string * V)) :=
  match l with
  | [] => [(i, kv)]
  | (j, x) :: l' =>
      if (i <? j)%N then (i, kv) :: l else (j, x) :: index_insert i kv l'
  end.

(** The properties whose keys are array indices, by ascending index. *)
Definition index_entries {V} (o : list (string * V))
  : list (N * (string * V)) :=
  fold_left
    (fun acc kv =>
       match array_index kv.1 with
       | Some i => index_insert i kv acc
       | None => acc
       end)
    o [].

(** The own properties of an object in the order JavaScript enumerates
    them: array indices ascending, then the other keys in the order they
    were created. *)
Definition obj_entries {V} (o : list (string * V)) : list (string * V) :=
  (index_entries o).*2 ++ filter (fun kv => array_index kv.1 = None) o.

(** [Record<string, unknown>] *)
Definition Props : Type := list (string * JValue).

(** A JavaScript object holds each key once. *)
Definition obj_wf {V} (o : list (string * V)) : Prop := NoDup (keys o).

(* ================================================================== *)
(** ** The UI AST (lib/schema/ui-ast.ts) *)
(* ================================================================== *)

(** An element of a [children] array: [UIASTNode | string].  [Undefined]
    is the value JavaScript yields for an absent optional field; the patch
    engine can store it in an array through the non-null assertion
    [component!]. *)
Inductive UINode : Type :=
| Undefined
| Text (s : string)
| Elem (type : string) (props : Props) (children : list UINode).

(** Induction over a tree of nodes, with the hypothesis for every child. *)
Section UINodeInduction.
Variable P : UINode -> Prop.
Hypothesis P_undefined : P Undefined.
Hypothesis P_text : forall s, P (Text s).
Hypothesis P_elem : forall type props children,
  Forall P children -> P (Elem type props children).

Fixpoint UINode_tree_ind (n : UINode) : P n :=
  match n with
  | Undefined => P_undefined
  | Text s => P_text s
  | Elem type props children =>
      P_elem type props children
        ((fix all (cs : list UINode) : Forall P cs :=
            match cs with
            | [] => @List.Forall_nil _ P
            | c :: cs' => @List.Forall_cons _ P c cs' (UINode_tree_ind c) (all cs')
            end) children)
  end.
End UINodeInduction.

(** [UIAST]; [theme] is optional on input and defaulted by the schema. *)
Record UIAST : Type := mkUIAST {
  layout : string;
  theme : option string;
  components : list UINode;
}.

Definition with_components (ast : UIAST) (cs : list UINode) : UIAST :=
  {| layout := layout ast; theme := theme ast; components := cs |}.

(** [Patch]; an absent [component] is [Undefined], an absent [props] is
    [None]. *)
Record Patch : Type := mkPatch {
  action : string;
  targetPath : string;
  component : UINode;
  props : option Props;
}.

(** [typeof c === "string"] *)
Definition is_string (c : UINode) : bool :=
  match c with Text _ => true | _ => false end.

(** JavaScript truthiness of a node value: [undefined] and the empty
    string are falsy, every object is truthy. *)
Definition truthy (c : UINode) : bool :=
  match c with
  | Undefined => false
  | Text s => negb (String.eqb s EmptyString)
  | Elem _ _ _ => true
  end.

(* ================================================================== *)
(** ** Patch engine *)
(* ================================================================== *)

Module PatchEngine.

Record PatchResult : Type := mkPatchResult {
  success : bool;
  ast : UIAST;
  appliedPatches : nat;
  errors : list string;
}.

(** *** parsePath *)

Definition is_digit (c : ascii) : bool :=
  let n := nat_of_ascii c in (48 <=? n)%nat && (n <=? 57)%nat.

Definition digit_value (c : ascii) : nat := nat_of_ascii c - 48.

(** The longest run of digits at the head of [s]: its value read in base
    ten ([parseInt(_, 10)]), its length, and the rest of the string.  The
    value is the exact number the digits write; [parseInt] returns the
    double nearest to it, which is that number as long as it is at most
    2^53; the length of an array is far below. *)
Fixpoint read_digits (s : string) (acc len : nat) : nat * nat * string :=
  match s with
  | String c s' =>
      if is_digit c then read_digits s' (10 * acc + digit_value c) (S len)
      else (acc, len, s)
  | EmptyString => (acc, len, s)
  end.

(** One match of [/children\[(\d+)\]/] anchored at the head of [s]: the
    captured index and the number of characters matched. *)
Definition match_segment (s : string) : option (nat * nat) :=
  match strip_prefix "children[" s with
  | None => None
  | Some rest =>
      match read_digits rest 0 0 with
      | (_, O, _) => None
      | (idx, len, String "]" _) => Some (idx, 9 + len + 1)
      | _ => None
      end
  end.

(** The [regex.exec] loop of [parsePath]: matches are searched left to
    right, each search resuming where the previous match ended
    ([lastIndex]).  [skip] counts the characters still covered by the
    last match. *)
Fixpoint scan_path (s : string) (skip : nat) : list nat :=
  match s with
  | EmptyString => []
  | String _ s' =>
      match skip with
      | S k => scan_path s' k
      | O =>
          match match_segment s with
          | Some (idx, len) => idx :: scan_path s' (len - 1)
          | None => scan_path s' 0
          end
      end
  end.

(** A [PathStep] always has [kind: "children"]; only its index is kept. *)
Definition parsePath (targetPath : string) : list nat :=
  scan_path targetPath 0.

(** *** navigateToTarget *)

(** The loop over all steps but the last: [cs] is [current.children],
    [i] the loop counter.  It returns the [children] array of the parent
    it stops at. *)
Fixpoint descend (cs : list UINode) (steps : list nat) (i : nat)
  : Exn.t (list UINode) :=
  match steps with
  | [] => Exn.ret cs
  | k :: rest =>
      match cs !! k with
      | Some (Text _) =>
          Exn.throw ("Path step " +:+ pretty i +:+ " at index " +:+ pretty k
                     +:+ " points to a text node, not a component")
      | Some (Elem _ _ ch) => descend ch rest (S i)
      | Some Undefined | None =>
          Exn.throw ("Path step " +:+ pretty i +:+ " at index " +:+ pretty k
                     +:+ " is out of bounds (" +:+ pretty (List.length cs)
                     +:+ " children)")
      end
  end.

(** The reference [parent] that [navigateToTarget] returns is the list
    of indices that lead to it ([parentPath]; empty for the synthetic
    root whose [children] is [ast.components]), together with the
    [children] it holds. *)
Record Target : Type := mkTarget {
  parentPath : list nat;
  parentChildren : list UINode;
  index : nat;
}.

Definition navigateToTarget (ast : UIAST) (targetPath : string)
  : Exn.t Target :=
  let steps := parsePath targetPath in
  match steps with
  | [] => Exn.throw ("Invalid target path: " +:+ quoted targetPath)
  | _ :: _ =>
      let pre := removelast steps in
      let! cs := descend (components ast) pre 0 in
      Exn.ret {| parentPath := pre; parentChildren := cs;
                 index := List.last steps 0 |}
  end.

(** Writing [cs'] into the [children] of the node reached by [path]. *)
Fixpoint set_children (cs : list UINode) (path : list nat)
    (cs' : list UINode) : list UINode :=
  match path with
  | [] => cs'
  | k :: rest =>
      match cs !! k with
      | Some (Elem t p ch) => <[k := Elem t p (set_children ch rest cs')]> cs
      | _ => cs
      end
  end.

(** An in-place mutation of [parent.children], seen from the document. *)
Definition mutate_parent (ast : UIAST) (tg : Target) (cs' : list UINode)
  : UIAST :=
  with_components ast (set_children (components ast) (parentPath tg) cs').

(** *** addNode, updateNode, removeNode *)

(** [a.splice(i, 0, x)] *)
Definition splice_in (i : nat) (x : UINode) (a : list UINode)
  : list UINode :=
  take i a ++ x :: drop i a.

Definition addNode (ast : UIAST) (targetPath : string) (component : UINode)
  : Exn.t UIAST :=
  let result := ast in
  let steps := parsePath targetPath in
  match steps with
  | [] => Exn.ret (with_components result (components result ++ [component]))
  | _ :: _ =>
      let! tg := navigateToTarget result targetPath in
      let cs := parentChildren tg in
      let cs' :=
        if (List.length cs <=? index tg)%nat then cs ++ [component]
        else splice_in (index tg + 1) component cs in
      let result := mutate_parent result tg cs' in
      (* result.components = parent.children.filter(c => typeof c !== "string") *)
      Exn.ret (with_components result
                 (filter (fun c => is_string c = false) cs'))
  end.

Definition updateNode (ast : UIAST) (targetPath : string)
    (component : UINode) (props : option Props) : Exn.t UIAST :=
  let result := ast in
  let! tg := navigateToTarget result targetPath in
  match parentChildren tg !! index tg with
  | Some (Text _) =>
      Exn.throw ("Cannot update a text node at " +:+ quoted targetPath)
  | Some Undefined | None =>
      Exn.throw ("No node at " +:+ quoted targetPath)
  | Some (Elem t p ch) =>
      if truthy component then
        Exn.ret (mutate_parent result tg
                   (<[index tg := component]> (parentChildren tg)))
      else
        match props with
        | Some new_props =>
            Exn.ret (mutate_parent result tg
                       (<[index tg := Elem t (obj_spread p new_props) ch]>
                          (parentChildren tg)))
        | None => Exn.ret result
        end
  end.

Definition removeNode (ast : UIAST) (targetPath : string) : Exn.t UIAST :=
  let result := ast in
  let! tg := navigateToTarget result targetPath in
  if (List.length (parentChildren tg) <=? index tg)%nat then
    Exn.throw ("No node at index " +:+ pretty (index tg) +:+ " in "
               +:+ quoted targetPath)
  else
    Exn.ret (mutate_parent result tg (delete (index tg) (parentChildren tg))).

Definition applySinglePatch (ast : UIAST) (patch : Patch) : Exn.t UIAST :=
  if String.eqb (action patch) "add" then
    addNode ast (targetPath patch) (component patch)
  else if String.eqb (action patch) "update" then
    updateNode ast (targetPath patch) (component patch) (props patch)
  else if String.eqb (action patch) "remove" then
    removeNode ast (targetPath patch)
  else Exn.throw ("Unknown patch action: " +:+ action patch).

(** *** applyPatches *)

(** The loop state: [current], [errors], [appliedCount]. *)
Record LoopState : Type := mkLoop {
  current : UIAST;
  errs : list string;
  appliedCount : nat;
}.

(** The entry the [catch] block pushes to [errors]. *)
Definition error_entry (patch : Patch) (msg : string) : string :=
  "Patch " +:+ quoted (action patch) +:+ " at " +:+ quoted (targetPath patch)
  +:+ ": " +:+ msg.

(** One turn of the loop: the [try] block and its [catch]. *)
Definition patch_step (st : LoopState) (patch : Patch) : LoopState :=
  match applySinglePatch (current st) patch with
  | inr next =>
      {| current := next; errs := errs st;
         appliedCount := S (appliedCount st) |}
  | inl msg =>
      {| current := current st;
         errs := errs st ++ [error_entry patch msg];
         appliedCount := appliedCount st |}
  end.

Definition run_patches (st : LoopState) (patches : list Patch) : LoopState :=
  fold_left patch_step patches st.

Definition applyPatches (ast0 : UIAST) (patches : list Patch) : PatchResult :=
  let st := run_patches {| current := ast0; errs := []; appliedCount := 0 |}
                        patches in
  {| success := match errs st with [] => true | _ => false end;
     ast := current st;
     appliedPatches := appliedCount st;
     errors := errs st |}.

Definition createEmptyAST : UIAST :=
  {| layout := "Stack"; theme := Some "light"; components := [] |}.

End PatchEngine.


(* ================================================================== *)
(** ** The schema library, as far as the registry uses it *)
(* ================================================================== *)

(** The registry is written with the zod schema library (version 3).  Only
    the constructors the registry uses are modelled, with the order and the
    text of the issues zod reports for them. *)
Module Zod.

Inductive IssueCode : Type :=
| invalid_type
| invalid_enum_value
| invalid_union
| unrecognized_keys
| custom.

Definition code_eqb (a b : IssueCode) : bool :=
  match a, b with
  | invalid_type, invalid_type
  | invalid_enum_value, invalid_enum_value
  | invalid_union, invalid_union
  | unrecognized_keys, unrecognized_keys
  | custom, custom => true
  | _, _ => false
  end.

(** [path] holds the segments already printed, as [path.join(".")]
    prints them; [ukeys] is the [keys] field of an [unrecognized_keys]
    issue. *)
Record Issue : Type := mkIssue {
  code : IssueCode;
  path : list string;
  message : string;
  ukeys : list string;
}.

(** The type names zod reports ([getParsedType]). *)
Definition parsedType (v : JValue) : string :=
  match v with
  | JNull => "null"
  | JBool _ => "boolean"
  | JNum _ => "number"
  | JStr _ => "string"
  | JArr _ => "array"
  | JObj _ => "object"
  end.

Definition joinValues (vs : list string) : string :=
  join " | " (map (fun v => "'" +:+ v +:+ "'") vs).

Definition issue_invalid_type (p : list string) (expected : string)
    (v : JValue) : Issue :=
  mkIssue invalid_type p
    ("Expected " +:+ expected +:+ ", received " +:+ parsedType v) [].

(** A required value that is [undefined]. *)
Definition issue_required (p : list string) : Issue :=
  mkIssue invalid_type p "Required" [].

Definition issue_invalid_union (p : list string) : Issue :=
  mkIssue invalid_union p "Invalid input" [].

(** The property types that occur in the registry. *)
Inductive ZType : Type :=
| ZEnum (values : list string)      (* z.enum([...]) *)
| ZLiterals (values : list Z)       (* z.union([z.literal(n), ...]) *)
| ZBoolean                          (* z.boolean() *)
| ZString                           (* z.string() *)
| ZChartData.                       (* z.array(z.object({label, value})) *)

(** One element of a chart series: [z.object({ label: z.string(),
    value: z.number() })], which drops the keys it does not declare. *)
Definition parse_chart_item (p : list string) (v : JValue)
  : list Issue * JValue :=
  match v with
  | JObj fs =>
      let '(li, lv) :=
        match obj_get "label" fs with
        | None => ([issue_required (p ++ ["label"])], [])
        | Some (JStr s) => ([], [("label", JStr s)])
        | Some w => ([issue_invalid_type (p ++ ["label"]) "string" w], [])
        end in
      let '(vi, vv) :=
        match obj_get "value" fs with
        | None => ([issue_required (p ++ ["value"])], [])
        | Some (JNum n) => ([], [("value", JNum n)])
        | Some w => ([issue_invalid_type (p ++ ["value"]) "number" w], [])
        end in
      (li ++ vi, JObj (lv ++ vv))
  | _ => ([issue_invalid_type p "object" v], v)
  end.

Fixpoint parse_chart_items (p : list string) (i : nat) (vs : list JValue)
  : list Issue * list JValue :=
  match vs with
  | [] => ([], [])
  | v :: vs' =>
      let '(is1, o1) := parse_chart_item (p ++ [pretty i]) v in
      let '(is2, o2) := parse_chart_items p (S i) vs' in
      (is1 ++ is2, o1 :: o2)
  end.

(** Parsing a value that is present: the issues, and the parsed value
    (meaningful when there is no issue). *)
Definition parse_type (ty : ZType) (p : list string) (v : JValue)
  : list Issue * JValue :=
  match ty, v with
  | ZEnum values, JStr s =>
      if string_in s values then ([], v)
      else ([mkIssue invalid_enum_value p
               ("Invalid enum value. Expected " +:+ joinValues values
                +:+ ", received '" +:+ s +:+ "'") []], v)
  | ZEnum values, _ => ([issue_invalid_type p (joinValues values) v], v)
  | ZLiterals values, JNum n =>
      if existsb (Z.eqb n) values then ([], v)
      else ([issue_invalid_union p], v)
  | ZLiterals _, _ => ([issue_invalid_union p], v)
  | ZBoolean, JBool _ => ([], v)
  | ZBoolean, _ => ([issue_invalid_type p "boolean" v], v)
  | ZString, JStr _ => ([], v)
  | ZString, _ => ([issue_invalid_type p "string" v], v)
  | ZChartData, JArr items =>
      let '(iss, out) := parse_chart_items p 0 items in (iss, JArr out)
  | ZChartData, _ => ([issue_invalid_type p "array" v], v)
  end.

(** A declared property: [ty.optional()] when [fdefault] is [None],
    [ty.optional().default(d)] when it is [Some d]. *)
Record Field : Type := mkField {
  fname : string;
  ftype : ZType;
  fdefault : option JValue;
}.

(** [z.object({ ... }).strict()]: the declared properties, in order. *)
Definition ObjectSchema : Type := list Field.

(** The declared properties are parsed in the order of the schema: an
    absent one takes its default, if it has one, and is left out
    otherwise. *)
Fixpoint parse_fields (shape : ObjectSchema) (input : Props)
  : list Issue * Props :=
  match shape with
  | [] => ([], [])
  | f :: shape' =>
      let '(is2, out2) := parse_fields shape' input in
      match obj_get (fname f) input with
      | Some v =>
          let '(is1, o1) := parse_type (ftype f) [fname f] v in
          (is1 ++ is2, (fname f, o1) :: out2)
      | None =>
          match fdefault f with
          | Some d => (is2, (fname f, d) :: out2)
          | None => (is2, out2)
          end
      end
  end.

Definition extra_keys (shape : ObjectSchema) (input : Props) : list string :=
  filter (fun k => string_in k (map fname shape) = false)
    (keys (obj_entries input)).

Definition issue_unrecognized (ks : list string) : Issue :=
  mkIssue unrecognized_keys []
    ("Unrecognized key(s) in object: " +:+ join ", " (map (fun k => "'" +:+ k +:+ "'") ks))
    ks.

(** [schema.safeParse(props)] for a strict object schema: the issues of
    the declared properties come first, one [unrecognized_keys] issue for
    all the undeclared keys comes last.  [inr] is [{ success: true,
    data }], [inl] is [{ success: false, error: { issues } }]. *)
Definition safeParse (shape : ObjectSchema) (input : Props)
  : list Issue + Props :=
  let '(iss, out) := parse_fields shape input in
  let issues :=
    match extra_keys shape input with
    | [] => iss
    | ks => iss ++ [issue_unrecognized ks]
    end in
  match issues with
  | [] => inr out
  | _ => inl issues
  end.

(** The state of a parse: zod goes on after a failed refinement
    ([Dirty]) and gives up the enclosing value after a wrong type
    ([Aborted]). *)
Inductive Status : Type := Valid | Dirty | Aborted.

Definition merge_status (a b : Status) : Status :=
  match a, b with
  | Aborted, _ | _, Aborted => Aborted
  | Dirty, _ | _, Dirty => Dirty
  | Valid, Valid => Valid
  end.

End Zod.

(* ================================================================== *)
(** ** Component registry (lib/schema/ui-ast.ts) *)
(* ================================================================== *)

Module Schema.
Import Zod.

Definition opt (name : string) (ty : ZType) : Field := mkField name ty None.
Definition dflt (name : string) (ty : ZType) (d : JValue) : Field :=
  mkField name ty (Some d).

Definition VariantEnum := ZEnum ["primary"; "secondary"; "ghost"].
Definition SizeEnum := ZEnum ["sm"; "md"; "lg"].
Definition ElevationEnum := ZLiterals [0; 1; 2; 3]%Z.
Definition AnimationEnum := ZEnum ["none"; "fade"; "slide"].
Definition ThemeEnum := ["light"; "dark"].

Definition ButtonVariantEnum :=
  ZEnum ["primary"; "secondary"; "outline"; "ghost"; "destructive"].
Definition ButtonSizeEnum := ZEnum ["sm"; "md"; "lg"; "icon"].

Definition ButtonPropsSchema : ObjectSchema :=
  [ dflt "variant" ButtonVariantEnum (JStr "primary");
    dflt "size" ButtonSizeEnum (JStr "md");
    dflt "elevation" ElevationEnum (JNum 0);
    dflt "animation" AnimationEnum (JStr "none");
    dflt "isLoading" ZBoolean (JBool false);
    opt "onClick" ZString;
    opt "children" ZString;
    opt "disabled" ZBoolean ].

Definition InputPropsSchema : ObjectSchema :=
  [ dflt "type" (ZEnum ["text"; "password"; "email"; "number"]) (JStr "text");
    opt "label" ZString;
    opt "error" ZString;
    opt "placeholder" ZString;
    dflt "elevation" ElevationEnum (JNum 0);
    dflt "animation" AnimationEnum (JStr "none") ].

Definition CardPropsSchema : ObjectSchema :=
  [ dflt "variant" VariantEnum (JStr "primary");
    dflt "elevation" ElevationEnum (JNum 1);
    dflt "animation" AnimationEnum (JStr "none") ].

Definition CardHeaderPropsSchema : ObjectSchema := [].
Definition CardTitlePropsSchema : ObjectSchema := [ opt "children" ZString ].
Definition CardDescriptionPropsSchema : ObjectSchema :=
  [ opt "children" ZString ].
Definition CardContentPropsSchema : ObjectSchema := [].
Definition CardFooterPropsSchema : ObjectSchema := [].

Definition BoxPropsSchema : ObjectSchema :=
  [ dflt "padding" (ZEnum ["none"; "sm"; "md"; "lg"]) (JStr "md");
    dflt "background" (ZEnum ["default"; "muted"; "brand"]) (JStr "default");
    dflt "elevation" ElevationEnum (JNum 0);
    dflt "animation" AnimationEnum (JStr "none") ].

Definition StackPropsSchema : ObjectSchema :=
  [ dflt "direction" (ZEnum ["row"; "column"]) (JStr "column");
    dflt "gap" (ZEnum ["none"; "sm"; "md"; "lg"]) (JStr "md");
    dflt "align" (ZEnum ["start"; "center"; "end"; "stretch"]) (JStr "stretch");
    dflt "justify" (ZEnum ["start"; "center"; "end"; "between"]) (JStr "start");
    dflt "elevation" ElevationEnum (JNum 0);
    dflt "animation" AnimationEnum (JStr "none") ].

Definition GridPropsSchema : ObjectSchema :=
  [ dflt "columns" (ZLiterals [1; 2; 3; 4]%Z) (JNum 1);
    dflt "gap" (ZEnum ["sm"; "md"; "lg"]) (JStr "md");
    dflt "responsive" ZBoolean (JBool true);
    dflt "elevation" ElevationEnum (JNum 0);
    dflt "animation" AnimationEnum (JStr "none") ].

Definition ContainerPropsSchema : ObjectSchema :=
  [ dflt "elevation" ElevationEnum (JNum 0);
    dflt "animation" AnimationEnum (JStr "none") ].

Definition HeadingPropsSchema : ObjectSchema :=
  [ dflt "level" (ZLiterals [1; 2; 3; 4]%Z) (JNum 1);
    opt "children" ZString;
    dflt "elevation" ElevationEnum (JNum 0);
    dflt "animation" AnimationEnum (JStr "none") ].

Definition TextPropsSchema : ObjectSchema :=
  [ dflt "size" SizeEnum (JStr "md");
    dflt "type" (ZEnum ["default"; "muted"]) (JStr "default");
    opt "children" ZString;
    dflt "elevation" ElevationEnum (JNum 0);
    dflt "animation" AnimationEnum (JStr "none") ].

Definition ModalPropsSchema : ObjectSchema :=
  [ dflt "isOpen" ZBoolean (JBool false);
    opt "onClose" ZString;
    opt "title" ZString;
    dflt "variant" VariantEnum (JStr "primary");
    dflt "elevation" ElevationEnum (JNum 2);
    dflt "animation" AnimationEnum (JStr "fade") ].

Definition NavbarPropsSchema : ObjectSchema :=
  [ opt "logo" ZString;
    dflt "variant" VariantEnum (JStr "primary");
    dflt "elevation" ElevationEnum (JNum 1);
    dflt "animation" AnimationEnum (JStr "none");
    dflt "hasDropdown" ZBoolean (JBool false) ].

Definition SidebarPropsSchema : ObjectSchema :=
  [ dflt "variant" VariantEnum (JStr "primary");
    dflt "elevation" ElevationEnum (JNum 0);
    dflt "animation" AnimationEnum (JStr "none");
    dflt "collapsible" ZBoolean (JBool false);
    dflt "defaultCollapsed" ZBoolean (JBool false) ].

Definition SidebarItemPropsSchema : ObjectSchema :=
  [ dflt "isActive" ZBoolean (JBool false);
    opt "icon" ZString;
    opt "children" ZString ].

Definition ChartPropsSchema : ObjectSchema :=
  [ opt "title" ZString;
    opt "data" ZChartData;
    dflt "size" SizeEnum (JStr "md");
    dflt "variant" VariantEnum (JStr "primary");
    dflt "elevation" ElevationEnum (JNum 0);
    dflt "animation" AnimationEnum (JStr "fade") ].

Definition BarChartPropsSchema := ChartPropsSchema.
Definition LineChartPropsSchema := ChartPropsSchema.
Definition PieChartPropsSchema := ChartPropsSchema.

Definition TablePropsSchema : ObjectSchema :=
  [ dflt "elevation" ElevationEnum (JNum 0);
    dflt "animation" AnimationEnum (JStr "none") ].
Definition TableHeaderPropsSchema : ObjectSchema := [].
Definition TableBodyPropsSchema : ObjectSchema := [].
Definition TableRowPropsSchema : ObjectSchema := [].
Definition TableHeadPropsSchema : ObjectSchema := [ opt "children" ZString ].
Definition TableCellPropsSchema : ObjectSchema := [ opt "children" ZString ].
Definition TableFooterPropsSchema : ObjectSchema := [].
Definition TableCaptionPropsSchema : ObjectSchema :=
  [ opt "children" ZString ].

(** [COMPONENT_PROP_SCHEMAS], in the order of the object literal. *)
Definition COMPONENT_PROP_SCHEMAS : list (string * ObjectSchema) :=
  [ ("Button", ButtonPropsSchema);
    ("Input", InputPropsSchema);
    ("Card", CardPropsSchema);
    ("CardHeader", CardHeaderPropsSchema);
    ("CardTitle", CardTitlePropsSchema);
    ("CardDescription", CardDescriptionPropsSchema);
    ("CardContent", CardContentPropsSchema);
    ("CardFooter", CardFooterPropsSchema);
    ("Box", BoxPropsSchema);
    ("Stack", StackPropsSchema);
    ("Grid", GridPropsSchema);
    ("Container", ContainerPropsSchema);
    ("Heading", HeadingPropsSchema);
    ("Text", TextPropsSchema);
    ("Modal", ModalPropsSchema);
    ("Navbar", NavbarPropsSchema);
    ("Sidebar", SidebarPropsSchema);
    ("SidebarItem", SidebarItemPropsSchema);
    ("BarChart", BarChartPropsSchema);
    ("LineChart", LineChartPropsSchema);
    ("PieChart", PieChartPropsSchema);
    ("Table", TablePropsSchema);
    ("TableHeader", TableHeaderPropsSchema);
    ("TableBody", TableBodyPropsSchema);
    ("TableRow", TableRowPropsSchema);
    ("TableHead", TableHeadPropsSchema);
    ("TableCell", TableCellPropsSchema);
    ("TableFooter", TableFooterPropsSchema);
    ("TableCaption", TableCaptionPropsSchema) ].

(** [COMPONENT_PROP_SCHEMAS[type]], for a [type] that names no member of
    [Object.prototype] ([constructor], [toString], ...): for such a name
    the source reads the inherited member, which is no schema, and
    [validateNodeProps] throws a [TypeError] on it.  [validateUIAST] and
    [generateCodeFromAST] only look up a type they have found among the
    own keys of the registry. *)
Fixpoint schema_for_in (tbl : list (string * ObjectSchema)) (type : string)
  : option ObjectSchema :=
  match tbl with
  | [] => None
  | (k, sch) :: tbl' =>
      if String.eqb type k then Some sch else schema_for_in tbl' type
  end.

Definition schema_for (type : string) : option ObjectSchema :=
  schema_for_in COMPONENT_PROP_SCHEMAS type.

(** [Object.keys(COMPONENT_PROP_SCHEMAS)] *)
Definition ALLOWED_COMPONENT_TYPES : list string :=
  map fst COMPONENT_PROP_SCHEMAS.

Definition LayoutEnum : list string :=
  ["Stack"; "Grid"; "Sidebar"; "Dashboard"; "Form"; "Hero"; "Split"; "Full"].

End Schema.

(* ================================================================== *)
(** ** AST validator (lib/schema/ui-ast.ts) *)
(* ================================================================== *)

Module Validator.
Import Zod Schema.

Record ASTValidationResult : Type := mkValidation {
  valid : bool;
  errors : list string;
  warnings : list string;
  sanitizedAST : option UIAST;
}.

Definition issue_enum (p : list string) (values : list string) (s : string)
  : Issue :=
  mkIssue invalid_enum_value p
    ("Invalid enum value. Expected " +:+ joinValues values
     +:+ ", received '" +:+ s +:+ "'") [].

(** The refinement on [type] in [UIASTNodeSchema]. *)
Definition type_issues (p : list string) (type : string) : list Issue :=
  if string_in type ALLOWED_COMPONENT_TYPES then []
  else [mkIssue custom (p ++ ["type"])
          ("Unknown component type. Allowed: "
           +:+ join ", " ALLOWED_COMPONENT_TYPES) []].

(** [UIASTNodeSchema] at a value that has to be a node.  A child is
    parsed by [z.union([UIASTNodeSchema, z.string()])]: a text is valid,
    a node whose parse is [Dirty] keeps the issues of that parse, and one
    whose parse is [Aborted] is reported as a single [invalid_union]. *)
Fixpoint parse_node (p : list string) (n : UINode) {struct n}
  : Status * list Issue :=
  match n with
  | Undefined => (Aborted, [issue_required p])
  | Text s => (Aborted, [issue_invalid_type p "object" (JStr s)])
  | Elem type _ children =>
      let ti := type_issues p type in
      let rc :=
        fold_indexed
          (fun c j (acc : Status * list Issue) =>
             let q := p ++ ["children"; pretty j] in
             let r :=
               match c with
               | Text _ => (Valid, [])
               | Undefined => (Aborted, [issue_invalid_union q])
               | Elem _ _ _ =>
                   match parse_node q c with
                   | (Aborted, _) => (Aborted, [issue_invalid_union q])
                   | r => r
                   end
               end in
             (merge_status acc.1 r.1, acc.2 ++ r.2))
          children 0 (Valid, []) in
      (merge_status (match ti with [] => Valid | _ => Dirty end) rc.1,
       ti ++ rc.2)
  end.

(** [components: z.array(UIASTNodeSchema)] *)
Definition parse_components (cs : list UINode) : list Issue :=
  fold_indexed
    (fun c i issues => issues ++ (parse_node ["components"; pretty i] c).2)
    cs 0 [].

(** What [z.record(z.string(), z.unknown())] returns for [props]: a new
    object with the properties of the input, but for an own property
    named [__proto__], which zod leaves out when it builds an object. *)
Definition record_parse (props : list (string * JValue))
  : list (string * JValue) :=
  filter (fun kv => String.eqb kv.1 "__proto__" = false) props.

(** The copy of a node that a successful parse returns. *)
Fixpoint parsed_node (n : UINode) : UINode :=
  match n with
  | Elem type props children =>
      Elem type (record_parse props) (map parsed_node children)
  | _ => n
  end.

(** [UIASTSchema.safeParse(ast)]: the issues in the order [layout],
    [theme], [components]; the parsed document is a copy with [theme]
    defaulted and the properties of every node as [record_parse] returns
    them. *)
Definition UIASTSchema_safeParse (ast : UIAST) : list Issue + UIAST :=
  let li :=
    if string_in (layout ast) LayoutEnum then []
    else [issue_enum ["layout"] LayoutEnum (layout ast)] in
  let ti :=
    match theme ast with
    | None => []
    | Some t =>
        if string_in t ThemeEnum then []
        else [issue_enum ["theme"] ThemeEnum t]
    end in
  match li ++ ti ++ parse_components (components ast) with
  | [] =>
      inr {| layout := layout ast;
             theme := Some (default "light" (theme ast));
             components := map parsed_node (components ast) |}
  | issues => inl issues
  end.

(** The two arrays [validateNode] pushes to. *)
Record Report : Type := mkReport {
  r_errors : list string;
  r_warnings : list string;
}.

(** The loop over [propResult.error.issues]. *)
Definition report_issue (path type : string) (r : Report) (issue : Issue)
  : Report :=
  if code_eqb (code issue) unrecognized_keys then
    {| r_errors := r_errors r;
       r_warnings := r_warnings r ++
         [path +:+ ".props: Unknown prop(s) " +:+ join ", " (ukeys issue)
          +:+ " on <" +:+ type +:+ "> â€” stripped"] |}
  else
    {| r_errors := r_errors r ++
         [path +:+ ".props." +:+ join "." (Zod.path issue) +:+ ": "
          +:+ message issue];
       r_warnings := r_warnings r |}.

(** [validateNode(node, path)].  It is only called on nodes of a document
    that passed [UIASTSchema.safeParse], which holds no [Undefined] and no
    text among [components]; at those values nothing is reported. *)
Fixpoint validateNode (node : UINode) (path : string) (r : Report)
    {struct node} : Report :=
  match node with
  | Undefined | Text _ => r
  | Elem type props children =>
      match schema_for type with
      | None =>
          {| r_errors := r_errors r ++
               [path +:+ ": Unknown component " +:+ quoted type];
             r_warnings := r_warnings r |}
      | Some schema =>
          let r1 :=
            match safeParse schema props with
            | inr _ => r
            | inl issues => fold_left (report_issue path type) issues r
            end in
          fold_indexed
            (fun child i r =>
               validateNode child
                 (path +:+ ".children[" +:+ pretty i +:+ "]") r)
            children 0 r1
      end
  end.

(** [parsed.components.forEach((comp, i) => validateNode(comp, ...))] *)
Definition validate_components (cs : list UINode) (r : Report) : Report :=
  fold_indexed
    (fun comp i r => validateNode comp ("components[" +:+ pretty i +:+ "]") r)
    cs 0 r.

Definition validateUIAST (ast : UIAST) : ASTValidationResult :=
  match UIASTSchema_safeParse ast with
  | inl issues =>
      {| valid := false;
         errors := map (fun i => "[" +:+ join "." (Zod.path i) +:+ "] "
                                 +:+ message i) issues;
         warnings := [];
         sanitizedAST := None |}
  | inr parsed =>
      let r := validate_components (components parsed)
                 {| r_errors := []; r_warnings := [] |} in
      {| valid := match r_errors r with [] => true | _ => false end;
         errors := r_errors r;
         warnings := r_warnings r;
         sanitizedAST := Some parsed |}
  end.

(** [validateNodeProps(type, props)] *)
Record PropsResult : Type := mkPropsResult {
  p_valid : bool;
  p_sanitized : Props;
  p_errors : list string;
}.

Definition validateNodeProps (type : string) (props : Props) : PropsResult :=
  match schema_for type with
  | None =>
      {| p_valid := false; p_sanitized := [];
         p_errors := ["Unknown component: " +:+ type] |}
  | Some schema =>
      match safeParse schema props with
      | inr data =>
          {| p_valid := true; p_sanitized := data; p_errors := [] |}
      | inl issues =>
          {| p_valid := false; p_sanitized := props;
             p_errors := map (fun i => join "." (Zod.path i) +:+ ": "
                                       +:+ message i) issues |}
      end
  end.

End Validator.

(* ================================================================== *)
(** ** What a valid document is *)
(* ================================================================== *)

Module Conformance.
Import Zod Schema Validator.

(** The properties of a node satisfy the schema of its type, after the
    defaults are applied: [safeParse] succeeds. *)
Definition satisfies (schema : ObjectSchema) (props : Props) : bool :=
  match safeParse schema props with
  | inr _ => true
  | inl _ => false
  end.

(** The declared properties that are present are in their domain; keys the
    schema does not declare are not looked at. *)
Definition declared_ok (schema : ObjectSchema) (props : Props) : bool :=
  match (parse_fields schema props).1 with
  | [] => true
  | _ => false
  end.

(** Every node of the tree has a registry-known type and properties that
    are [ok] for the schema of that type. *)
Fixpoint node_conforms (ok : ObjectSchema -> Props -> bool) (n : UINode)
  : bool :=
  match n with
  | Undefined => false
  | Text _ => true
  | Elem type props children =>
      match schema_for type with
      | None => false
      | Some schema => ok schema props && forallb (node_conforms ok) children
      end
  end.

(** The document parses against the top-level schema. *)
Definition parses (D : UIAST) : bool :=
  match UIASTSchema_safeParse D with
  | inr _ => true
  | inl _ => false
  end.

Definition conforms (ok : ObjectSchema -> Props -> bool) (D : UIAST) : bool :=
  parses D && forallb (node_conforms ok) (components D).

(** The component types that occur in a tree. *)
Fixpoint node_types (n : UINode) : list string :=
  match n with
  | Elem type _ children => type :: flat_map node_types children
  | _ => []
  end.

Definition doc_types (D : UIAST) : list string :=
  flat_map node_types (components D).

End Conformance.

(* ================================================================== *)
(** ** JavaScript conversions used by the generator *)
(* ================================================================== *)

Module JS.

(** Truthiness of a value of an object, [None] being an absent key. *)
Definition truthy_value (v : option JValue) : bool :=
  match v with
  | None | Some JNull => false
  | Some (JBool b) => b
  | Some (JNum n) => negb (Z.eqb n 0)
  | Some (JStr s) => negb (String.eqb s EmptyString)
  | Some (JArr _) | Some (JObj _) => true
  end.

(** [String(v)], the conversion a template literal and a property key
    apply. *)
Fixpoint to_string (v : JValue) : string :=
  match v with
  | JNull => "null"
  | JBool true => "true"
  | JBool false => "false"
  | JNum n => pretty n
  | JStr s => s
  | JArr items =>
      join ","
        (map (fun i => match i with JNull => EmptyString | _ => to_string i end)
             items)
  | JObj _ => "[object Object]"
  end.

Definition hex_digit (n : nat) : string :=
  String (ascii_of_nat (if (n <? 10)%nat then 48 + n else 87 + n)) EmptyString.

(** One character inside a JSON string. *)
Definition escape_char (c : ascii) : string :=
  let n := nat_of_ascii c in
  if (n =? 34)%nat then "\" +:+ DQ
  else if (n =? 92)%nat then "\\"
  else if (n =? 8)%nat then "\b"
  else if (n =? 12)%nat then "\f"
  else if (n =? 10)%nat then "\n"
  else if (n =? 13)%nat then "\r"
  else if (n =? 9)%nat then "\t"
  else if (n <? 32)%nat then "\u00" +:+ hex_digit (n / 16) +:+ hex_digit (n mod 16)
  else String c EmptyString.

Fixpoint escape (s : string) : string :=
  match s with
  | EmptyString => EmptyString
  | String c s' => escape_char c +:+ escape s'
  end.

(** [JSON.stringify(v)], on the values of [JValue]: a number is written
    in plain decimal, as JavaScript writes an integer up to 2^53 in
    magnitude, and the keys of an object come in the order in which
    JavaScript enumerates them. *)
Fixpoint stringify (v : JValue) : string :=
  match v with
  | JNull => "null"
  | JBool true => "true"
  | JBool false => "false"
  | JNum n => pretty n
  | JStr s => quoted (escape s)
  | JArr items => "[" +:+ join "," (map stringify items) +:+ "]"
  | JObj fields =>
      "{" +:+ join ","
                (obj_entries
                   (map (fun kv =>
                           (kv.1,
                            quoted (escape kv.1) +:+ ":" +:+ stringify kv.2))
                        fields)).*2
          +:+ "}"
  end.

(** What a property that an object literal inherits from
    [Object.prototype] prints as in a template literal. *)
Definition inherited (k : string) : option string :=
  if String.eqb k "__proto__" then Some "[object Object]"
  else if String.eqb k "constructor" then
    Some "function Object() { [native code] }"
  else if string_in k
            ["__defineGetter__"; "__defineSetter__"; "hasOwnProperty";
             "__lookupGetter__"; "__lookupSetter__"; "isPrototypeOf";
             "propertyIsEnumerable"; "toString"; "valueOf";
             "toLocaleString"] then
    Some ("function " +:+ k +:+ "() { [native code] }")
  else None.

Fixpoint own (tbl : list (string * string)) (k : string) : option string :=
  match tbl with
  | [] => None
  | (k', v) :: tbl' => if String.eqb k k' then Some v else own tbl' k
  end.

(** [tbl[k]] on an object literal of strings, [None] being [undefined]. *)
Definition lookup (tbl : list (string * string)) (k : string)
  : option string :=
  match own tbl k with
  | Some v => Some v
  | None => inherited k
  end.

End JS.

(* ================================================================== *)
(** ** Code generator (lib/engine/ast-to-code) *)
(* ================================================================== *)

Module Generator.
Import Schema Validator.

Definition Layouts := "@/components/ui-lib/Layouts".

Definition IMPORT_MAP : list (string * string) :=
  [ ("Button", "@/components/ui-lib/Button");
    ("Input", "@/components/ui-lib/Input");
    ("Card", "@/components/ui-lib/Card");
    ("CardHeader", "@/components/ui-lib/Card");
    ("CardTitle", "@/components/ui-lib/Card");
    ("CardDescription", "@/components/ui-lib/Card");
    ("CardContent", "@/components/ui-lib/Card");
    ("CardFooter", "@/components/ui-lib/Card");
    ("Box", Layouts);
    ("Stack", Layouts);
    ("Grid", Layouts);
    ("Container", Layouts);
    ("Heading", "@/components/ui-lib/Typography");
    ("Text", "@/components/ui-lib/Typography");
    ("Table", "@/components/ui-lib/Table");
    ("TableHeader", "@/components/ui-lib/Table");
    ("TableBody", "@/components/ui-lib/Table");
    ("TableRow", "@/components/ui-lib/Table");
    ("TableHead", "@/components/ui-lib/Table");
    ("TableCell", "@/components/ui-lib/Table");
    ("TableFooter", "@/components/ui-lib/Table");
    ("TableCaption", "@/components/ui-lib/Table");
    ("Modal", "@/components/ui-lib/Modal");
    ("Navbar", "@/components/ui-lib/Navbar");
    ("Sidebar", "@/components/ui-lib/Sidebar");
    ("SidebarItem", "@/components/ui-lib/Sidebar");
    ("BarChart", "@/components/ui-lib/Chart");
    ("LineChart", "@/components/ui-lib/Chart");
    ("PieChart", "@/components/ui-lib/Chart") ].

Definition HANDLER_PROPS : list string := ["onClick"; "onClose"; "onChange"].

Definition RAW_VALUE_PROPS : list string :=
  [ "isLoading"; "isOpen"; "isActive"; "disabled"; "columns"; "level";
    "elevation"; "collapsible"; "defaultCollapsed"; "hasDropdown";
    "responsive" ].

Definition ICON_CONFLICTS : list (string * string) :=
  [ ("BarChart", "BarChartIcon");
    ("Table", "TableIcon");
    ("Card", "CardIcon");
    ("Input", "InputIcon") ].

Record GeneratorResult : Type := mkGeneratorResult {
  code : string;
  errors : list string;
  warnings : list string;
  usedComponents : list string;
  usedIcons : list string;
}.

(** The arrays and sets of the closure that [renderNode] writes to. *)
Record GenState : Type := mkGenState {
  g_errors : list string;
  g_warnings : list string;
  g_usedComponents : list string;
  g_usedIcons : list string;
}.

Definition initial : GenState :=
  {| g_errors := []; g_warnings := [];
     g_usedComponents := []; g_usedIcons := [] |}.

(** *** scanForState *)

Record Flags : Type := mkFlags {
  needsModalState : bool;
  needsSidebarCollapse : bool;
  needsNavDropdown : bool;
}.

Definition no_flags : Flags :=
  {| needsModalState := false; needsSidebarCollapse := false;
     needsNavDropdown := false |}.

Definition scan_flags (type : string) (props : Props) (f : Flags) : Flags :=
  let f1 :=
    if String.eqb type "Modal" then
      {| needsModalState := true;
         needsSidebarCollapse := needsSidebarCollapse f;
         needsNavDropdown := needsNavDropdown f |}
    else f in
  let f2 :=
    if String.eqb type "Sidebar"
       && JS.truthy_value (obj_get "collapsible" props) then
      {| needsModalState := needsModalState f1;
         needsSidebarCollapse := true;
         needsNavDropdown := needsNavDropdown f1 |}
    else f1 in
  if String.eqb type "Navbar"
     && JS.truthy_value (obj_get "hasDropdown" props) then
    {| needsModalState := needsModalState f2;
       needsSidebarCollapse := needsSidebarCollapse f2;
       needsNavDropdown := true |}
  else f2.

(** The body of the loop of [scanForState] at one node.  Reading
    [node.type] of [undefined] throws a [TypeError]. *)
Fixpoint scan_node (node : UINode) (f : Flags) {struct node} : Exn.t Flags :=
  match node with
  | Text _ => Exn.ret f
  | Undefined =>
      Exn.throw "Cannot read properties of undefined (reading 'type')"
  | Elem type props children =>
      fold_left (fun acc c => let! f' := acc in scan_node c f') children
        (Exn.ret (scan_flags type props f))
  end.

Definition scanForState (nodes : list UINode) (f : Flags) : Exn.t Flags :=
  fold_left (fun acc node => let! f' := acc in scan_node node f') nodes
    (Exn.ret f).

(** *** renderNode and its helpers *)

Definition validateAndClean (type : string) (props : Props)
  : Props * list string * list string :=
  let result := validateNodeProps type props in
  if p_valid result then (p_sanitized result, [], [])
  else (props, p_errors result, []).

Definition handlerMap : list (string * string) :=
  [ ("openModal", "handleOpenModal");
    ("closeModal", "handleCloseModal");
    ("toggleSidebar", "toggleSidebar");
    ("toggleDropdown", "toggleDropdown") ].

Definition mapHandler (key : string) (value : JValue) : string :=
  match JS.lookup handlerMap (JS.to_string value) with
  | Some h => h
  | None => "() => {}"
  end.

(** [ICON_CONFLICTS[value] || value] *)
Definition icon_name (value : string) : string :=
  match JS.lookup ICON_CONFLICTS value with
  | Some alias => alias
  | None => value
  end.

(** The body of the loop over [Object.entries(sanitized)]: the parts one
    entry pushes to [propParts]. *)
Definition prop_part (key : string) (value : JValue) : list string :=
  if String.eqb key "children" then []
  else if string_in key HANDLER_PROPS then
    [key +:+ "={" +:+ mapHandler key value +:+ "}"]
  else
    match String.eqb key "icon", String.eqb key "logo", value with
    | true, _, JStr v =>
        ["icon={<" +:+ icon_name v +:+ " className=" +:+ quoted "h-4 w-4"
         +:+ " />}"]
    | _, true, JStr v =>
        ["logo={<" +:+ icon_name v +:+ " className=" +:+ quoted "h-5 w-5"
         +:+ " />}"]
    | _, _, _ =>
        match String.eqb key "data", value with
        | true, JArr _ => ["data={" +:+ JS.stringify value +:+ "}"]
        | _, _ =>
            if string_in key RAW_VALUE_PROPS then
              [key +:+ "={" +:+ JS.stringify value +:+ "}"]
            else
              match value with
              | JStr v => [key +:+ "=" +:+ quoted v]
              | JBool true => [key]
              | JBool false => [key +:+ "={false}"]
              | JNum n => [key +:+ "={" +:+ pretty n +:+ "}"]
              | _ => []
              end
        end
    end.

Definition propParts (sanitized : Props) : list string :=
  flat_map (fun kv => prop_part kv.1 kv.2) (obj_entries sanitized).

(** The text after the first closing brace of [s]. *)
Fixpoint after_brace (s : string) : option string :=
  match s with
  | EmptyString => None
  | String c s' =>
      if Ascii.eqb c "}"%char then Some s' else after_brace s'
  end.

(** [s.replace(/isOpen=\{[^}]*\}/, "isOpen={modalOpen}")]: the first
    match is replaced. *)
Fixpoint replace_isOpen (s : string) : string :=
  match s with
  | EmptyString => EmptyString
  | String c s' =>
      match strip_prefix "isOpen={" s with
      | Some rest =>
          match after_brace rest with
          | Some tail => "isOpen={modalOpen}" +:+ tail
          | None => String c (replace_isOpen s')
          end
      | None => String c (replace_isOpen s')
      end
  end.

Definition modal_override (type propsStr : string) : string :=
  if String.eqb type "Modal" then
    let s := replace_isOpen propsStr in
    if includes "onClose" s then s else s +:+ " onClose={handleCloseModal}"
  else propsStr.

Definition pad (indent : nat) : string := repeat_string "  " indent.

(** [usedIcons.add(sanitized[k])] when that value is a non-empty string. *)
Definition add_icon (k : string) (sanitized : Props) (icons : list string)
  : list string :=
  match obj_get k sanitized with
  | Some (JStr v) =>
      if String.eqb v EmptyString then icons else set_add v icons
  | _ => icons
  end.

(** [renderNode(node, indent)].  [generateCodeFromAST] calls it after
    [scanForState] has read every node, so it never meets [Undefined]
    there. *)
Fixpoint renderNode (node : UINode) (indent : nat) (st : GenState)
    {struct node} : string * GenState :=
  match node with
  | Undefined => (EmptyString, st)
  | Text s => (pad indent +:+ s, st)
  | Elem type props children =>
      if negb (string_in type ALLOWED_COMPONENT_TYPES) then
        (pad indent +:+ "{/* Unknown component: " +:+ type +:+ " */}",
         {| g_errors := g_errors st ++ ["Unknown component: " +:+ type];
            g_warnings := g_warnings st;
            g_usedComponents := g_usedComponents st;
            g_usedIcons := g_usedIcons st |})
      else
        let '(sanitized, propErrors, propWarnings) :=
          validateAndClean type props in
        let st1 :=
          {| g_errors := g_errors st ++ propErrors;
             g_warnings := g_warnings st ++ propWarnings;
             g_usedComponents := set_add type (g_usedComponents st);
             g_usedIcons :=
               add_icon "logo" sanitized
                 (add_icon "icon" sanitized (g_usedIcons st)) |} in
        let parts := propParts sanitized in
        let propsStr :=
          match parts with
          | [] => EmptyString
          | _ => " " +:+ join " " parts
          end in
        let finalPropsStr := modal_override type propsStr in
        let own_text :=
          match obj_get "children" sanitized with
          | Some (JStr t) =>
              if String.eqb t EmptyString then []
              else [pad (indent + 1) +:+ t]
          | _ => []
          end in
        let '(kids, st2) :=
          fold_left
            (fun (acc : list string * GenState) child =>
               let '(s1, st') := renderNode child (indent + 1) acc.2 in
               (acc.1 ++ [s1], st'))
            children ([], st1) in
        match own_text ++ kids with
        | [] => (pad indent +:+ "<" +:+ type +:+ finalPropsStr +:+ " />", st2)
        | childContent =>
            (join NL
               ([pad indent +:+ "<" +:+ type +:+ finalPropsStr +:+ ">"]
                ++ childContent
                ++ [pad indent +:+ "</" +:+ type +:+ ">"]),
             st2)
        end
  end.

(** [ast.components.map((comp) => renderNode(comp, 2))] *)
Definition render_all (cs : list UINode) (st : GenState)
  : list string * GenState :=
  fold_left
    (fun (acc : list string * GenState) comp =>
       let '(s1, st') := renderNode comp 2 acc.2 in
       (acc.1 ++ [s1], st'))
    cs ([], st).

(** *** The import block *)

(** A [Map<string, Set<string>>] in insertion order: [add] of the final
    import groups. *)
Fixpoint group_add (path comp : string) (groups : list (string * list string))
  : list (string * list string) :=
  match groups with
  | [] => [(path, [comp])]
  | (p, comps) :: groups' =>
      if String.eqb path p then (p, set_add comp comps) :: groups'
      else (p, comps) :: group_add path comp groups'
  end.

(** The body of the loop over [[...usedComponents, "Container"]]. *)
Definition import_step (groups : list (string * list string)) (comp : string)
  : list (string * list string) :=
  match JS.lookup IMPORT_MAP comp with
  | Some path => group_add path comp groups
  | None => groups
  end.

Definition finalImportGroups (used : list string)
  : list (string * list string) :=
  fold_left import_step (used ++ ["Container"]) [].

(** The names one import line brings in, as it prints them. *)
Definition line_names (group : string * list string) : list string :=
  sort_strings group.2.

Definition import_line (group : string * list string) : string :=
  "import { " +:+ join ", " (line_names group) +:+ " } from "
  +:+ quoted group.1 +:+ ";".

(** The names all the component import lines bring in. *)
Definition imported_names (groups : list (string * list string))
  : list string :=
  flat_map line_names groups.

(** Every name of a group is one [IMPORT_MAP] sends to the module of the
    group. *)
Definition paths_ok (groups : list (string * list string)) : Prop :=
  Forall (fun g => forall c, c ∈ g.2 -> JS.lookup IMPORT_MAP c = Some g.1)
    groups.

(** [import { useState } from "react";], when some state is declared. *)
Definition react_lines (decls : list string) : list string :=
  match decls with
  | [] => []
  | _ => ["import { useState } from " +:+ quoted "react" +:+ ";"]
  end.

Definition icon_import (icon : string) : string :=
  match JS.lookup ICON_CONFLICTS icon with
  | Some alias => icon +:+ " as " +:+ alias
  | None => icon
  end.

Definition icon_lines (icons : list string) : list string :=
  match icons with
  | [] => []
  | _ => ["import { " +:+ join ", " (map icon_import (sort_strings icons))
          +:+ " } from " +:+ quoted "lucide-react" +:+ ";"]
  end.

Definition stateDeclarations (f : Flags) : list string :=
  (if needsModalState f
   then ["const [modalOpen, setModalOpen] = useState(false);"] else [])
  ++ (if needsSidebarCollapse f
      then ["const [sidebarCollapsed, setSidebarCollapsed] = useState(false);"]
      else [])
  ++ (if needsNavDropdown f
      then ["const [dropdownOpen, setDropdownOpen] = useState(false);"]
      else []).

Definition handlerDeclarations (f : Flags) : list string :=
  (if needsModalState f
   then ["const handleOpenModal = () => setModalOpen(true);";
         "const handleCloseModal = () => setModalOpen(false);"] else [])
  ++ (if needsSidebarCollapse f
      then ["const toggleSidebar = () => setSidebarCollapsed(prev => !prev);"]
      else [])
  ++ (if needsNavDropdown f
      then ["const toggleDropdown = () => setDropdownOpen(prev => !prev);"]
      else []).

Definition finalImportLines (f : Flags) (st : GenState) : list string :=
  react_lines (stateDeclarations f)
  ++ map import_line (finalImportGroups (g_usedComponents st))
  ++ icon_lines (g_usedIcons st).

(** ["\n" + decls.map((d) => "  " + d).join("\n")], or nothing. *)
Definition block (decls : list string) : string :=
  match decls with
  | [] => EmptyString
  | _ => NL +:+ join NL (map (fun d => "  " +:+ d) decls)
  end.

Definition finalCode (f : Flags) (st : GenState) (jsxBody : string) : string :=
  join NL (finalImportLines f st) +:+ NL +:+ NL
  +:+ "export default function GeneratedUI() {"
  +:+ block (stateDeclarations f) +:+ block (handlerDeclarations f) +:+ NL
  +:+ NL
  +:+ "  return (" +:+ NL
  +:+ "    <Container>" +:+ NL
  +:+ jsxBody +:+ NL
  +:+ "    </Container>" +:+ NL
  +:+ "  );" +:+ NL
  +:+ "}" +:+ NL.

(** [generateCodeFromAST(ast)].  The first import list the source builds
    ([importGroups], [importLines]) is never read again and is left out. *)
Definition generateCodeFromAST (ast : UIAST) : Exn.t GeneratorResult :=
  let! flags := scanForState (components ast) no_flags in
  let '(jsxLines, st) := render_all (components ast) initial in
  Exn.ret {| code := trim (finalCode flags st (join NL jsxLines));
             errors := g_errors st;
             warnings := g_warnings st;
             usedComponents := g_usedComponents st;
             usedIcons := g_usedIcons st |}.

End Generator.

(* ================================================================== *)
(** ** Regular expressions of the sandbox *)
(* ================================================================== *)

Module Regex.

(** A text the sandbox is given is the list of its UTF-16 code units
    (numbers below 65536): its patterns, none of which has the [u] flag,
    match code unit by code unit, and [code.length] counts them. *)
Definition Ustring : Type := list N.

(** The code units of a text written with characters below 128. *)
Fixpoint units (s : string) : Ustring :=
  match s with
  | EmptyString => []
  | String c s' => N_of_ascii c :: units s'
  end.

(** The patterns of the sandbox are sequences of these items; a star is
    only ever applied to a character class. *)
Inductive Atom : Type :=
| Lit (c : N)                 (* one given code unit *)
| Cls (f : N -> bool)         (* one code unit of a class *)
| Star (f : N -> bool)        (* class*, greedy *)
| WordB.                      (* \b *)

Definition Pattern : Type := list Atom.

Record t : Type := mkRegex {
  source : string;
  atoms : Pattern;
}.

Fixpoint lit (s : string) : Pattern :=
  match s with
  | EmptyString => []
  | String c s' => Lit (N_of_ascii c) :: lit s'
  end.

(** [\w]: a letter of the basic alphabet, a digit or the underscore. *)
Definition is_word (c : N) : bool :=
  ((48 <=? c) && (c <=? 57) || (65 <=? c) && (c <=? 90)
   || (97 <=? c) && (c <=? 122) || (c =? 95))%N.

Definition word_before (prev : option N) : bool :=
  match prev with Some c => is_word c | None => false end.

Definition word_after (s : Ustring) : bool :=
  match s with c :: _ => is_word c | [] => false end.

(** [\b] holds between [prev] and the head of [s]. *)
Definition boundary (prev : option N) (s : Ustring) : bool :=
  xorb (word_before prev) (word_after s).

(** A match anchored at the head of [s], [prev] being the code unit
    before it: the text that follows the match the backtracking search
    finds first. *)
Fixpoint match_here (p : Pattern) (prev : option N) (s : Ustring)
    {struct p} : option Ustring :=
  match p with
  | [] => Some s
  | Lit c :: p' =>
      match s with
      | a :: s' => if (a =? c)%N then match_here p' (Some a) s' else None
      | [] => None
      end
  | Cls f :: p' =>
      match s with
      | a :: s' => if f a then match_here p' (Some a) s' else None
      | [] => None
      end
  | WordB :: p' => if boundary prev s then match_here p' prev s else None
  | Star f :: p' =>
      (fix star (prev : option N) (s : Ustring) {struct s} : option Ustring :=
         match s with
         | a :: s' =>
             if f a then
               match star (Some a) s' with
               | Some r => Some r
               | None => match_here p' prev s
               end
             else match_here p' prev s
         | [] => match_here p' prev s
         end) prev s
  end.

(** The search for a match from every start position, left to right. *)
Fixpoint search (p : Pattern) (prev : option N) (s : Ustring) : bool :=
  match match_here p prev s with
  | Some _ => true
  | None =>
      match s with
      | a :: s' => search p (Some a) s'
      | [] => false
      end
  end.

(** [pattern.lastIndex = 0; pattern.test(code)] *)
Definition test (r : t) (code : Ustring) : bool :=
  search (atoms r) None code.

(** [s.replace(/(p)/g, "$1" + ins)]: [ins] is put after every match.
    [skip] counts the code units of the current match still to copy. *)
Fixpoint insert_after (p : Pattern) (ins : Ustring) (prev : option N)
    (s : Ustring) (skip : nat) : Ustring :=
  match s with
  | [] => []
  | c :: s' =>
      let n :=
        match skip with
        | S _ => skip
        | O =>
            match match_here p prev s with
            | Some rest => List.length s - List.length rest
            | None => 0
            end
        end in
      match n with
      | O => c :: insert_after p ins (Some c) s' 0
      | S O => c :: (ins ++ insert_after p ins (Some c) s' 0)
      | S (S k) => c :: insert_after p ins (Some c) s' (S k)
      end
  end.

(** What it means for a text to match a pattern, [prev] being the code
    unit before the text and the last argument what is left of it. *)
Inductive Matches : Pattern -> option N -> Ustring -> Ustring -> Prop :=
| M_end prev s : Matches [] prev s s
| M_lit c p prev s r :
    Matches p (Some c) s r -> Matches (Lit c :: p) prev (c :: s) r
| M_cls f a p prev s r :
    f a = true -> Matches p (Some a) s r ->
    Matches (Cls f :: p) prev (a :: s) r
| M_wordb p prev s r :
    boundary prev s = true -> Matches p prev s r ->
    Matches (WordB :: p) prev s r
| M_star_stop f p prev s r :
    Matches p prev s r -> Matches (Star f :: p) prev s r
| M_star_step f a p prev s r :
    f a = true -> Matches (Star f :: p) (Some a) s r ->
    Matches (Star f :: p) prev (a :: s) r.

Fixpoint last_char (prev : option N) (s : Ustring) : option N :=
  match s with
  | [] => prev
  | c :: s' => last_char (Some c) s'
  end.

(** [code] holds a match of [p] somewhere. *)
Definition Contains (p : Pattern) (code : Ustring) : Prop :=
  exists before rest after,
    code = before ++ rest /\
    Matches p (last_char None before) rest after.

End Regex.

(* ================================================================== *)
(** ** Execution sandbox (lib/engine/sandbox.ts) *)
(* ================================================================== *)

Module Sandbox.
Import Regex.

Definition BLOCKED_GLOBALS : list string :=
  [ "window"; "document"; "globalThis"; "self"; "top"; "parent"; "frames";
    "location"; "navigator"; "localStorage"; "sessionStorage"; "indexedDB";
    "fetch"; "XMLHttpRequest"; "WebSocket"; "Worker"; "SharedWorker";
    "ServiceWorker"; "importScripts"; "postMessage"; "opener"; "chrome";
    "process"; "require"; "module"; "exports"; "__dirname"; "__filename" ].

(** [\s]: the white space and the line terminators of the language: tab
    to carriage return, space, U+00A0, U+1680, U+2000 to U+200A, U+2028,
    U+2029, U+202F, U+205F, U+3000 and U+FEFF. *)
Definition sp (c : N) : bool :=
  ((9 <=? c) && (c <=? 13) || (c =? 32) || (c =? 160) || (c =? 5760)
   || (8192 <=? c) && (c <=? 8202) || (c =? 8232) || (c =? 8233)
   || (c =? 8239) || (c =? 8287) || (c =? 12288) || (c =? 65279))%N.

(** The single quote, the double quote and the back quote. *)
Definition is_quote (c : N) : bool :=
  ((c =? 39) || (c =? 34) || (c =? 96))%N.

(** [[^)]] *)
Definition not_close_paren (c : N) : bool := negb (c =? 41)%N.

Definition DANGEROUS_PATTERNS : list Regex.t :=
  [ mkRegex "\beval\s*\(" ([WordB] ++ lit "eval" ++ [Star sp] ++ lit "(");
    mkRegex "\bnew\s+Function\s*\("
      ([WordB] ++ lit "new" ++ [Cls sp; Star sp] ++ lit "Function"
       ++ [Star sp] ++ lit "(");
    mkRegex ("\bsetTimeout\s*\(\s*['" +:+ DQ +:+ "`]")
      ([WordB] ++ lit "setTimeout" ++ [Star sp] ++ lit "(" ++ [Star sp]
       ++ [Cls is_quote]);
    mkRegex ("\bsetInterval\s*\(\s*['" +:+ DQ +:+ "`]")
      ([WordB] ++ lit "setInterval" ++ [Star sp] ++ lit "(" ++ [Star sp]
       ++ [Cls is_quote]);
    mkRegex "\bdocument\s*\." ([WordB] ++ lit "document" ++ [Star sp] ++ lit ".");
    mkRegex "\bwindow\s*\." ([WordB] ++ lit "window" ++ [Star sp] ++ lit ".");
    mkRegex "\bglobalThis\s*\."
      ([WordB] ++ lit "globalThis" ++ [Star sp] ++ lit ".");
    mkRegex "\bprocess\s*\." ([WordB] ++ lit "process" ++ [Star sp] ++ lit ".");
    mkRegex "\brequire\s*\(" ([WordB] ++ lit "require" ++ [Star sp] ++ lit "(");
    mkRegex "\bimport\s*\(" ([WordB] ++ lit "import" ++ [Star sp] ++ lit "(");
    mkRegex "\b__proto__\b" ([WordB] ++ lit "__proto__" ++ [WordB]);
    mkRegex "\bconstructor\s*\["
      ([WordB] ++ lit "constructor" ++ [Star sp] ++ lit "[");
    mkRegex "\bObject\.getPrototypeOf" ([WordB] ++ lit "Object.getPrototypeOf");
    mkRegex "\bReflect\b" ([WordB] ++ lit "Reflect" ++ [WordB]);
    mkRegex "\bProxy\b" ([WordB] ++ lit "Proxy" ++ [WordB]) ].

Definition LOOP_PATTERNS : list Regex.t :=
  [ mkRegex "while\s*\(\s*true\s*\)"
      (lit "while" ++ [Star sp] ++ lit "(" ++ [Star sp] ++ lit "true"
       ++ [Star sp] ++ lit ")");
    mkRegex "while\s*\(\s*1\s*\)"
      (lit "while" ++ [Star sp] ++ lit "(" ++ [Star sp] ++ lit "1"
       ++ [Star sp] ++ lit ")");
    mkRegex "for\s*\(\s*;\s*;\s*\)"
      (lit "for" ++ [Star sp] ++ lit "(" ++ [Star sp] ++ lit ";"
       ++ [Star sp] ++ lit ";" ++ [Star sp] ++ lit ")");
    mkRegex "for\s*\(\s*;;\s*\)"
      (lit "for" ++ [Star sp] ++ lit "(" ++ [Star sp] ++ lit ";;"
       ++ [Star sp] ++ lit ")") ].

Record Analysis : Type := mkAnalysis {
  safe : bool;
  issues : list string;
}.

(** One of the two loops of [analyzeCode]. *)
Definition scan_patterns (label : string) (patterns : list Regex.t)
    (code : Ustring) : list string :=
  flat_map
    (fun pattern =>
       if test pattern code then [label +:+ source pattern] else [])
    patterns.

Definition analyzeCode (code : Ustring) : Analysis :=
  let issues :=
    scan_patterns "Blocked pattern detected: " DANGEROUS_PATTERNS code
    ++ scan_patterns "Potential infinite loop: " LOOP_PATTERNS code in
  {| safe := match issues with [] => true | _ => false end;
     issues := issues |}.

Definition loopGuard : string :=
  "if (Date.now() > __deadline__) { throw new Error("
  +:+ quoted "Execution timeout: loop exceeded time limit" +:+ "); }" +:+ NL.

Definition while_loop : Pattern :=
  lit "while" ++ [Star sp] ++ lit "(" ++ [Star not_close_paren] ++ lit ")"
  ++ [Star sp] ++ lit "{".

Definition for_loop : Pattern :=
  lit "for" ++ [Star sp] ++ lit "(" ++ [Star not_close_paren] ++ lit ")"
  ++ [Star sp] ++ lit "{".

Definition do_loop : Pattern := lit "do" ++ [Star sp] ++ lit "{".

Definition injectLoopGuards (code : Ustring) : Ustring :=
  let ins := units (NL +:+ loopGuard) in
  let result := insert_after while_loop ins None code 0 in
  let result := insert_after for_loop ins None result 0 in
  insert_after do_loop ins None result 0.

Record SandboxOptions : Type := mkOptions {
  timeoutMs : option Z;
  maxCodeLength : option Z;
}.

Section Execution.

(** The values a scope binds and a run returns, and the functions
    [new Function] constructs, are left to the JavaScript engine. *)
Variable V : Type.
Variable F : Type.

Record SandboxResult : Type := mkSandboxResult {
  success : bool;
  result : option V;            (* [None] is [null] *)
  error : option string;
  executionTimeMs : Z;
}.

(** What [executeSandboxed] asks of the engine, in order: the clock,
    the construction of a function from text, and its call.  The last
    two can throw. *)
Inductive Prog : Type :=
| Done (r : SandboxResult)
| DateNow (k : Z -> Prog)
| NewFunction (params : list string) (body : Ustring)
    (k : Exn.t F -> Prog)
| Call (fn : F) (deadline : Z) (args : list (option V))
    (k : Exn.t V -> Prog).

(** [createBlockedScope()]: every name bound to [undefined]. *)
Definition createBlockedScope : list (string * option V) :=
  obj_set "eval" None
    (fold_left (fun blocked name => obj_set name None blocked)
       BLOCKED_GLOBALS []).

Definition failure (msg : string) (ms : Z) : SandboxResult :=
  {| success := false; result := None; error := Some msg;
     executionTimeMs := ms |}.

Definition executeSandboxed (code : Ustring)
    (scope : list (string * option V)) (options : SandboxOptions) : Prog :=
  let timeout := default 5000%Z (timeoutMs options) in
  let max_len := default 100000%Z (maxCodeLength options) in
  DateNow (fun start =>
    if (max_len <? Z.of_nat (List.length code))%Z then
      Done (failure ("Code exceeds maximum length (" +:+ pretty max_len
                     +:+ " chars)") 0)
    else
      let analysis := analyzeCode code in
      if negb (safe analysis) then
        Done (failure ("Security violation: "
                       +:+ join "; " (issues analysis)) 0)
      else
        let combinedScope := obj_entries (obj_spread createBlockedScope scope) in
        let paramNames := keys combinedScope in
        let paramValues := combinedScope.*2 in
        let guardedCode := injectLoopGuards code in
        NewFunction ("__deadline__" :: paramNames) guardedCode (fun made =>
          match made with
          | inl msg => DateNow (fun t => Done (failure msg (t - start)))
          | inr fn =>
              DateNow (fun t0 =>
                Call fn (t0 + timeout) paramValues (fun ran =>
                  match ran with
                  | inl msg =>
                      DateNow (fun t => Done (failure msg (t - start)))
                  | inr v =>
                      DateNow (fun t =>
                        Done {| success := true; result := Some v;
                                error := None;
                                executionTimeMs := (t - start)%Z |})
                  end))
          end)).

End Execution.

Arguments Done {V F}.
Arguments DateNow {V F}.
Arguments NewFunction {V F}.
Arguments Call {V F}.

End Sandbox.

(* ================================================================== *)
(** ** Structural equality of documents *)
(* ================================================================== *)

Module Structural.

(** Two values are written alike: the same shape and the same leaves,
    the keys of an object being compared in order. *)
Fixpoint jvalue_eqb (a b : JValue) {struct a} : bool :=
  match a, b with
  | JNull, JNull => true
  | JBool x, JBool y => Bool.eqb x y
  | JNum x, JNum y => Z.eqb x y
  | JStr x, JStr y => String.eqb x y
  | JArr xs, JArr ys =>
      (fix items (xs ys : list JValue) {struct xs} : bool :=
         match xs, ys with
         | [], [] => true
         | x :: xs', y :: ys' => jvalue_eqb x y && items xs' ys'
         | _, _ => false
         end) xs ys
  | JObj xs, JObj ys =>
      (fix fields (xs ys : list (string * JValue)) {struct xs} : bool :=
         match xs, ys with
         | [], [] => true
         | (k, x) :: xs', (k', y) :: ys' =>
             String.eqb k k' && jvalue_eqb x y && fields xs' ys'
         | _, _ => false
         end) xs ys
  | _, _ => false
  end.

Definition theme_eqb (a b : option string) : bool :=
  match a, b with
  | None, None => true
  | Some s, Some t => String.eqb s t
  | _, _ => false
  end.

(** Structural equality of two values: the same kind of value; for
    arrays, the same length and the same values in order; for objects,
    the same keys and the same value at every key, in whatever order the
    keys were created. *)
Fixpoint value_same (a b : JValue) {struct a} : bool :=
  match a, b with
  | JNull, JNull => true
  | JBool x, JBool y => Bool.eqb x y
  | JNum x, JNum y => Z.eqb x y
  | JStr x, JStr y => String.eqb x y
  | JArr xs, JArr ys =>
      (fix items (xs ys : list JValue) {struct xs} : bool :=
         match xs, ys with
         | [], [] => true
         | x :: xs', y :: ys' => value_same x y && items xs' ys'
         | _, _ => false
         end) xs ys
  | JObj xs, JObj ys =>
      (fix fields (xs : list (string * JValue)) {struct xs} : bool :=
         match xs with
         | [] => true
         | (k, x) :: xs' =>
             match obj_get k ys with
             | Some y => value_same x y
             | None => false
             end && fields xs'
         end) xs
      && forallb (fun kv => match obj_get kv.1 xs with
                            | Some _ => true
                            | None => false
                            end) ys
  | _, _ => false
  end.

Definition props_same (p q : Props) : bool := value_same (JObj p) (JObj q).

Fixpoint node_same (a b : UINode) {struct a} : bool :=
  match a, b with
  | Undefined, Undefined => true
  | Text s, Text t => String.eqb s t
  | Elem t1 p1 c1, Elem t2 p2 c2 =>
      String.eqb t1 t2 && props_same p1 p2
      && (fix nodes (xs ys : list UINode) {struct xs} : bool :=
            match xs, ys with
            | [], [] => true
            | x :: xs', y :: ys' => node_same x y && nodes xs' ys'
            | _, _ => false
            end) c1 c2
  | _, _ => false
  end.

Fixpoint nodes_same (a b : list UINode) : bool :=
  match a, b with
  | [], [] => true
  | x :: a', y :: b' => node_same x y && nodes_same a' b'
  | _, _ => false
  end.

Definition ast_same (a b : UIAST) : bool :=
  String.eqb (layout a) (layout b) && theme_eqb (theme a) (theme b)
  && nodes_same (components a) (components b).

(** The properties of every node whose type is in the registry pass the
    strict parse of the schema of that type. *)
Fixpoint strict_node (n : UINode) : bool :=
  match n with
  | Elem type props children =>
      match Schema.schema_for type with
      | Some schema => Conformance.satisfies schema props
      | None => true
      end
      && forallb strict_node children
  | _ => true
  end.

Definition strict (D : UIAST) : bool := forallb strict_node (components D).

(** Two objects look the same through [obj_get]. *)
Definition lookups_agree (p q : Props) : Prop :=
  forall k,
    match obj_get k p, obj_get k q with
    | Some v, Some w => value_same v w = true
    | None, None => True
    | _, _ => False
    end.

End Structural.

(* ================================================================== *)
(** ** The addressing grammar of the specification *)
(* ================================================================== *)

Module PathGrammar.

(** The target-path syntax as the specification words it: [root], or a
    dotted chain of [children[<non-negative integer>]] segments.  The
    examples in the source put [root.] before the chain, which is accepted
    here as well. *)
Fixpoint all_digits (s : string) : bool :=
  match s with
  | EmptyString => true
  | String c s' => PatchEngine.is_digit c && all_digits s'
  end.

Definition segment (digits : string) : string :=
  "children[" +:+ digits +:+ "]".

Inductive Chain : string -> Prop :=
| chain_last digits :
    digits <> EmptyString -> all_digits digits = true ->
    Chain (segment digits)
| chain_step digits rest :
    digits <> EmptyString -> all_digits digits = true -> Chain rest ->
    Chain (segment digits +:+ "." +:+ rest).

Definition WellFormed (targetPath : string) : Prop :=
  targetPath = "root" \/ Chain targetPath
  \/ exists chain, Chain chain /\ targetPath = "root." +:+ chain.

(** The number a run of digits writes in base ten, leading zeros
    included. *)
Fixpoint digits_nat (s : string) (acc : nat) : nat :=
  match s with
  | EmptyString => acc
  | String c s' => digits_nat s' (10 * acc + PatchEngine.digit_value c)
  end.

Definition value (digits : string) : nat := digits_nat digits 0.

(** A text that holds no occurrence: nowhere in it stands [children[],
    a run of one or more digits, and []]. *)
Definition Quiet (noise : string) : Prop :=
  forall a digits b,
    noise = a +:+ segment digits +:+ b ->
    all_digits digits = true -> digits = EmptyString.

(** A text and the occurrence that follows it. *)
Definition Occurrence (part : string * string) : Prop :=
  Quiet part.1 /\ part.2 <> EmptyString /\ all_digits part.2 = true.

(** Any text, laid out as its occurrences, each after the text that
    precedes it, and the text after the last one. *)
Fixpoint written (parts : list (string * string)) (tail : string) : string :=
  match parts with
  | [] => tail
  | (noise, digits) :: parts' =>
      noise +:+ segment digits +:+ written parts' tail
  end.

(** The indices the occurrences write. *)
Definition indices (parts : list (string * string)) : list nat :=
  map (fun part => value part.2) parts.

(** Up to 2^53 an index is the number [parseInt] returns for it. *)
Definition exact (parts : list (string * string)) : Prop :=
  Forall (fun part => (Z.of_nat (value part.2) <= 2 ^ 53)%Z) parts.

End PathGrammar.

(* ================================================================== *)
(** ** Documents and patches used in the examples *)
(* ================================================================== *)

Module Examples.

Definition text_node : UINode := Elem "Text" [("children", JStr "Hi")] [].

Definition button : UINode :=
  Elem "Button" [("variant", JStr "primary")] [Text "Click me"].

Definition card : UINode := Elem "Card" [] [text_node].

(** A card holding one text, and a button next to it. *)
Definition nested_doc : UIAST :=
  {| layout := "Stack"; theme := Some "light"; components := [card; button] |}.

Definition button_doc : UIAST :=
  {| layout := "Stack"; theme := Some "light"; components := [button] |}.

Definition heading : UINode := Elem "Heading" [("level", JNum 2)] [].

Definition add_nested : Patch :=
  {| action := "add"; targetPath := "root.children[0].children[0]";
     component := heading; props := None |}.

Definition update_empty : Patch :=
  {| action := "update"; targetPath := "root.children[0]";
     component := Undefined; props := None |}.

Definition remove_far : Patch :=
  {| action := "remove"; targetPath := "root.children[5]";
     component := Undefined; props := None |}.

Definition add_banana : Patch :=
  {| action := "add"; targetPath := "banana";
     component := heading; props := None |}.

Definition update_noise : Patch :=
  {| action := "update"; targetPath := "xchildren[0]y";
     component := Undefined; props := Some [("size", JStr "lg")] |}.

(** [eval], a no-break space, [(userInput)]. *)
Definition spaced_eval : Regex.Ustring :=
  Regex.units "eval" ++ [160%N] ++ Regex.units "(userInput)".

(** The pattern of the deny-list that blocks a direct [eval] call. *)
Definition eval_call : Regex.t :=
  Regex.mkRegex "\beval\s*\("
    ([Regex.WordB] ++ Regex.lit "eval" ++ [Regex.Star Sandbox.sp]
     ++ Regex.lit "(").

(** A button with a property its schema does not declare. *)
Definition extra_key_doc : UIAST :=
  {| layout := "Stack"; theme := None;
     components := [Elem "Button" [("foo", JStr "bar")] []] |}.

(** A modal without [onClose] whose title holds the word. *)
Definition modal_doc : UIAST :=
  {| layout := "Stack"; theme := None;
     components := [Elem "Modal" [("title", JStr "Confirm onClose")] []] |}.

Definition update_size : Patch :=
  {| action := "update"; targetPath := "root.children[0]";
     component := Undefined; props := Some [("size", JStr "lg")] |}.

(** A button with two properties, and the same button with the two
    properties created in the other order. *)
Definition sized_doc : UIAST :=
  {| layout := "Stack"; theme := None;
     components :=
       [Elem "Button" [("variant", JStr "primary"); ("size", JStr "lg")]
          []] |}.

Definition sized_doc_reordered : UIAST :=
  {| layout := "Stack"; theme := None;
     components :=
       [Elem "Button" [("size", JStr "lg"); ("variant", JStr "primary")]
          []] |}.

(** The same with a variant that is none of the button. *)
Definition bogus_doc : UIAST :=
  {| layout := "Stack"; theme := None;
     components :=
       [Elem "Button" [("variant", JStr "bogus"); ("size", JStr "lg")] []] |}.

Definition bogus_doc_reordered : UIAST :=
  {| layout := "Stack"; theme := None;
     components :=
       [Elem "Button" [("size", JStr "lg"); ("variant", JStr "bogus")] []] |}.

(** A button with two properties its schema does not declare, in one
    order and in the other. *)
Definition extras_doc : UIAST :=
  {| layout := "Stack"; theme := None;
     components :=
       [Elem "Button" [("foo", JStr "a"); ("bar", JStr "b")] []] |}.

Definition extras_doc_reordered : UIAST :=
  {| layout := "Stack"; theme := None;
     components :=
       [Elem "Button" [("bar", JStr "b"); ("foo", JStr "a")] []] |}.

(** The code of a document whose only component is a button without
    children, the button being written [element]. *)
Definition button_page (element : string) : string :=
  join NL
    [ "import { Button } from " +:+ quoted "@/components/ui-lib/Button"
      +:+ ";";
      "import { Container } from " +:+ quoted "@/components/ui-lib/Layouts"
      +:+ ";";
      EmptyString;
      "export default function GeneratedUI() {";
      EmptyString;
      "  return (";
      "    <Container>";
      "    " +:+ element;
      "    </Container>";
      "  );";
      "}" ].


(** A button that carries an own property named [__proto__], as
    [JSON.parse] makes one. *)
Definition proto_doc : UIAST :=
  {| layout := "Stack"; theme := None;
     components :=
       [Elem "Button" [("variant", JStr "primary"); ("__proto__", JNum 1)]
          []] |}.

End Examples.

(* ================================================================== *)
(** ** Target paths as the patch engine documents them *)
(* ================================================================== *)

Module Paths.

(** The path the documentation of [parsePath] writes for a list of child
    indices: [root.children[2]], [root.children[0].children[1]]. *)
Definition path_of (indices : list nat) : string :=
  "root" +:+ String.concat EmptyString
               (map (fun k => ".children[" +:+ pretty k +:+ "]") indices).

(** The document holds neither a text nor [undefined] at the top level, as
    the type [UIASTNode[]] of [components] asks. *)
Definition components_are_nodes (D : UIAST) : Prop :=
  Forall (fun c => exists type props children, c = Elem type props children)
    (components D).

End Paths.

(* ================================================================== *)
(** ** The patches that fail *)
(* ================================================================== *)

Module Failures.
Import PatchEngine.

(** Following a list of child indices through component nodes, from a
    [children] array to the [children] array it leads to. *)
Inductive Reaches : list UINode -> list nat -> list UINode -> Prop :=
| reaches_here cs : Reaches cs [] cs
| reaches_child cs k t q ch rest cs' :
    cs !! k = Some (Elem t q ch) -> Reaches ch rest cs' ->
    Reaches cs (k :: rest) cs'.

(** The target path leads to a component node of the document. *)
Definition Resolves (D : UIAST) (targetPath : string) : Prop :=
  exists pre i cs t q ch,
    parsePath targetPath = pre ++ [i]
    /\ Reaches (components D) pre cs
    /\ cs !! i = Some (Elem t q ch).

Definition known (a : string) : Prop :=
  a = "add" \/ a = "update" \/ a = "remove".

(** No node in the array at the index. *)
Definition absent (cs : list UINode) (k : nat) : Prop :=
  cs !! k = None \/ cs !! k = Some Undefined.

(** The patches that fail on a document, each with the message of its
    failure: an unknown action; no step in the path of an [update] or a
    [remove]; a step before the last that meets a text or no node; an
    [update] whose target is a text or no node; a [remove] whose index is
    not below the length of the array. *)
Inductive Fails (D : UIAST) (p : Patch) : string -> Prop :=
| fails_action :
    ~ known (action p) ->
    Fails D p ("Unknown patch action: " +:+ action p)
| fails_no_step :
    action p = "update" \/ action p = "remove" ->
    parsePath (targetPath p) = [] ->
    Fails D p ("Invalid target path: " +:+ quoted (targetPath p))
| fails_text_on_path pre k rest cs s :
    known (action p) ->
    parsePath (targetPath p) = pre ++ k :: rest -> rest <> [] ->
    Reaches (components D) pre cs -> cs !! k = Some (Text s) ->
    Fails D p ("Path step " +:+ pretty (List.length pre) +:+ " at index "
               +:+ pretty k +:+ " points to a text node, not a component")
| fails_off_path pre k rest cs :
    known (action p) ->
    parsePath (targetPath p) = pre ++ k :: rest -> rest <> [] ->
    Reaches (components D) pre cs -> absent cs k ->
    Fails D p ("Path step " +:+ pretty (List.length pre) +:+ " at index "
               +:+ pretty k +:+ " is out of bounds ("
               +:+ pretty (List.length cs) +:+ " children)")
| fails_update_text pre i cs s :
    action p = "update" ->
    parsePath (targetPath p) = pre ++ [i] ->
    Reaches (components D) pre cs -> cs !! i = Some (Text s) ->
    Fails D p ("Cannot update a text node at " +:+ quoted (targetPath p))
| fails_update_absent pre i cs :
    action p = "update" ->
    parsePath (targetPath p) = pre ++ [i] ->
    Reaches (components D) pre cs -> absent cs i ->
    Fails D p ("No node at " +:+ quoted (targetPath p))
| fails_remove_absent pre i cs :
    action p = "remove" ->
    parsePath (targetPath p) = pre ++ [i] ->
    Reaches (components D) pre cs -> List.length cs <= i ->
    Fails D p ("No node at index " +:+ pretty i +:+ " in "
               +:+ quoted (targetPath p)).

End Failures.

(* ================================================================== *)
(** ** More of what a valid document is *)
(* ================================================================== *)

Module Closed.
Import Zod Schema.

(** The properties hold no key the schema does not declare. *)
Definition no_extra (schema : ObjectSchema) (props : Props) : bool :=
  match extra_keys schema props with
  | [] => true
  | _ => false
  end.

(** The same of the properties the top-level parse hands on, which are
    those of the node but for an own [__proto__]. *)
Definition no_extra_parsed (schema : ObjectSchema) (props : Props) : bool :=
  no_extra schema (Validator.record_parse props).

Definition satisfies_parsed (schema : ObjectSchema) (props : Props) : bool :=
  Conformance.satisfies schema (Validator.record_parse props).

(** The default of a declared property, if it has one, is a value of the
    property's own type that parsing leaves as it is. *)
Definition default_ok (f : Field) : bool :=
  match fdefault f with
  | None => true
  | Some d =>
      match parse_type (ftype f) [fname f] d with
      | ([], d') => Structural.jvalue_eqb d' d
      | _ => false
      end
  end.

(** A schema declares no property twice, and its defaults are in order. *)
Definition schema_ok (schema : ObjectSchema) : bool :=
  bool_decide (NoDup (map fname schema)) && forallb default_ok schema.

(** Neither [undefined] nor any node over it: every value of the tree is a
    text or a node. *)
Fixpoint defined_node (n : UINode) : bool :=
  match n with
  | Undefined => false
  | Text _ => true
  | Elem _ _ children => forallb defined_node children
  end.

End Closed.

(* ================================================================== *)
(** ** Metrics history and API keys of the orchestrator (lib/agent) *)
(* ================================================================== *)

Module Orchestrator.

Definition MAX_METRICS : nat := 200.

Section Metrics.

(** An [LLMMetrics] record is stored as it is given. *)
Variable LLMMetrics : Type.

(** [recordMetrics(m)], on the module-level array [metricsHistory]:
    [push], then [shift] when the array is longer than [MAX_METRICS]. *)
Definition recordMetrics (metricsHistory : list LLMMetrics) (m : LLMMetrics)
  : list LLMMetrics :=
  let pushed := metricsHistory ++ [m] in
  if (MAX_METRICS <? List.length pushed)%nat then tail pushed else pushed.

End Metrics.

(** [!!k && k.length > 0] for an optional string. *)
Definition usable_key (k : option string) : bool :=
  match k with
  | Some s => negb (String.eqb s EmptyString)
             && (0 <? String.length s)%nat
  | None => false
  end.

(** [[...new Set(a)]]: the first occurrence of each string, in order. *)
Definition unique (a : list string) : list string :=
  fold_left (fun seen k => set_add k seen) a [].

(** [getUniqueKeys(provider, extraKey)]; [env] is [process.env]. *)
Definition getUniqueKeys (env : string -> option string) (provider : string)
    (extraKey : option string) : list string :=
  let envPrefix :=
    if String.eqb provider "openai" then "OPENAI_API_KEY"
    else "GEMINI_API_KEY" in
  let candidates :=
    [ env (envPrefix +:+ "_1"); env (envPrefix +:+ "_2");
      env (envPrefix +:+ "_3"); env envPrefix; extraKey ] in
  unique (omap id (filter (fun k => usable_key k = true) candidates)).

End Orchestrator.

(* ================================================================== *)
(** ** Rate limiter and client identifier (lib/security.ts) *)
(* ================================================================== *)

Module Security.

(** The [Map<string, number[]>] of a [RateLimiter] (its entries in
    insertion order), with its two constructor arguments. *)
Record RateLimiter : Type := mkRateLimiter {
  requests : list (string * list Z);
  maxRequests : nat;
  windowMs : Z;
}.

Definition new_limiter (maxRequests : nat) (windowMs : Z) : RateLimiter :=
  {| requests := []; maxRequests := maxRequests; windowMs := windowMs |}.

(** [map.delete(k)] *)
Definition map_delete {V} (k : string) (m : list (string * V))
  : list (string * V) :=
  filter (fun kv => String.eqb k kv.1 = false) m.

(** [check(identifier)], [now] being what [Date.now()] returns: the answer
    and the limiter afterwards. *)
Definition check (rl : RateLimiter) (identifier : string) (now : Z)
  : bool * RateLimiter :=
  let userRequests := default [] (obj_get identifier (requests rl)) in
  let validRequests :=
    filter (fun time => (now - time <? windowMs rl)%Z = true) userRequests in
  if (maxRequests rl <=? List.length validRequests)%nat then (false, rl)
  else
    (true,
     {| requests := obj_set identifier (validRequests ++ [now]) (requests rl);
        maxRequests := maxRequests rl;
        windowMs := windowMs rl |}).

(** [reset(identifier)] *)
Definition reset (rl : RateLimiter) (identifier : string) : RateLimiter :=
  {| requests := map_delete identifier (requests rl);
     maxRequests := maxRequests rl;
     windowMs := windowMs rl |}.

(** A call on the limiter. *)
Inductive Call : Type :=
| CallCheck (identifier : string) (now : Z)
| CallReset (identifier : string).

Definition call (rl : RateLimiter) (c : Call) : RateLimiter :=
  match c with
  | CallCheck identifier now => (check rl identifier now).2
  | CallReset identifier => reset rl identifier
  end.

(** What holds of a limiter made with [maxRequests = m] and
    [windowMs = w] however it is used: the two settings stay, the map has
    no identifier twice, and every list it holds has between one and [m]
    entries. *)
Definition limiter_ok (m : nat) (w : Z) (rl : RateLimiter) : Prop :=
  maxRequests rl = m /\ windowMs rl = w
  /\ obj_wf (requests rl)
  /\ Forall (fun kv => List.length kv.2 <= m /\ kv.2 <> []) (requests rl).

(** The text before the first comma: [s.split(",")[0]]. *)
Fixpoint before_comma (s : string) : string :=
  match s with
  | EmptyString => EmptyString
  | String c s' =>
      if Ascii.eqb c ","%char then EmptyString else String c (before_comma s')
  end.

(** [a || b] on strings that may be [null]: [a] unless it is [null] or
    empty. *)
Definition or_else (a : option string) (b : string) : string :=
  match a with
  | Some s => if String.eqb s EmptyString then b else s
  | None => b
  end.

(** [getClientIdentifier(headers)]; [get] is [headers.get]. *)
Definition getClientIdentifier (get : string -> option string) : string :=
  let forwarded := get "x-forwarded-for" in
  let realIp := get "x-real-ip" in
  let cfConnectingIp := get "cf-connecting-ip" in
  or_else (option_map (fun f => trim (before_comma f)) forwarded)
    (or_else realIp (or_else cfConnectingIp "unknown")).

End Security.

(* ================================================================== *)
(** * Properties *)
(* ================================================================== *)

(* ================================================================== *)
(** ** Objects and the patch engine *)
(* ================================================================== *)

Import PatchEngine.
Section ObjectFacts.
Context {V : Type}.
Implicit Types (o dst src a b pre : list (string * V)) (k : string) (v : V).

Lemma obj_get_set k k' v o :
  obj_get k' (obj_set k v o) = if String.eqb k' k then Some v else obj_get k' o.
Proof.
  induction o as [|[k0 v0] o IH]; simpl.
  - destruct (String.eqb_spec k' k); reflexivity.
  - destruct (String.eqb_spec k k0) as [->|Hne]; simpl.
    + destruct (String.eqb_spec k' k0); reflexivity.
    + rewrite IH. destruct (String.eqb_spec k' k0) as [->|]; [|reflexivity].
      destruct (String.eqb_spec k0 k); congruence.
Qed.

Lemma obj_set_same k v o : obj_get k o = Some v -> obj_set k v o = o.
Proof.
  induction o as [|[k0 v0] o IH]; simpl; [discriminate|].
  destruct (String.eqb_spec k k0) as [->|Hne]; intros H.
  - congruence.
  - by rewrite IH.
Qed.

Lemma obj_set_fresh k v o : k ∉ keys o -> obj_set k v o = o ++ [(k, v)].
Proof.
  unfold keys. induction o as [|[k0 v0] o IH]; simpl; [done|].
  intros Hk. apply not_elem_of_cons in Hk as [Hne Hk].
  destruct (String.eqb_spec k k0); [done|]. by rewrite IH.
Qed.

Lemma elem_of_keys_obj_set x k v o :
  x ∈ keys (obj_set k v o) <-> x = k \/ x ∈ keys o.
Proof.
  unfold keys. induction o as [|[k0 v0] o IH]; simpl.
  - rewrite list_elem_of_singleton. split; [by left|]. intros [H|H]; [done|].
    by apply elem_of_nil in H.
  - destruct (String.eqb_spec k k0) as [->|Hne]; simpl.
    + rewrite !elem_of_cons. tauto.
    + rewrite !elem_of_cons, IH. tauto.
Qed.

Lemma obj_set_wf k v o : NoDup (keys o) -> NoDup (keys (obj_set k v o)).
Proof.
  unfold keys. induction o as [|[k0 v0] o IH]; simpl; intros Hnd.
  - apply NoDup_singleton.
  - apply NoDup_cons in Hnd as [Hk0 Hnd].
    destruct (String.eqb_spec k k0) as [->|Hne]; simpl.
    + by apply NoDup_cons.
    + apply NoDup_cons. split; [|by apply IH].
      intros Hin. apply (elem_of_keys_obj_set k0 k v o) in Hin as [?|?]; [congruence|done].
Qed.

Lemma obj_assign_wf dst src : NoDup (keys dst) -> NoDup (keys (obj_assign dst src)).
Proof.
  unfold obj_assign. revert dst.
  induction src as [|[k v] src IH]; intros dst Hnd; simpl; [done|].
  apply IH. by apply obj_set_wf.
Qed.

Lemma obj_spread_wf a b : NoDup (keys (obj_spread a b)).
Proof. unfold obj_spread. do 2 apply obj_assign_wf. apply NoDup_nil_2. Qed.

Lemma obj_assign_self_app pre o :
  NoDup (keys (pre ++ o)) -> obj_assign pre o = pre ++ o.
Proof.
  unfold obj_assign, keys. revert pre.
  induction o as [|[k v] o IH]; intros pre Hnd; simpl.
  - by rewrite app_nil_r.
  - rewrite obj_set_fresh.
    + rewrite IH; rewrite <- app_assoc; done.
    + rewrite fmap_app in Hnd. apply NoDup_app in Hnd as (_ & Hd & _).
      intros Hin. apply (Hd k Hin). simpl. left.
Qed.

Lemma obj_assign_other dst src k :
  k ∉ keys src -> obj_get k (obj_assign dst src) = obj_get k dst.
Proof.
  unfold obj_assign, keys. revert dst.
  induction src as [|[k0 v0] src IH]; intros dst Hk; simpl; [done|].
  simpl in Hk. apply not_elem_of_cons in Hk as [Hne Hk].
  rewrite IH by done. rewrite obj_get_set.
  by destruct (String.eqb_spec k k0).
Qed.

Lemma obj_assign_get dst src k v :
  NoDup (keys src) -> (k, v) ∈ src -> obj_get k (obj_assign dst src) = Some v.
Proof.
  revert dst.
  induction src as [|[k0 v0] src IH]; intros dst Hnd Hin.
  - by apply elem_of_nil in Hin.
  - unfold keys in Hnd. simpl in Hnd.
    apply NoDup_cons in Hnd as [Hk0 Hnd]. apply elem_of_cons in Hin as [Heq|Hin].
    + inversion Heq; subst k0 v0.
      change (obj_assign dst ((k, v) :: src)) with (obj_assign (obj_set k v dst) src).
      rewrite obj_assign_other by done.
      rewrite obj_get_set. by rewrite String.eqb_refl.
    + change (obj_assign dst ((k0, v0) :: src)) with (obj_assign (obj_set k0 v0 dst) src).
      by apply IH.
Qed.

Lemma obj_assign_id dst src :
  (forall k v, (k, v) ∈ src -> obj_get k dst = Some v) -> obj_assign dst src = dst.
Proof.
  unfold obj_assign.
  induction src as [|[k v] src IH]; intros H; simpl; [done|].
  rewrite obj_set_same.
  - apply IH. intros k' v' Hin. apply H. by right.
  - apply H. left.
Qed.

Lemma obj_spread_idem a b :
  obj_wf b -> obj_spread (obj_spread a b) b = obj_spread a b.
Proof.
  intros Hb. unfold obj_spread at 1.
  rewrite (obj_assign_self_app [] (obj_spread a b)) by apply obj_spread_wf.
  simpl. apply obj_assign_id. intros k v Hin.
  unfold obj_spread. by apply obj_assign_get.
Qed.

(** The order of enumeration lists every property once. *)
Lemma index_insert_perm (i : N) (kv : string * V) l :
  index_insert i kv l ≡ₚ (i, kv) :: l.
Proof.
  induction l as [|[j x] l IH]; cbn [index_insert]; [done|].
  destruct (i <? j)%N; [done|]. rewrite IH. apply perm_swap.
Qed.

Lemma index_fold_perm o : forall acc : list (N * (string * V)),
  (fold_left
     (fun acc kv =>
        match array_index kv.1 with
        | Some i => index_insert i kv acc
        | None => acc
        end) o acc).*2
  ≡ₚ acc.*2 ++ filter (fun kv => array_index kv.1 <> None) o.
Proof.
  induction o as [|kv o IH]; intros acc; cbn [fold_left].
  - by rewrite app_nil_r.
  - rewrite IH, filter_cons. destruct (array_index kv.1) as [i|] eqn:E.
    + destruct (decide (Some i <> None)) as [_|Hn]; [|by destruct Hn].
      rewrite index_insert_perm, fmap_cons. cbn [snd].
      apply Permutation_middle.
    + destruct (decide (@None N <> None)) as [Hn|_]; [by destruct Hn|done].
Qed.

Lemma obj_entries_perm o : obj_entries o ≡ₚ o.
Proof.
  unfold obj_entries, index_entries. rewrite index_fold_perm. cbn [app fmap list_fmap].
  rewrite Permutation_app_comm. apply filter_app_complement.
Qed.

Lemma elem_of_keys_entries k o : k ∈ keys (obj_entries o) <-> k ∈ keys o.
Proof. unfold keys. by rewrite obj_entries_perm. Qed.

Lemma obj_entries_wf o : NoDup (keys o) -> NoDup (keys (obj_entries o)).
Proof. unfold keys. by rewrite obj_entries_perm. Qed.
End ObjectFacts.

(** *** In-place updates through a path *)

Lemma descend_set_children pre : forall cs i pc pc',
  descend cs pre i = inr pc ->
  descend (set_children cs pre pc') pre i = inr pc'.
Proof.
  induction pre as [|k rest IH]; intros cs i pc pc' H; simpl in *; [done|].
  destruct (cs !! k) as [[| |t p ch]|] eqn:Hk; try discriminate.
  rewrite list_lookup_insert_eq by (by eapply lookup_lt_Some).
  by eapply IH.
Qed.

Lemma set_children_twice pre : forall cs i pc a b,
  descend cs pre i = inr pc ->
  set_children (set_children cs pre a) pre b = set_children cs pre b.
Proof.
  induction pre as [|k rest IH]; intros cs i pc a b H; simpl in *; [done|].
  destruct (cs !! k) as [[| |t p ch]|] eqn:Hk; try discriminate.
  rewrite list_lookup_insert_eq by (by eapply lookup_lt_Some).
  rewrite list_insert_insert_eq. f_equal. f_equal. by eapply IH.
Qed.

Lemma set_children_same pre : forall cs i pc,
  descend cs pre i = inr pc -> set_children cs pre pc = cs.
Proof.
  induction pre as [|k rest IH]; intros cs i pc H; simpl in *.
  - by inversion H.
  - destruct (cs !! k) as [[| |t p ch]|] eqn:Hk; try discriminate.
    erewrite IH by done. by apply list_insert_id.
Qed.

Lemma navigateToTarget_inr D T tg :
  navigateToTarget D T = inr tg ->
  descend (components D) (parentPath tg) 0 = inr (parentChildren tg).
Proof.
  unfold navigateToTarget.
  destruct (parsePath T) as [|s0 steps]; [discriminate|].
  destruct (descend _ _ 0) as [msg|pc] eqn:Hd; [discriminate|].
  unfold Exn.bind, Exn.ret. intros H. inversion H; subst tg; clear H. done.
Qed.

Lemma navigateToTarget_mutated D T tg cs' :
  navigateToTarget D T = inr tg ->
  navigateToTarget (mutate_parent D tg cs') T
  = inr {| parentPath := parentPath tg; parentChildren := cs';
           index := index tg |}.
Proof.
  intros Hnav. pose proof (navigateToTarget_inr _ _ _ Hnav) as Hd.
  revert Hnav Hd. unfold navigateToTarget, mutate_parent.
  destruct (parsePath T) as [|s0 steps]; [discriminate|].
  destruct (descend (components D) _ 0) as [msg|pc] eqn:Hd0; [discriminate|].
  unfold Exn.bind at 1, Exn.ret at 1. intros H; inversion H; subst tg; clear H.
  cbn [parentPath parentChildren index components with_components]. intros _.
  erewrite descend_set_children by exact Hd0. reflexivity.
Qed.

Lemma updateNode_props_idem D T P D1 :
  obj_wf P ->
  updateNode D T Undefined (Some P) = inr D1 ->
  updateNode D1 T Undefined (Some P) = inr D1.
Proof.
  intros HP. unfold updateNode.
  destruct (navigateToTarget D T) as [msg|tg] eqn:Hnav; [discriminate|].
  unfold Exn.bind at 1.
  destruct (parentChildren tg !! index tg) as [[| |t p ch]|] eqn:Hidx;
    try discriminate.
  cbn [truthy]. unfold Exn.ret at 1. intros H; inversion H; subst D1; clear H.
  rewrite (navigateToTarget_mutated _ _ _ _ Hnav).
  unfold Exn.bind. cbn [parentPath parentChildren index].
  rewrite list_lookup_insert_eq by (by eapply lookup_lt_Some).
  unfold Exn.ret, mutate_parent. cbn [parentPath components with_components layout theme].
  pose proof (navigateToTarget_inr _ _ _ Hnav) as Hd.
  erewrite set_children_twice by exact Hd.
  rewrite list_insert_insert_eq. by rewrite obj_spread_idem.
Qed.
Lemma apply_update p D :
  action p = "update" ->
  applySinglePatch D p = updateNode D (targetPath p) (component p) (props p).
Proof. intros H. unfold applySinglePatch. rewrite H. reflexivity. Qed.

(** *** The claims about the patch engine *)

(** C1 (the code does not do this): an [add] patch whose path goes through
    more than one [children[k]] step should leave everything off the path
    as it was, the top-level components included.  On a document with a
    card (holding one text) and a button, adding a heading under the card
    returns a document whose top-level components are the children of the
    card: the card itself and the button next to it are gone. *)
Example nested_add_overwrites_root :
  applyPatches Examples.nested_doc [Examples.add_nested]
  = {| success := true;
       ast := {| layout := "Stack"; theme := Some "light";
                 components := [Examples.text_node; Examples.heading] |};
       appliedPatches := 1;
       errors := [] |}.
Proof. vm_compute. reflexivity. Qed.

(** C7, the claim as stated fails: an [update] patch with neither a
    component nor props, aimed at an existing node, adds no error and is
    counted in [appliedPatches]. *)
Lemma update_without_payload_is_applied :
  applyPatches Examples.button_doc [Examples.update_empty]
  = {| success := true; ast := Examples.button_doc;
       appliedPatches := 1; errors := [] |}.
Proof. vm_compute. reflexivity. Qed.

Lemma updateNode_no_payload D T D' :
  updateNode D T Undefined None = inr D' -> D' = D.
Proof.
  unfold updateNode.
  destruct (navigateToTarget D T) as [msg|tg]; [discriminate|].
  unfold Exn.bind.
  destruct (parentChildren tg !! index tg) as [[| |t p ch]|]; try discriminate.
  cbn [truthy]. unfold Exn.ret. congruence.
Qed.

Lemma run_patches_cons st p rest :
  run_patches st (p :: rest) = run_patches (patch_step st p) rest.
Proof. reflexivity. Qed.

Lemma run_patches_accounting ps : forall st,
  appliedCount (run_patches st ps) + List.length (errs (run_patches st ps))
  = appliedCount st + List.length (errs st) + List.length ps.
Proof.
  induction ps as [|p ps IH]; intros st.
  - cbn. lia.
  - rewrite run_patches_cons, IH. unfold patch_step.
    destruct (applySinglePatch (current st) p); cbn [appliedCount errs List.length];
      rewrite ?length_app; cbn [List.length]; lia.
Qed.


(** *** The patches that fail, and the patches that do not *)

Section PatchFailures.
Import Failures.

Lemma descend_reaches cs pre cs' :
  Reaches cs pre cs' -> forall i, descend cs pre i = inr cs'.
Proof.
  induction 1 as [cs|cs k t q ch rest cs' Hk _ IH]; intros i; cbn [descend].
  - reflexivity.
  - rewrite Hk. apply IH.
Qed.

Lemma descend_inr_reaches pre : forall cs i cs',
  descend cs pre i = inr cs' -> Reaches cs pre cs'.
Proof.
  induction pre as [|k rest IH]; intros cs i cs'; cbn [descend].
  - intros [= ->]. constructor.
  - destruct (cs !! k) as [[| |t q ch]|] eqn:Hk; try discriminate.
    intros H. econstructor; [exact Hk|]. by eapply IH.
Qed.

Lemma Reaches_snoc cs pre c1 k t q ch :
  Reaches cs pre c1 -> c1 !! k = Some (Elem t q ch) ->
  Reaches cs (pre ++ [k]) ch.
Proof.
  induction 1 as [cs|cs j t' q' ch' rest cs' Hj _ IH]; intros Hk.
  - econstructor; [exact Hk|constructor].
  - cbn [app]. econstructor; [exact Hj|]. by apply IH.
Qed.

Lemma descend_stuck cs pre c1 : 
  Reaches cs pre c1 -> forall k rest i,
  descend cs (pre ++ k :: rest) i
  = match c1 !! k with
    | Some (Text _) =>
        inl ("Path step " +:+ pretty (i + List.length pre) +:+ " at index "
             +:+ pretty k +:+ " points to a text node, not a component")
    | Some (Elem _ _ ch) => descend ch rest (S (i + List.length pre))
    | _ =>
        inl ("Path step " +:+ pretty (i + List.length pre) +:+ " at index "
             +:+ pretty k +:+ " is out of bounds ("
             +:+ pretty (List.length c1) +:+ " children)")
    end.
Proof.
  induction 1 as [cs|cs j t q ch pre cs' Hj _ IH]; intros k rest i.
  - cbn [app descend List.length]. rewrite Nat.add_0_r. reflexivity.
  - cbn [app descend List.length]. rewrite Hj, IH.
    replace (S i + List.length pre) with (i + S (List.length pre)) by lia.
    reflexivity.
Qed.

Lemma descend_inl steps : forall cs i msg,
  descend cs steps i = inl msg ->
  exists pre k rest c1,
    steps = pre ++ k :: rest /\ Reaches cs pre c1
    /\ ((exists s, c1 !! k = Some (Text s))
        /\ msg = "Path step " +:+ pretty (i + List.length pre)
                 +:+ " at index " +:+ pretty k
                 +:+ " points to a text node, not a component"
        \/ absent c1 k
           /\ msg = "Path step " +:+ pretty (i + List.length pre)
                    +:+ " at index " +:+ pretty k +:+ " is out of bounds ("
                    +:+ pretty (List.length c1) +:+ " children)").
Proof.
  induction steps as [|k rest IH]; intros cs i msg; cbn [descend];
    [discriminate|].
  destruct (cs !! k) as [[|s|t q ch]|] eqn:Hk.
  - intros [= <-]. exists [], k, rest, cs. cbn [app List.length].
    rewrite Nat.add_0_r. split_and!; [done|constructor|].
    right. split; [by right|done].
  - intros [= <-]. exists [], k, rest, cs. cbn [app List.length].
    rewrite Nat.add_0_r. split_and!; [done|constructor|].
    left. split; [by exists s|done].
  - intros H. apply IH in H as (pre & k' & rest' & c1 & -> & Hr & Hm).
    exists (k :: pre), k', rest', c1. split_and!; [done|by econstructor|].
    cbn [List.length].
    replace (i + S (List.length pre)) with (S i + List.length pre) by lia.
    exact Hm.
  - intros [= <-]. exists [], k, rest, cs. cbn [app List.length].
    rewrite Nat.add_0_r. split_and!; [done|constructor|].
    right. split; [by left|done].
Qed.

Lemma navigateToTarget_steps D T pre i :
  parsePath T = pre ++ [i] ->
  navigateToTarget D T
  = Exn.bind (descend (components D) pre 0)
      (fun cs => Exn.ret {| parentPath := pre; parentChildren := cs;
                            index := i |}).
Proof.
  intros H. unfold navigateToTarget. rewrite H.
  destruct (pre ++ [i]) as [|s0 steps] eqn:E.
  - by destruct pre.
  - rewrite <- E. rewrite removelast_last, last_last. reflexivity.
Qed.

Lemma steps_split (steps : list nat) :
  steps <> [] -> exists pre i, steps = pre ++ [i].
Proof.
  intros H. exists (removelast steps), (List.last steps 0).
  by apply app_removelast_last.
Qed.

Lemma split_before_last (pre : list nat) k rest :
  rest <> [] -> exists pre' i, pre ++ k :: rest = pre' ++ [i]
                               /\ exists rest', pre' = pre ++ k :: rest'.
Proof.
  intros H. destruct (steps_split rest H) as (r & i & ->).
  exists (pre ++ k :: r), i. split; [by rewrite <- app_assoc|by exists r].
Qed.

Lemma navigateToTarget_stuck D T pre k rest c1 :
  parsePath T = pre ++ k :: rest -> rest <> [] ->
  Reaches (components D) pre c1 ->
  navigateToTarget D T
  = match c1 !! k with
    | Some (Text _) =>
        inl ("Path step " +:+ pretty (List.length pre) +:+ " at index "
             +:+ pretty k +:+ " points to a text node, not a component")
    | Some (Elem _ _ ch) =>
        navigateToTarget D T
    | _ =>
        inl ("Path step " +:+ pretty (List.length pre) +:+ " at index "
             +:+ pretty k +:+ " is out of bounds ("
             +:+ pretty (List.length c1) +:+ " children)")
    end.
Proof.
  intros HT Hrest Hr.
  destruct (split_before_last pre k rest Hrest) as (pre' & i & E & r & ->).
  rewrite E in HT. rewrite (navigateToTarget_steps D T _ i HT).
  rewrite (descend_stuck _ _ _ Hr). cbn [Nat.add].
  destruct (c1 !! k) as [[| |t q ch]|]; reflexivity.
Qed.

Lemma known_cases a :
  known a \/ (String.eqb a "add" = false /\ String.eqb a "update" = false
              /\ String.eqb a "remove" = false).
Proof.
  unfold known.
  destruct (String.eqb_spec a "add"); [tauto|].
  destruct (String.eqb_spec a "update"); [tauto|].
  destruct (String.eqb_spec a "remove"); tauto.
Qed.

Lemma Fails_throws D p msg :
  Fails D p msg -> applySinglePatch D p = inl msg.
Proof.
  intros H. unfold applySinglePatch.
  destruct H as [Hk|Ha HT|pre k rest cs s Hk HT Hrest Hr Hs
                 |pre k rest cs Hk HT Hrest Hr Hs
                 |pre i cs s Ha HT Hr Hs|pre i cs Ha HT Hr Hs
                 |pre i cs Ha HT Hr Hs].
  - destruct (known_cases (action p)) as [?|(-> & -> & ->)]; done.
  - destruct Ha as [-> | ->]; cbn [String.eqb Ascii.eqb Bool.eqb];
      cbv iota; unfold updateNode, removeNode, navigateToTarget;
      rewrite HT; reflexivity.
  - pose proof (navigateToTarget_stuck D _ _ _ _ _ HT Hrest Hr) as Hn.
    rewrite Hs in Hn.
    destruct Hk as [-> | [-> | ->]]; cbn [String.eqb Ascii.eqb Bool.eqb];
      cbv iota; unfold addNode, updateNode, removeNode; rewrite ?HT, Hn.
    + by destruct pre.
    + reflexivity.
    + reflexivity.
  - pose proof (navigateToTarget_stuck D _ _ _ _ _ HT Hrest Hr) as Hn.
    assert (Hn' : navigateToTarget D (targetPath p)
                  = inl ("Path step " +:+ pretty (List.length pre)
                         +:+ " at index " +:+ pretty k
                         +:+ " is out of bounds ("
                         +:+ pretty (List.length cs) +:+ " children)")).
    { by destruct Hs as [Hs|Hs]; rewrite Hs in Hn. }
    destruct Hk as [-> | [-> | ->]]; cbn [String.eqb Ascii.eqb Bool.eqb];
      cbv iota; unfold addNode, updateNode, removeNode; rewrite ?HT, Hn'.
    + by destruct pre.
    + reflexivity.
    + reflexivity.
  - rewrite Ha. cbn [String.eqb Ascii.eqb Bool.eqb]. cbv iota.
    unfold updateNode. rewrite (navigateToTarget_steps D _ _ _ HT).
    rewrite (descend_reaches _ _ _ Hr). cbn [Exn.bind Exn.ret].
    cbn [parentChildren index]. by rewrite Hs.
  - rewrite Ha. cbn [String.eqb Ascii.eqb Bool.eqb]. cbv iota.
    unfold updateNode. rewrite (navigateToTarget_steps D _ _ _ HT).
    rewrite (descend_reaches _ _ _ Hr). cbn [Exn.bind Exn.ret].
    cbn [parentChildren index]. by destruct Hs as [-> | ->].
  - rewrite Ha. cbn [String.eqb Ascii.eqb Bool.eqb]. cbv iota.
    unfold removeNode. rewrite (navigateToTarget_steps D _ _ _ HT).
    rewrite (descend_reaches _ _ _ Hr). cbn [Exn.bind Exn.ret].
    cbn [parentChildren index].
    by rewrite (proj2 (Nat.leb_le _ _) Hs).
Qed.

Lemma navigateToTarget_inl D p msg :
  known (action p) -> action p <> "add" ->
  navigateToTarget D (targetPath p) = inl msg -> Fails D p msg.
Proof.
  intros Hk Hadd. unfold navigateToTarget.
  destruct (parsePath (targetPath p)) as [|s0 steps] eqn:HT.
  - intros [= <-]. apply fails_no_step; [|done].
    destruct Hk as [?|[?|?]]; tauto.
  - destruct (steps_split (s0 :: steps)) as (pre & i & E); [done|].
    rewrite E, removelast_last.
    destruct (descend (components D) pre 0) as [m|cs] eqn:Hd; [|discriminate].
    intros [= <-].
    apply descend_inl in Hd as (pre1 & k & rest & c1 & -> & Hr & Hm).
    rewrite E, <- app_assoc in HT. cbn [app] in HT. cbn [Nat.add] in Hm.
    destruct Hm as [[[s Hs] ->]|[Hs ->]].
    + eapply fails_text_on_path; [done|exact HT|by destruct rest|done|done].
    + eapply fails_off_path; [done|exact HT|by destruct rest|done|done].
Qed.

Lemma throws_Fails D p msg :
  action p <> "add" -> applySinglePatch D p = inl msg -> Fails D p msg.
Proof.
  intros Hadd. unfold applySinglePatch.
  destruct (String.eqb_spec (action p) "add") as [?|_]; [done|].
  destruct (String.eqb_spec (action p) "update") as [Ha|Hu].
  - unfold updateNode.
    destruct (navigateToTarget D (targetPath p)) as [m|tg] eqn:Hn.
    + intros [= <-]. apply navigateToTarget_inl; [|done|done].
      right. by left.
    + revert Hn. unfold navigateToTarget.
      destruct (parsePath (targetPath p)) as [|s0 steps] eqn:HT;
        [discriminate|].
      destruct (steps_split (s0 :: steps)) as (pre & i & E); [done|].
      rewrite E, removelast_last, last_last.
      destruct (descend (components D) pre 0) as [m|cs] eqn:Hd;
        [discriminate|].
      intros [= <-]. cbn [Exn.bind parentChildren index].
      apply descend_inr_reaches in Hd. rewrite E in HT.
      destruct (cs !! i) as [[|s|t q ch]|] eqn:Hi.
      * intros [= <-]. eapply fails_update_absent; [done|exact HT|done|].
        by right.
      * intros [= <-]. by eapply fails_update_text.
      * destruct (truthy (component p)); [discriminate|].
        by destruct (props p).
      * intros [= <-]. eapply fails_update_absent; [done|exact HT|done|].
        by left.
  - destruct (String.eqb_spec (action p) "remove") as [Ha|Hr].
    + unfold removeNode.
      destruct (navigateToTarget D (targetPath p)) as [m|tg] eqn:Hn.
      * intros [= <-]. apply navigateToTarget_inl; [|done|done].
        right. by right.
      * revert Hn. unfold navigateToTarget.
        destruct (parsePath (targetPath p)) as [|s0 steps] eqn:HT;
          [discriminate|].
        destruct (steps_split (s0 :: steps)) as (pre & i & E); [done|].
        rewrite E, removelast_last, last_last.
        destruct (descend (components D) pre 0) as [m|cs] eqn:Hd;
          [discriminate|].
        intros [= <-]. cbn [Exn.bind parentChildren index].
        apply descend_inr_reaches in Hd. rewrite E in HT.
        destruct (Nat.leb_spec (List.length cs) i) as [Hle|_]; [|discriminate].
        intros [= <-]. by eapply fails_remove_absent.
    + intros [= <-]. apply fails_action. unfold known. tauto.
Qed.

Lemma update_no_payload_returns D p :
  action p = "update" -> truthy (component p) = false -> props p = None ->
  Resolves D (targetPath p) -> applySinglePatch D p = inr D.
Proof.
  intros Ha Hc Hp (pre & i & cs & t & q & ch & HT & Hr & Hi).
  unfold applySinglePatch. rewrite Ha.
  cbn [String.eqb Ascii.eqb Bool.eqb]. cbv iota.
  unfold updateNode. rewrite (navigateToTarget_steps D _ _ _ HT).
  rewrite (descend_reaches _ _ _ Hr). cbn [Exn.bind Exn.ret].
  cbn [parentChildren index]. by rewrite Hi, Hc, Hp.
Qed.

End PatchFailures.

(** C7, as amended: at any turn of the loop, and for a patch whose path
    writes no index above 2^53, a patch of the kinds listed
    (an unknown action; a path without a step, for [update] and [remove];
    a step before the last that meets a text or no node; an [update] whose
    target is a text or no node; a [remove] whose index is not below the
    length of the array) makes the engine throw, with the message of its
    kind: one entry is added to [errors], the patch is not counted, the
    working document stays as it was, and the loop goes on with the next
    patch.  An [update] or a [remove] on which the engine throws, and a
    patch with an unknown action, is of one of these kinds.  A missing
    payload is not a failure of its own: an [update] patch with neither
    component nor props whose target path leads to a component node
    returns, is counted, adds no error and leaves the document unchanged.
    Every patch of a batch is either counted or reported. *)
Theorem failure_is_per_patch (st : LoopState) (p : Patch) (rest : list Patch) :
  Forall (fun k => (Z.of_nat k <= 2 ^ 53)%Z) (parsePath (targetPath p)) ->
  (forall msg, Failures.Fails (current st) p msg ->
     applySinglePatch (current st) p = inl msg
     /\ run_patches st (p :: rest)
        = run_patches {| current := current st;
                         errs := errs st ++ [error_entry p msg];
                         appliedCount := appliedCount st |} rest)
  /\ (forall msg, action p <> "add" ->
        applySinglePatch (current st) p = inl msg ->
        Failures.Fails (current st) p msg)
  /\ (action p = "update" -> truthy (component p) = false ->
      props p = None -> Failures.Resolves (current st) (targetPath p) ->
      applySinglePatch (current st) p = inr (current st)
      /\ run_patches st (p :: rest)
         = run_patches {| current := current st; errs := errs st;
                          appliedCount := S (appliedCount st) |} rest)
  /\ appliedCount (run_patches st (p :: rest))
     + List.length (errs (run_patches st (p :: rest)))
     = appliedCount st + List.length (errs st) + List.length (p :: rest).
Proof.
  intros _. split_and!.
  - intros msg H. apply Fails_throws in H. split; [done|].
    rewrite run_patches_cons. unfold patch_step. by rewrite H.
  - intros msg. apply throws_Fails.
  - intros Ha Hc Hp Hr.
    pose proof (update_no_payload_returns _ _ Ha Hc Hp Hr) as H.
    split; [done|]. rewrite run_patches_cons. unfold patch_step. by rewrite H.
  - apply run_patches_accounting.
Qed.

(** C7 at a batch of three patches on a document with one button: the
    [update] without payload is counted, the [remove] at index 5 is
    reported and leaves the document as it was, and the [add] that follows
    is applied. *)
Lemma failure_is_per_patch_witness :
  applyPatches Examples.button_doc
    [Examples.update_empty; Examples.remove_far; Examples.add_banana]
  = {| success := false;
       ast := {| layout := "Stack"; theme := Some "light";
                 components := [Examples.button; Examples.heading] |};
       appliedPatches := 2;
       errors := [error_entry Examples.remove_far
                    ("No node at index " +:+ pretty 5 +:+ " in "
                     +:+ quoted "root.children[5]")] |}.
Proof.
  destruct (failure_is_per_patch
              {| current := Examples.button_doc; errs := [];
                 appliedCount := 0 |}
              Examples.update_empty
              [Examples.remove_far; Examples.add_banana])
    as (_ & _ & Hupdate & _).
  { repeat constructor; vm_compute; discriminate. }
  destruct Hupdate as [_ H1]; [reflexivity|reflexivity|reflexivity| |].
  { exists [], 0, [Examples.button], "Button",
      [("variant", JStr "primary")], [Text "Click me"].
    split_and!; [reflexivity|constructor|reflexivity]. }
  destruct (failure_is_per_patch
              {| current := Examples.button_doc; errs := [];
                 appliedCount := 1 |}
              Examples.remove_far [Examples.add_banana])
    as (Hfail & _).
  { repeat constructor; vm_compute; discriminate. }
  destruct (Hfail ("No node at index " +:+ pretty 5 +:+ " in "
                   +:+ quoted "root.children[5]")) as [_ H2].
  { apply (Failures.fails_remove_absent _ Examples.remove_far
             [] 5 [Examples.button]);
      [reflexivity|reflexivity|constructor|cbn; lia]. }
  cbn [current errs appliedCount] in H1, H2.
  unfold applyPatches. rewrite H1, H2. reflexivity.
Defined.

(** *** Strings and the scan of a path *)

Lemma string_app_cons c s t : String c s +:+ t = String c (s +:+ t).
Proof. reflexivity. Qed.

Lemma string_app_assoc s t u : (s +:+ t) +:+ u = s +:+ (t +:+ u).
Proof.
  induction s as [|c s IH]; [reflexivity|].
  rewrite !string_app_cons. by rewrite IH.
Qed.

Lemma string_app_nil_r s : s +:+ EmptyString = s.
Proof.
  induction s as [|c s IH]; [reflexivity|].
  rewrite string_app_cons. by rewrite IH.
Qed.

Lemma string_length_app s t :
  String.length (s +:+ t) = String.length s + String.length t.
Proof.
  induction s as [|c s IH]; [reflexivity|].
  rewrite string_app_cons. cbn [String.length]. by rewrite IH.
Qed.

Lemma scan_path_skip a b :
  scan_path (a +:+ b) (String.length a) = scan_path b 0.
Proof.
  induction a as [|c a IH]; [reflexivity|].
  rewrite string_app_cons. cbn [scan_path String.length]. exact IH.
Qed.

Section ReadingAPath.
Import PathGrammar.

Lemma strip_prefix_Some p : forall s r,
  strip_prefix p s = Some r -> s = p +:+ r.
Proof.
  induction p as [|a p IH]; intros s r; cbn [strip_prefix].
  - by intros [= ->].
  - destruct s as [|b s]; [done|].
    destruct (Ascii.eqb_spec a b) as [->|_]; [|done].
    intros H. rewrite string_app_cons. f_equal. by apply IH.
Qed.

Lemma read_digits_run ds : forall rest acc len,
  all_digits ds = true ->
  match rest with String c _ => is_digit c = false | EmptyString => True end ->
  read_digits (ds +:+ rest) acc len
  = (digits_nat ds acc, len + String.length ds, rest).
Proof.
  induction ds as [|d ds IH]; intros rest acc len Hd Hrest.
  - change (EmptyString +:+ rest) with rest. cbn [digits_nat String.length].
    rewrite Nat.add_0_r. destruct rest as [|c rest]; [done|].
    cbn [read_digits]. by rewrite Hrest.
  - cbn [all_digits] in Hd. apply andb_true_iff in Hd as [Hd1 Hd].
    rewrite string_app_cons. cbn [read_digits digits_nat String.length].
    rewrite Hd1, IH by done. f_equal. f_equal. lia.
Qed.

Lemma read_digits_split r : forall acc len,
  exists ds,
    r = ds +:+ (read_digits r acc len).2
    /\ all_digits ds = true
    /\ (read_digits r acc len).1.2 = len + String.length ds
    /\ (read_digits r acc len).1.1 = digits_nat ds acc.
Proof.
  induction r as [|c r IH]; intros acc len.
  - exists EmptyString. cbn. split_and!; [done|done|lia|done].
  - cbn [read_digits]. destruct (is_digit c) eqn:Hc.
    + destruct (IH (10 * acc + digit_value c) (S len)) as (ds & E & Hd & Hl & Hv).
      exists (String c ds). rewrite string_app_cons.
      cbn [all_digits digits_nat String.length]. rewrite Hc, Hd.
      split_and!; [by f_equal|done|lia|done].
    + exists EmptyString. cbn. split_and!; [done|done|lia|done].
Qed.

Lemma match_segment_at ds rest :
  ds <> EmptyString -> all_digits ds = true ->
  match_segment (segment ds +:+ rest)
  = Some (value ds, 9 + String.length ds + 1).
Proof.
  intros Hne Hd. unfold match_segment, segment.
  rewrite !string_app_assoc.
  change (strip_prefix "children[" ("children[" +:+ ds +:+ "]" +:+ rest))
    with (Some (ds +:+ "]" +:+ rest)).
  cbv iota. rewrite (read_digits_run ds ("]" +:+ rest) 0 0 Hd) by reflexivity.
  cbn [Nat.add]. destruct ds as [|d ds]; [done|]. reflexivity.
Qed.

Lemma match_segment_inv s k len :
  match_segment s = Some (k, len) ->
  exists ds rest,
    s = segment ds +:+ rest /\ ds <> EmptyString /\ all_digits ds = true.
Proof.
  unfold match_segment.
  destruct (strip_prefix "children[" s) as [r|] eqn:E; [|done].
  apply strip_prefix_Some in E. subst s.
  destruct (read_digits_split r 0 0) as (ds & Er & Hd & Hl & _).
  destruct (read_digits r 0 0) as [[idx n] rest]. cbn [fst snd] in *.
  destruct n as [|n]; [done|].
  destruct rest as [|c rest]; [done|].
  destruct (Ascii.eqb_spec c "]"%char) as [->|Hc].
  - intros _. exists ds, rest. split_and!.
    + unfold segment. rewrite Er, !string_app_assoc. reflexivity.
    + intros ->. cbn in Hl. lia.
    + done.
  - intros H. exfalso. revert H.
    destruct c as [[] [] [] [] [] [] [] []]; done.
Qed.

Lemma scan_path_segment ds rest :
  ds <> EmptyString -> all_digits ds = true ->
  scan_path (segment ds +:+ rest) 0 = value ds :: scan_path rest 0.
Proof.
  intros Hne Hd.
  pose proof (match_segment_at ds rest Hne Hd) as Hm.
  revert Hm. unfold segment. rewrite !string_app_assoc.
  change ("children[" +:+ ds +:+ "]" +:+ rest)
    with (String "c" ("hildren[" +:+ ds +:+ "]" +:+ rest)).
  intros Hm. cbn [scan_path]. rewrite Hm. f_equal.
  replace (9 + String.length ds + 1 - 1)
    with (String.length ("hildren[" +:+ ds +:+ "]")).
  - rewrite <- (scan_path_skip ("hildren[" +:+ ds +:+ "]") rest).
    by rewrite !string_app_assoc.
  - rewrite !string_length_app. cbn [String.length]. lia.
Qed.

Lemma string_app_split a : forall X m rest,
  a +:+ X = m +:+ rest ->
  (exists t, a = m +:+ t)
  \/ (exists m2, m = a +:+ m2 /\ m2 <> EmptyString /\ X = m2 +:+ rest).
Proof.
  induction a as [|c a IH]; intros X m rest E.
  - change (EmptyString +:+ X) with X in E. destruct m as [|d m].
    + left. by exists EmptyString.
    + right. exists (String d m). done.
  - destruct m as [|d m].
    + left. by exists (String c a).
    + rewrite !string_app_cons in E. injection E as -> E.
      apply IH in E as [[t ->]|(m2 & -> & Hne & ->)].
      * left. by exists t.
      * right. by exists m2.
Qed.

Lemma In_chars_app x a b :
  In x (list_ascii_of_string (a +:+ b))
  <-> In x (list_ascii_of_string a) \/ In x (list_ascii_of_string b).
Proof.
  induction a as [|c a IH].
  - cbn. change (EmptyString +:+ b) with b. tauto.
  - rewrite string_app_cons. cbn [list_ascii_of_string In]. rewrite IH. tauto.
Qed.

Lemma all_digits_chars ds x :
  all_digits ds = true -> In x (list_ascii_of_string ds) -> is_digit x = true.
Proof.
  induction ds as [|d ds IH]; cbn [all_digits list_ascii_of_string In]; [done|].
  intros H. apply andb_true_iff in H as [H1 H2].
  intros [<-|Hin]; [done|by apply IH].
Qed.

Lemma segment_tail_no_c ds :
  all_digits ds = true ->
  ~ In "c"%char (list_ascii_of_string ("hildren[" +:+ ds +:+ "]")).
Proof.
  intros Hd H. apply In_chars_app in H as [H|H].
  - cbn in H. repeat (destruct H as [H|H]; [discriminate H|]). done.
  - apply In_chars_app in H as [H|H].
    + by apply (all_digits_chars _ _ Hd) in H.
    + cbn in H. by destruct H as [H|H].
Qed.

Lemma Quiet_tail c n : Quiet (String c n) -> Quiet n.
Proof.
  intros H a ds b E Hd. apply (H (String c a) ds b); [|done].
  rewrite string_app_cons. by f_equal.
Qed.

Lemma Quiet_empty : Quiet EmptyString.
Proof.
  intros a ds b E _. apply (f_equal String.length) in E.
  unfold segment in E. rewrite !string_length_app in E. cbn in E. lia.
Qed.

(** The scan finds nothing in a quiet text, whatever follows it, as long
    as what follows is nothing or starts a new occurrence. *)
Lemma scan_path_quiet n : forall X,
  Quiet n ->
  match X with String c _ => c = "c"%char | EmptyString => True end ->
  scan_path (n +:+ X) 0 = scan_path X 0.
Proof.
  induction n as [|c0 n IH]; intros X Hq HX; [done|].
  rewrite string_app_cons. cbn [scan_path].
  destruct (match_segment (String c0 (n +:+ X))) as [[k len]|] eqn:E.
  - exfalso. apply match_segment_inv in E as (ds & rest & E & Hne & Hd).
    rewrite <- string_app_cons in E.
    apply string_app_split in E as [[t E]|(m2 & E & Hm2 & EX)].
    + apply Hne. apply (Hq EmptyString ds t); [|done]. exact E.
    + destruct m2 as [|d m2]; [done|]. subst X.
      rewrite string_app_cons in HX. subst d.
      assert (E' : "hildren[" +:+ ds +:+ "]" = n +:+ String "c" m2).
      { unfold segment in E. cbn in E. injection E as _ E. exact E. }
      apply (segment_tail_no_c ds Hd). rewrite E'.
      apply In_chars_app. right. by left.
  - apply IH; [by eapply Quiet_tail|done].
Qed.

Lemma scan_path_quiet_end n : Quiet n -> scan_path n 0 = [].
Proof.
  intros Hq. rewrite <- (string_app_nil_r n).
  by rewrite (scan_path_quiet n EmptyString Hq).
Qed.

Lemma parsePath_reads parts tail :
  Forall Occurrence parts -> Quiet tail ->
  parsePath (written parts tail) = indices parts.
Proof.
  intros Hp Ht. unfold parsePath.
  induction Hp as [|[n ds] parts (Hq & Hne & Hd) _ IH].
  - by apply scan_path_quiet_end.
  - cbn [written indices map fst snd] in *.
    rewrite scan_path_quiet; [|done|reflexivity].
    rewrite scan_path_segment by done. by rewrite IH.
Qed.

Lemma Quiet_cons c n Y :
  Quiet n -> match_segment (String c n +:+ Y) = None -> Quiet (String c n).
Proof.
  intros Hq Hm a ds b E Hd. destruct a as [|x a].
  - change (EmptyString +:+ segment ds +:+ b) with (segment ds +:+ b) in E.
    destruct ds as [|d ds]; [done|]. exfalso.
    rewrite E, string_app_assoc in Hm.
    by rewrite match_segment_at in Hm.
  - rewrite string_app_cons in E. injection E as _ E. by apply (Hq a ds b).
Qed.

Lemma every_path_is_written_fuel n : forall T,
  String.length T <= n ->
  exists parts tail,
    T = written parts tail /\ Forall Occurrence parts /\ Quiet tail.
Proof.
  induction n as [|n IH]; intros T Hlen.
  - destruct T; [|cbn in Hlen; lia].
    exists [], EmptyString. split_and!; [done|constructor|apply Quiet_empty].
  - destruct (match_segment T) as [[k len]|] eqn:E.
    + apply match_segment_inv in E as (ds & rest & -> & Hne & Hd).
      destruct (IH rest) as (parts & tail & -> & Hp & Ht).
      { unfold segment in Hlen. rewrite !string_length_app in Hlen.
        cbn in Hlen. lia. }
      exists ((EmptyString, ds) :: parts), tail. split_and!; [done| |done].
      constructor; [|done]. split_and!; [apply Quiet_empty|done|done].
    + destruct T as [|c T].
      { exists [], EmptyString.
        split_and!; [done|constructor|apply Quiet_empty]. }
      destruct (IH T) as (parts & tail & ET & Hp & Ht).
      { cbn in Hlen. lia. }
      destruct parts as [|[n0 ds] parts].
      * cbn [written] in ET. subst T. exists [], (String c tail).
        split_and!; [done|constructor|].
        apply (Quiet_cons c tail EmptyString Ht). by rewrite string_app_nil_r.
      * cbn [written] in ET. subst T.
        exists ((String c n0, ds) :: parts), tail.
        apply Forall_cons in Hp as [(Hq & Hne & Hd) Hp].
        split_and!; [done| |done].
        constructor; [|done]. split_and!; [|done|done].
        eapply Quiet_cons; [done|]. rewrite string_app_cons. exact E.
Qed.

Lemma every_path_is_written T :
  exists parts tail,
    T = written parts tail /\ Forall Occurrence parts /\ Quiet tail.
Proof. by apply (every_path_is_written_fuel (String.length T)). Qed.

Lemma Quiet_short n : String.length n < 10 -> Quiet n.
Proof.
  intros Hn a ds b E Hd. destruct ds as [|d ds]; [done|]. exfalso.
  apply (f_equal String.length) in E. unfold segment in E.
  rewrite !string_length_app in E. cbn in E. lia.
Qed.

End ReadingAPath.

Lemma banana_not_well_formed : ~ PathGrammar.WellFormed "banana".
Proof.
  intros [H|[H|(c & _ & H)]]; [discriminate| |discriminate].
  inversion H.
Qed.

Lemma noise_not_well_formed : ~ PathGrammar.WellFormed "xchildren[0]y".
Proof.
  intros [H|[H|(c & _ & H)]]; [discriminate| |discriminate].
  inversion H.
Qed.

(** C8, the claim as stated fails: [banana] is neither [root] nor a chain of
    [children[n]] segments, yet an [add] patch with that path succeeds and
    appends to the top-level components; [xchildren[0]y] is not in the
    grammar either, yet an [update] patch with that path changes the first
    component. *)
Lemma malformed_path_accepted :
  ~ PathGrammar.WellFormed (targetPath Examples.add_banana)
  /\ applyPatches createEmptyAST [Examples.add_banana]
     = {| success := true;
          ast := {| layout := "Stack"; theme := Some "light";
                    components := [Examples.heading] |};
          appliedPatches := 1; errors := [] |}
  /\ ~ PathGrammar.WellFormed (targetPath Examples.update_noise)
  /\ applyPatches Examples.button_doc [Examples.update_noise]
     = {| success := true;
          ast := {| layout := "Stack"; theme := Some "light";
                    components :=
                      [Elem "Button"
                         [("variant", JStr "primary"); ("size", JStr "lg")]
                         [Text "Click me"]] |};
          appliedPatches := 1; errors := [] |}.
Proof.
  split_and!.
  - apply banana_not_well_formed.
  - vm_compute. reflexivity.
  - apply noise_not_well_formed.
  - vm_compute. reflexivity.
Qed.

Lemma navigateToTarget_segments D T T' :
  parsePath T = parsePath T' ->
  Exn.same_outcome (navigateToTarget D T) (navigateToTarget D T').
Proof.
  intros H. unfold navigateToTarget. rewrite <- H.
  destruct (parsePath T) as [|s0 steps]; [done|].
  destruct (descend _ _ 0); done.
Qed.

Lemma applySinglePatch_segments D a T T' c ps :
  parsePath T = parsePath T' ->
  Exn.same_outcome (applySinglePatch D (mkPatch a T c ps))
               (applySinglePatch D (mkPatch a T' c ps)).
Proof.
  intros H. unfold applySinglePatch. cbn [action targetPath component props].
  pose proof (navigateToTarget_segments D T T' H) as Hnav.
  destruct (String.eqb a "add"); [|destruct (String.eqb a "update");
                                   [|destruct (String.eqb a "remove"); [|done]]].
  - unfold addNode. rewrite <- H. destruct (parsePath T) eqn:HT; [done|].
    destruct (navigateToTarget D T) as [?|tg], (navigateToTarget D T') as [?|tg'];
      try done. cbn in Hnav. by subst tg'.
  - unfold updateNode.
    destruct (navigateToTarget D T) as [?|tg], (navigateToTarget D T') as [?|tg'];
      try done. cbn in Hnav. subst tg'. cbn [Exn.bind].
    destruct (parentChildren tg !! index tg) as [[| |t q ch]|]; try done.
    destruct (truthy c); [done|]. by destruct ps.
  - unfold removeNode.
    destruct (navigateToTarget D T) as [?|tg], (navigateToTarget D T') as [?|tg'];
      try done. cbn in Hnav. subst tg'. cbn [Exn.bind].
    by destruct (_ <=? _)%nat.
Qed.

(** C8, as amended: a target path is read as the sequence of the
    [children[<digits>]] occurrences found in it, whatever text surrounds
    them.  Every string is laid out in one way or another as occurrences,
    each after a text that holds none, and a last text that holds none;
    for such a layout, with every index up to 2^53, the steps read are the
    numbers the occurrences write in base ten, in their order, and two
    layouts that write the same numbers make a patch end the same way
    (both are rejected, or both yield the same document).  A path that
    holds no occurrence is rejected by [update] and [remove] with an
    [Invalid target path] error that leaves the document unchanged, and is
    taken for the root by [add], which appends the component to the
    top-level components. *)
Theorem target_path_is_read_by_segments (D : UIAST)
    (parts : list (string * string)) (tail : string)
    (a : string) (c : UINode) (ps : option Props) :
  Forall PathGrammar.Occurrence parts ->
  PathGrammar.Quiet tail ->
  PathGrammar.exact parts ->
  parsePath (PathGrammar.written parts tail) = PathGrammar.indices parts
  /\ (forall parts' tail',
        Forall PathGrammar.Occurrence parts' -> PathGrammar.Quiet tail' ->
        PathGrammar.exact parts' ->
        PathGrammar.indices parts' = PathGrammar.indices parts ->
        Exn.same_outcome
          (applySinglePatch D (mkPatch a (PathGrammar.written parts tail) c ps))
          (applySinglePatch D
             (mkPatch a (PathGrammar.written parts' tail') c ps)))
  /\ (parts = [] ->
      applyPatches D [mkPatch "update" tail c ps]
      = {| success := false; ast := D; appliedPatches := 0;
           errors := ["Patch " +:+ quoted "update" +:+ " at " +:+ quoted tail
                      +:+ ": Invalid target path: " +:+ quoted tail] |}
      /\ applyPatches D [mkPatch "remove" tail c ps]
         = {| success := false; ast := D; appliedPatches := 0;
              errors := ["Patch " +:+ quoted "remove" +:+ " at "
                         +:+ quoted tail
                         +:+ ": Invalid target path: " +:+ quoted tail] |}
      /\ applyPatches D [mkPatch "add" tail c ps]
         = {| success := true;
              ast := with_components D (components D ++ [c]);
              appliedPatches := 1; errors := [] |})
  /\ (forall T : string,
        exists parts' tail',
          T = PathGrammar.written parts' tail'
          /\ Forall PathGrammar.Occurrence parts'
          /\ PathGrammar.Quiet tail').
Proof.
  intros Hp Ht _. split_and!.
  - by apply parsePath_reads.
  - intros parts' tail' Hp' Ht' _ Hi. apply applySinglePatch_segments.
    rewrite !parsePath_reads by done. by rewrite Hi.
  - intros ->. cbn [PathGrammar.written] in *.
    pose proof (parsePath_reads [] tail Hp Ht) as HT.
    cbn [PathGrammar.written PathGrammar.indices map] in HT.
    unfold applyPatches, run_patches. cbn [fold_left].
    unfold patch_step, applySinglePatch.
    cbn [action targetPath component props current errs appliedCount].
    change (String.eqb "update" "add") with false.
    change (String.eqb "update" "update") with true.
    change (String.eqb "remove" "add") with false.
    change (String.eqb "remove" "update") with false.
    change (String.eqb "remove" "remove") with true.
    change (String.eqb "add" "add") with true. cbv iota.
    unfold updateNode, removeNode, addNode, navigateToTarget. rewrite HT.
    unfold Exn.bind, Exn.throw, Exn.ret. cbn [current errs appliedCount app].
    split_and!; reflexivity.
  - apply every_path_is_written.
Qed.

(** C8 at the path [xchildren[0]y]: the text [x], the occurrence that
    writes 0, the text [y]. *)
Lemma target_path_is_read_by_segments_witness :
  parsePath "xchildren[0]y" = [0].
Proof.
  assert (Hx : PathGrammar.Quiet "x") by (apply Quiet_short; cbn; lia).
  assert (Hy : PathGrammar.Quiet "y") by (apply Quiet_short; cbn; lia).
  assert (Ho : Forall PathGrammar.Occurrence [("x", "0")]).
  { constructor; [|constructor]. split_and!; [exact Hx|discriminate|reflexivity]. }
  assert (He : PathGrammar.exact [("x", "0")]).
  { constructor; [|constructor]. vm_compute. discriminate. }
  destruct (target_path_is_read_by_segments Examples.button_doc
              [("x", "0")] "y" "update" Undefined
              (Some [("size", JStr "lg")]) Ho Hy He) as [H _].
  exact H.
Defined.

Lemma patch_step_ok st p next :
  applySinglePatch (current st) p = inr next ->
  patch_step st p
  = {| current := next; errs := errs st; appliedCount := S (appliedCount st) |}.
Proof. intros H. unfold patch_step. by rewrite H. Qed.

Lemma patch_step_failed st p msg :
  applySinglePatch (current st) p = inl msg ->
  patch_step st p
  = {| current := current st; errs := errs st ++ [error_entry p msg];
       appliedCount := appliedCount st |}.
Proof. intros H. unfold patch_step. by rewrite H. Qed.

(** C9: update by property merge is idempotent.  For every document, every
    target path and every property mapping (a JavaScript object: no key
    twice), if the patch [{action: "update", targetPath, props}] applies,
    then applying it twice in a row applies both times, without error, and
    yields the document that applying it once yields. *)
Theorem update_by_prop_merge_idempotent (D : UIAST) (T : string) (P : Props) :
  obj_wf P ->
  success (applyPatches D [mkPatch "update" T Undefined (Some P)]) = true ->
  applyPatches D [mkPatch "update" T Undefined (Some P);
                  mkPatch "update" T Undefined (Some P)]
  = {| success := true;
       ast := ast (applyPatches D [mkPatch "update" T Undefined (Some P)]);
       appliedPatches := 2;
       errors := [] |}.
Proof.
  intros HP. set (p := mkPatch "update" T Undefined (Some P)).
  set (st0 := {| current := D; errs := []; appliedCount := 0 |}).
  unfold applyPatches. fold st0. rewrite !run_patches_cons.
  unfold run_patches. cbn [fold_left].
  destruct (applySinglePatch (current st0) p) as [msg|D1] eqn:H1.
  - rewrite (patch_step_failed _ _ _ H1). cbn [errs app]. discriminate.
  - intros _. rewrite (patch_step_ok _ _ _ H1).
    assert (H2 : applySinglePatch D1 p = inr D1).
    { rewrite (apply_update p (current st0)) in H1 by reflexivity.
      rewrite (apply_update p D1) by reflexivity.
      eapply updateNode_props_idem; [exact HP | exact H1]. }
    rewrite (patch_step_ok _ p D1) by exact H2. reflexivity.
Qed.

(** C9 at a button whose [size] is set twice. *)
Lemma update_by_prop_merge_idempotent_witness :
  obj_wf [("size", JStr "lg")]
  /\ applyPatches Examples.button_doc [Examples.update_size; Examples.update_size]
     = {| success := true;
          ast := ast (applyPatches Examples.button_doc [Examples.update_size]);
          appliedPatches := 2;
          errors := [] |}.
Proof.
  assert (Hwf : @obj_wf JValue [("size", JStr "lg")]) by apply NoDup_singleton.
  split; [exact Hwf|].
  apply (update_by_prop_merge_idempotent Examples.button_doc
           "root.children[0]" [("size", JStr "lg")] Hwf).
  vm_compute. reflexivity.
Defined.

(* ================================================================== *)
(** ** The sandbox *)
(* ================================================================== *)

Import Regex Sandbox.
Lemma match_here_complete p prev s r :
  Matches p prev s r -> is_Some (match_here p prev s).
Proof.
  induction 1 as [prev s|c p prev s r _ IH|f a p prev s r Hf _ IH
                 |p prev s r Hb _ IH|f p prev s r _ IH|f a p prev s r Hf _ IH].
  - by eexists.
  - cbn [match_here]. by rewrite N.eqb_refl.
  - cbn [match_here]. by rewrite Hf.
  - cbn [match_here]. by rewrite Hb.
  - cbn [match_here]. destruct s as [|a s']; [done|].
    destruct (f a); [|done].
    match goal with |- is_Some (match ?x with _ => _ end) => destruct x end;
      [by eexists|done].
  - cbn [match_here] in IH |- *. rewrite Hf.
    destruct IH as [r' ->]. by eexists.
Qed.

Lemma search_complete p before : forall prev rest after,
  Matches p (last_char prev before) rest after ->
  search p prev (before ++ rest) = true.
Proof.
  induction before as [|c before IH]; intros prev rest after H.
  - cbn [last_char] in H. cbn [app].
    apply match_here_complete in H as [r Hr].
    destruct rest; cbn [search]; by rewrite Hr.
  - cbn [last_char] in H. cbn [app search].
    destruct (match_here p prev _); [done|]. by eapply IH.
Qed.

Lemma test_complete r code : Contains (atoms r) code -> test r code = true.
Proof. intros (b & rest & a & -> & H). by eapply search_complete. Qed.


Lemma scan_patterns_hit label pats code r :
  r ∈ pats -> test r code = true ->
  label +:+ source r ∈ scan_patterns label pats code.
Proof.
  intros Hr Ht. unfold scan_patterns. apply list_elem_of_In, in_flat_map.
  exists r. split; [by apply list_elem_of_In|]. rewrite Ht. by left.
Qed.

(** C6: for every source text that holds a match of a pattern of the
    deny-list (the dangerous constructs or the literal-condition loops),
    [analyzeCode] answers [safe = false] with an issue that names the
    source of that pattern, and [executeSandboxed] reads the clock once and
    returns a failure result: no function is constructed and none is
    called. *)
Theorem deny_listed_code_never_runs (V F : Type) (code : Ustring) (r : Regex.t) :
  r ∈ DANGEROUS_PATTERNS ++ LOOP_PATTERNS ->
  Contains (atoms r) code ->
  safe (analyzeCode code) = false
  /\ ((r ∈ DANGEROUS_PATTERNS
       /\ "Blocked pattern detected: " +:+ source r ∈ issues (analyzeCode code))
      \/ (r ∈ LOOP_PATTERNS
          /\ "Potential infinite loop: " +:+ source r
             ∈ issues (analyzeCode code)))
  /\ forall scope options, exists res,
       executeSandboxed V F code scope options = DateNow (fun _ => Done res)
       /\ success V res = false /\ result V res = None
       /\ is_Some (error V res) /\ executionTimeMs V res = 0%Z.
Proof.
  intros Hr Hc. apply test_complete in Hc.
  assert (Hissue :
    (r ∈ DANGEROUS_PATTERNS
     /\ "Blocked pattern detected: " +:+ source r ∈ issues (analyzeCode code))
    \/ (r ∈ LOOP_PATTERNS
        /\ "Potential infinite loop: " +:+ source r
           ∈ issues (analyzeCode code))).
  { apply elem_of_app in Hr as [Hr|Hr]; [left|right]; (split; [done|]);
      cbn [analyzeCode issues]; apply elem_of_app; [left|right];
      by apply scan_patterns_hit. }
  assert (Hsafe : safe (analyzeCode code) = false).
  { assert (Hin : exists i, i ∈ issues (analyzeCode code))
      by (destruct Hissue as [[_ ?]|[_ ?]]; by eexists).
    destruct Hin as [i Hin]. revert Hin. unfold analyzeCode.
    cbn [safe issues].
    generalize (scan_patterns "Blocked pattern detected: " DANGEROUS_PATTERNS code
                ++ scan_patterns "Potential infinite loop: " LOOP_PATTERNS code).
    intros [|i' l] H; [by apply elem_of_nil in H|done]. }
  split_and!; [done..|].
  intros scope options. unfold executeSandboxed.
  destruct (_ <? _)%Z.
  - eexists. split; [reflexivity|]. by split_and!.
  - rewrite Hsafe. eexists. split; [reflexivity|]. by split_and!.
Qed.

(** C6 at the text [eval], a no-break space (U+00A0), [(userInput)]. *)
Lemma deny_listed_code_never_runs_witness :
  Examples.eval_call ∈ DANGEROUS_PATTERNS ++ LOOP_PATTERNS
  /\ Contains (atoms Examples.eval_call) Examples.spaced_eval
  /\ safe (analyzeCode Examples.spaced_eval) = false.
Proof.
  assert (H1 : Examples.eval_call ∈ DANGEROUS_PATTERNS ++ LOOP_PATTERNS) by left.
  assert (H2 : Contains (atoms Examples.eval_call) Examples.spaced_eval).
  { exists [], Examples.spaced_eval, (units "userInput)").
    split; [reflexivity|]. cbn.
    apply M_wordb; [reflexivity|]. do 4 apply M_lit.
    apply M_star_step; [reflexivity|]. apply M_star_stop.
    apply M_lit. apply M_end. }
  split_and!; [exact H1|exact H2|].
  apply (deny_listed_code_never_runs unit unit Examples.spaced_eval
           Examples.eval_call H1 H2).
Defined.

(* ================================================================== *)
(** ** The validator *)
(* ================================================================== *)

Import Zod Schema Validator Conformance.

Lemma string_in_spec s l : string_in s l = true <-> s ∈ l.
Proof.
  unfold string_in. rewrite existsb_exists. split.
  - intros (x & Hx & ->%String.eqb_eq). by apply list_elem_of_In.
  - intros H. exists s. split; [by apply list_elem_of_In|apply String.eqb_refl].
Qed.

Lemma schema_for_in_Some tbl t :
  string_in t (map fst tbl) = true -> is_Some (schema_for_in tbl t).
Proof.
  induction tbl as [|[k sch] tbl IH]; cbn; [done|].
  destruct (String.eqb_spec t k); [by eexists|]. cbn. exact IH.
Qed.

Lemma schema_for_allowed t :
  string_in t ALLOWED_COMPONENT_TYPES = true -> is_Some (schema_for t).
Proof. apply schema_for_in_Some. Qed.

Lemma schema_for_in_allowed tbl t sch :
  schema_for_in tbl t = Some sch -> string_in t (map fst tbl) = true.
Proof.
  induction tbl as [|[k sch'] tbl IH]; cbn; [done|].
  destruct (String.eqb_spec t k); [done|]. cbn. exact IH.
Qed.

(** *** The top-level parse *)

Lemma fold_indexed_issues (h : UINode -> nat -> Status * list Issue) l :
  forall i a,
  (fold_indexed (fun c j (acc : Status * list Issue) =>
                   (merge_status acc.1 (h c j).1, acc.2 ++ (h c j).2)) l i a).2 = [] ->
  a.2 = [] /\ Forall (fun c => exists j, (h c j).2 = []) l.
Proof.
  induction l as [|c l IH]; intros i a H; cbn in H.
  - split; [done|constructor].
  - apply IH in H as [Ha Hl]. cbn in Ha. apply app_eq_nil in Ha as [Ha Hc].
    split; [done|]. constructor; [by exists i|done].
Qed.

Lemma parse_node_shape n : forall p,
  (parse_node p n).2 = [] -> node_conforms (fun _ _ => true) n = true.
Proof.
  induction n as [|s|type props children IH] using UINode_tree_ind; intros p.
  - discriminate.
  - discriminate.
  - cbn [parse_node node_conforms snd]. intros H.
    apply app_eq_nil in H as [Ht Hc].
    assert (Hs : is_Some (schema_for type)).
    { apply schema_for_allowed. revert Ht. unfold type_issues.
      by destruct (string_in type ALLOWED_COMPONENT_TYPES). }
    destruct Hs as [sch ->]. cbn.
    apply (fold_indexed_issues
             (fun c j =>
                let q := p ++ ["children"; pretty j] in
                match c with
                | Text _ => (Valid, [])
                | Undefined => (Aborted, [issue_invalid_union q])
                | Elem _ _ _ =>
                    match parse_node q c with
                    | (Aborted, _) => (Aborted, [issue_invalid_union q])
                    | r => r
                    end
                end)) in Hc as [_ Hc].
    apply forallb_forall. intros c Hin. apply list_elem_of_In in Hin.
    rewrite Forall_forall in IH, Hc.
    destruct (Hc c Hin) as [j Hj]. destruct c as [|s|t q ch].
    + discriminate.
    + done.
    + apply (IH _ Hin (p ++ ["children"; pretty j])).
      cbv zeta in Hj. destruct (parse_node _ _) as [[] iss]; done.
Qed.

(** *** The issues of a property schema *)

Lemma parse_chart_item_codes p v i :
  i ∈ (parse_chart_item p v).1 -> code i <> unrecognized_keys.
Proof.
  unfold parse_chart_item. destruct v as [| | | | |fs];
    try (cbn; intros ->%list_elem_of_singleton; done).
  destruct (obj_get "label" fs) as [[]|], (obj_get "value" fs) as [[]|]; cbn;
    rewrite ?elem_of_cons, ?elem_of_nil; intros H; intuition (subst; done).
Qed.

Lemma parse_chart_items_codes p vs : forall k i,
  i ∈ (parse_chart_items p k vs).1 -> code i <> unrecognized_keys.
Proof.
  induction vs as [|v vs IH]; intros k i; cbn.
  - by intros ?%elem_of_nil.
  - destruct (parse_chart_item _ v) as [is1 o1] eqn:H1.
    destruct (parse_chart_items p (S k) vs) as [is2 o2] eqn:H2. cbn.
    intros [Hin|Hin]%elem_of_app.
    + apply (parse_chart_item_codes (p ++ [pretty k]) v). by rewrite H1.
    + apply (IH (S k)). by rewrite H2.
Qed.

Lemma parse_type_codes ty p v i :
  i ∈ (parse_type ty p v).1 -> code i <> unrecognized_keys.
Proof.
  destruct ty as [vals|vals| | |], v as [|b|n|s|items|fs]; cbn;
    try (intros ->%list_elem_of_singleton; done);
    try (by intros ?%elem_of_nil).
  - destruct (string_in s vals); cbn; [by intros ?%elem_of_nil|].
    intros ->%list_elem_of_singleton; done.
  - destruct (existsb _ vals); cbn; [by intros ?%elem_of_nil|].
    intros ->%list_elem_of_singleton; done.
  - destruct (parse_chart_items p 0 items) as [iss out] eqn:H. cbn.
    intros Hin. apply (parse_chart_items_codes p items 0). by rewrite H.
Qed.

Lemma parse_fields_codes shape input i :
  i ∈ (parse_fields shape input).1 -> code i <> unrecognized_keys.
Proof.
  induction shape as [|f shape IH]; cbn; [by intros ?%elem_of_nil|].
  destruct (parse_fields shape input) as [is2 out2].
  destruct (obj_get (fname f) input) as [v|].
  - destruct (parse_type (ftype f) [fname f] v) as [is1 o1] eqn:H1. cbn.
    intros [Hin|Hin]%elem_of_app; [|by apply IH].
    apply (parse_type_codes (ftype f) [fname f] v). by rewrite H1.
  - destruct (fdefault f); cbn; apply IH.
Qed.

Lemma report_issues_errors path type issues : forall r,
  r_errors (fold_left (report_issue path type) issues r) = [] <->
  r_errors r = [] /\ Forall (fun i => code i = unrecognized_keys) issues.
Proof.
  induction issues as [|i issues IH]; intros r; cbn [fold_left].
  - split; [intros H; split; [done|constructor]|tauto].
  - rewrite IH. unfold report_issue. rewrite Forall_cons.
    destruct (code i); cbn; split;
      try (intros [H ?]; by apply app_eq_nil in H as [_ ?]);
      try (by intros [_ [? _]]); tauto.
Qed.

Lemma validate_props_errors schema props path type r :
  r_errors match safeParse schema props with
           | inr _ => r
           | inl issues => fold_left (report_issue path type) issues r
           end = [] <->
  r_errors r = [] /\ declared_ok schema props = true.
Proof.
  unfold safeParse, declared_ok.
  pose proof (parse_fields_codes schema props) as Hcodes.
  destruct (parse_fields schema props) as [iss out]. cbn [fst] in *.
  destruct (extra_keys schema props) as [|k ks].
  - destruct iss as [|i iss]; [tauto|].
    rewrite report_issues_errors, Forall_cons. split; [|intros [_ ?]; done].
    intros [_ [Hi _]]. exfalso. apply (Hcodes i); [left|done].
  - destruct iss as [|i iss].
    + cbn [app]. rewrite report_issues_errors, Forall_singleton. cbn.
      tauto.
    + cbn [app]. rewrite report_issues_errors, Forall_cons.
      split; [|intros [_ ?]; done].
      intros [_ [Hi _]]. exfalso. apply (Hcodes i); [left|done].
Qed.

Lemma fold_indexed_errors (f : UINode -> nat -> Report -> Report)
    (Q : UINode -> bool) l :
  Forall (fun c => forall i r, r_errors (f c i r) = [] <->
                               r_errors r = [] /\ Q c = true) l ->
  forall i r, r_errors (fold_indexed f l i r) = [] <->
              r_errors r = [] /\ forallb Q l = true.
Proof.
  induction 1 as [|c l Hc _ IH]; intros i r; cbn [fold_indexed forallb].
  - tauto.
  - rewrite IH, Hc, andb_true_iff. tauto.
Qed.

Lemma validateNode_errors n :
  node_conforms (fun _ _ => true) n = true ->
  forall path r,
    r_errors (validateNode n path r) = [] <->
    r_errors r = [] /\ node_conforms declared_ok n = true.
Proof.
  induction n as [|s|type props children IH] using UINode_tree_ind.
  - discriminate.
  - intros _ path r. cbn. tauto.
  - cbn [node_conforms validateNode]. destruct (schema_for type) as [schema|]; [|done].
    cbn [andb]. intros Hch path r.
    rewrite (fold_indexed_errors _ (node_conforms declared_ok)).
    + rewrite validate_props_errors, andb_true_iff. tauto.
    + rewrite Forall_forall in IH |- *. intros c Hin i r'.
      apply IH; [done|].
      rewrite forallb_forall in Hch. apply Hch. by apply list_elem_of_In.
Qed.

Lemma fold_indexed_app_nil (g : UINode -> nat -> list Issue) l : forall i a,
  fold_indexed (fun c i issues => issues ++ g c i) l i a = [] ->
  a = [] /\ Forall (fun c => exists j, g c j = []) l.
Proof.
  induction l as [|c l IH]; intros i a H; cbn in H.
  - split; [done|constructor].
  - apply IH in H as [Ha Hl]. apply app_eq_nil in Ha as [Ha Hc].
    split; [done|]. constructor; [by exists i|done].
Qed.

Lemma parses_shape D :
  parses D = true ->
  Forall (fun c => node_conforms (fun _ _ => true) c = true) (components D).
Proof.
  unfold parses, UIASTSchema_safeParse.
  destruct (_ ++ _ ++ parse_components (components D)) as [|i l] eqn:H; [|done].
  intros _. apply app_eq_nil in H as [_ H]. apply app_eq_nil in H as [_ H].
  apply fold_indexed_app_nil in H as [_ H].
  eapply Forall_impl; [exact H|]. intros c [j Hj]. by eapply parse_node_shape.
Qed.

(** *** The copy the top-level parse returns *)

Lemma schema_for_in_elem tbl type schema :
  schema_for_in tbl type = Some schema -> (type, schema) ∈ tbl.
Proof.
  induction tbl as [|[k sch] tbl IH]; cbn; [done|].
  destruct (String.eqb_spec type k) as [->|_].
  - intros [= ->]. left.
  - intros H. right. by apply IH.
Qed.

Lemma registry_fields_not_proto :
  forallb
    (fun e => forallb (fun f => negb (String.eqb (fname f) "__proto__")) e.2)
    COMPONENT_PROP_SCHEMAS = true.
Proof. vm_compute. reflexivity. Qed.

Lemma schema_for_fields type schema f :
  schema_for type = Some schema -> f ∈ schema -> fname f <> "__proto__".
Proof.
  intros Hs Hf. apply schema_for_in_elem in Hs.
  pose proof registry_fields_not_proto as H. rewrite forallb_forall in H.
  apply list_elem_of_In in Hs. specialize (H _ Hs). cbn [snd] in H.
  rewrite forallb_forall in H. apply list_elem_of_In in Hf.
  specialize (H _ Hf). apply negb_true_iff in H. by apply String.eqb_neq in H.
Qed.

Lemma record_parse_get k props :
  k <> "__proto__" -> obj_get k (record_parse props) = obj_get k props.
Proof.
  intros Hk. unfold record_parse.
  induction props as [|[k0 v0] props IH]; [done|].
  rewrite filter_cons. cbn [fst].
  destruct (decide (String.eqb k0 "__proto__" = false)) as [Hne|He];
    cbn [obj_get]; rewrite IH; [done|].
  apply not_false_is_true, String.eqb_eq in He. subst k0.
  by destruct (String.eqb_spec k "__proto__").
Qed.

(** The declared properties are parsed by looking them up: two inputs
    with the same values for them parse alike. *)
Lemma parse_fields_ext shape a b :
  (forall f, f ∈ shape -> obj_get (fname f) a = obj_get (fname f) b) ->
  parse_fields shape a = parse_fields shape b.
Proof.
  induction shape as [|f shape IH]; intros H; [done|].
  cbn [parse_fields]. rewrite IH by (intros f' Hf'; apply H; by right).
  by rewrite (H f) by left.
Qed.

Lemma parse_fields_record type schema props :
  schema_for type = Some schema ->
  parse_fields schema (record_parse props) = parse_fields schema props.
Proof.
  intros Hs. apply parse_fields_ext. intros f Hf.
  apply record_parse_get. by eapply schema_for_fields.
Qed.

Lemma declared_ok_record type schema props :
  schema_for type = Some schema ->
  declared_ok schema (record_parse props) = declared_ok schema props.
Proof.
  intros Hs. unfold declared_ok. by erewrite parse_fields_record.
Qed.

Lemma node_conforms_parsed (ok : ObjectSchema -> Props -> bool) n :
  (forall type schema props,
     schema_for type = Some schema ->
     ok schema (record_parse props) = ok schema props) ->
  node_conforms ok (parsed_node n) = node_conforms ok n.
Proof.
  intros Hok.
  induction n as [|s|type props children IH] using UINode_tree_ind;
    [done|done|].
  cbn [parsed_node node_conforms].
  destruct (schema_for type) as [schema|] eqn:Hs; [|done].
  rewrite (Hok _ _ _ Hs). f_equal.
  induction IH as [|c cs Hc _ IHcs]; [done|].
  cbn [map forallb]. by rewrite Hc, IHcs.
Qed.

Lemma forallb_conforms_parsed (ok : ObjectSchema -> Props -> bool) cs :
  (forall type schema props,
     schema_for type = Some schema ->
     ok schema (record_parse props) = ok schema props) ->
  forallb (node_conforms ok) (map parsed_node cs)
  = forallb (node_conforms ok) cs.
Proof.
  intros Hok. induction cs as [|c cs IH]; [done|].
  cbn [map forallb]. by rewrite node_conforms_parsed, IH.
Qed.

Lemma parsed_shape cs :
  Forall (fun c => node_conforms (fun _ _ => true) c = true) cs ->
  Forall (fun c => node_conforms (fun _ _ => true) c = true)
    (map parsed_node cs).
Proof.
  intros H. apply Forall_fmap. eapply Forall_impl; [exact H|].
  intros c Hc. cbn. by rewrite node_conforms_parsed.
Qed.

(** C3, the claim as stated fails: the button with the undeclared property
    [foo] has properties that do not satisfy the (closed) schema of its
    type, and the document is valid all the same. *)
Lemma unknown_key_document_is_valid :
  valid (validateUIAST Examples.extra_key_doc) = true
  /\ conforms satisfies Examples.extra_key_doc = false.
Proof. split; vm_compute; reflexivity. Qed.

(** C3, as amended: [validateUIAST(D).valid] is true exactly when [D]
    parses against the top-level schema, every node has a registry-known
    type, and every declared property a node carries is in the domain of
    its schema; keys a schema does not declare do not make a document
    invalid.  Whenever [valid] is false, [errors] is not empty. *)
Theorem validate_iff_conforms (D : UIAST) :
  valid (validateUIAST D) = conforms declared_ok D
  /\ (valid (validateUIAST D) = false -> errors (validateUIAST D) <> []).
Proof.
  unfold conforms. pose proof (parses_shape D) as Hshape.
  unfold validateUIAST, parses in *.
  destruct (UIASTSchema_safeParse D) as [issues|parsed] eqn:Hp.
  - split; [done|]. intros _. cbn [errors].
    revert Hp. unfold UIASTSchema_safeParse.
    destruct (_ ++ _ ++ _) as [|i l]; [done|]. intros [= <-]. done.
  - assert (Hc : components parsed = map parsed_node (components D)).
    { revert Hp. unfold UIASTSchema_safeParse.
      destruct (_ ++ _ ++ _); [|done]. by intros [= <-]. }
    cbn [valid errors andb]. rewrite Hc.
    specialize (Hshape eq_refl). apply parsed_shape in Hshape.
    rewrite <- (forallb_conforms_parsed declared_ok (components D))
      by apply declared_ok_record.
    pose proof (fold_indexed_errors
                  (fun comp i r =>
                     validateNode comp ("components[" +:+ pretty i +:+ "]") r)
                  (node_conforms declared_ok)
                  (map parsed_node (components D))) as H.
    unfold validate_components.
    destruct (H ltac:(eapply Forall_impl; [exact Hshape|];
                      intros c Hc' i r; by apply validateNode_errors)
                0 {| r_errors := []; r_warnings := [] |}) as [H1 H2].
    destruct (r_errors _) as [|e es] eqn:He.
    + split; [|done]. symmetry. by apply H1.
    + split; [|done]. symmetry. apply not_true_is_false. intros Hf.
      by specialize (H2 (conj eq_refl Hf)).
Qed.

(** C3 at the button with an undeclared property. *)
Lemma validate_iff_conforms_witness :
  valid (validateUIAST Examples.extra_key_doc)
  = conforms declared_ok Examples.extra_key_doc.
Proof. apply (validate_iff_conforms Examples.extra_key_doc). Defined.

(* ================================================================== *)
(** ** The generator *)
(* ================================================================== *)

Import Generator.

Lemma elem_of_set_add c x s : c ∈ set_add x s <-> c = x \/ c ∈ s.
Proof.
  unfold set_add. destruct (string_in x s) eqn:Hx.
  - apply string_in_spec in Hx. split; [by right|]. by intros [->|].
  - rewrite elem_of_app, list_elem_of_singleton. tauto.
Qed.








(** *** The import groups *)

Lemma sort_insert_perm x l : sort_insert x l ≡ₚ x :: l.
Proof.
  induction l as [|y l IH]; cbn [sort_insert]; [done|].
  destruct (unit_leb x y); [done|]. rewrite IH. apply perm_swap.
Qed.

Lemma sort_strings_perm l : sort_strings l ≡ₚ l.
Proof.
  induction l as [|x l IH]; cbn; [done|].
  rewrite sort_insert_perm. by rewrite IH.
Qed.

Lemma elem_of_line_names c g : c ∈ line_names g <-> c ∈ g.2.
Proof. unfold line_names. by rewrite sort_strings_perm. Qed.

Lemma imported_group_add c path comp groups :
  c ∈ imported_names (group_add path comp groups) <->
  c = comp \/ c ∈ imported_names groups.
Proof.
  unfold imported_names.
  induction groups as [|[p cs] groups IH]; cbn [group_add flat_map].
  - rewrite app_nil_r, elem_of_line_names. cbn. rewrite list_elem_of_singleton.
    rewrite elem_of_nil. tauto.
  - destruct (String.eqb path p); cbn [flat_map].
    + rewrite !elem_of_app, !elem_of_line_names. cbn [snd].
      rewrite elem_of_set_add. tauto.
    + rewrite !elem_of_app, IH. tauto.
Qed.

Lemma imported_fold c l : forall groups,
  c ∈ imported_names (fold_left import_step l groups) <->
  c ∈ imported_names groups \/ (c ∈ l /\ is_Some (JS.lookup IMPORT_MAP c)).
Proof.
  induction l as [|x l IH]; intros groups; cbn [fold_left].
  - rewrite elem_of_nil. tauto.
  - rewrite IH, elem_of_cons. unfold import_step.
    destruct (JS.lookup IMPORT_MAP x) as [path|] eqn:Hx.
    + rewrite imported_group_add. split.
      * intros [[->|?]|[? ?]]; [right; split; [by left|by rewrite Hx]|tauto|tauto].
      * intros [?|[[->|?] ?]]; tauto.
    + split; [tauto|]. intros [?|[[->|?] Hs]]; [tauto| |tauto].
      rewrite Hx in Hs. by destruct Hs.
Qed.

Lemma paths_ok_group_add path comp groups :
  JS.lookup IMPORT_MAP comp = Some path ->
  paths_ok groups -> paths_ok (group_add path comp groups).
Proof.
  intros Hc. unfold paths_ok.
  induction groups as [|[p cs] groups IH]; cbn [group_add]; intros H.
  - constructor; [|done]. cbn. by intros c ->%list_elem_of_singleton.
  - apply Forall_cons in H as [Hg H].
    destruct (String.eqb_spec path p) as [->|Hne].
    + constructor; [|done]. cbn [fst snd] in *.
      intros c [->|?]%elem_of_set_add; [done|by apply Hg].
    + constructor; [done|by apply IH].
Qed.

Lemma paths_ok_fold l : forall groups,
  paths_ok groups -> paths_ok (fold_left import_step l groups).
Proof.
  induction l as [|x l IH]; intros groups H; cbn [fold_left]; [done|].
  apply IH. unfold import_step.
  destruct (JS.lookup IMPORT_MAP x) eqn:Hx; [|done].
  by apply paths_ok_group_add.
Qed.












(** C2 (the code does not do this): a property the schema of the type does
    not declare should be a warning for the validator and be stripped by
    the generator without a generation error.  For a button with the extra
    property [foo], the validator does report a warning and no error, but
    the generator records the error of the failed strict parse and writes
    the property into the source. *)
Example unknown_key_reaches_generated_code :
  valid (validateUIAST Examples.extra_key_doc) = true
  /\ Validator.errors (validateUIAST Examples.extra_key_doc) = []
  /\ List.length (Validator.warnings (validateUIAST Examples.extra_key_doc)) = 1
  /\ exists r,
       generateCodeFromAST Examples.extra_key_doc = inr r
       /\ List.length (Generator.errors r) = 1
       /\ Generator.warnings r = []
       /\ includes ("<Button foo=" +:+ quoted "bar" +:+ " />") (code r) = true.
Proof.
  split_and!; [vm_compute; reflexivity..|].
  eexists. split; [vm_compute; reflexivity|].
  split_and!; vm_compute; reflexivity.
Qed.


(** C5 (the code does not do this): a modal without [onClose] should get
    [onClose={handleCloseModal}].  For a validated document whose modal
    has the title [Confirm onClose] and no [onClose], [isOpen] is bound to
    the generated state but no [onClose] property is written at all: the
    generator looks for the text [onClose] in the rendered properties and
    finds it in the title. *)
Example modal_without_close_handler :
  valid (validateUIAST Examples.modal_doc) = true
  /\ exists r,
       generateCodeFromAST Examples.modal_doc = inr r
       /\ includes "isOpen={modalOpen}" (code r) = true
       /\ includes "onClose={" (code r) = false
       /\ includes ("<Modal isOpen={modalOpen} title=" +:+ quoted "Confirm onClose"
                    +:+ " variant=" +:+ quoted "primary" +:+ " elevation={2} animation="
                    +:+ quoted "fade" +:+ " />") (code r) = true.
Proof.
  split; [vm_compute; reflexivity|].
  eexists. split; [vm_compute; reflexivity|].
  split_and!; vm_compute; reflexivity.
Qed.

(** *** Structural equality *)


Import Structural.

Lemma jvalue_eqb_eq a : forall b, jvalue_eqb a b = true -> a = b.
Proof.
  induction a as [|x|x|x|items IH|fields IH] using JValue_tree_ind;
    intros [|y|y|y|ys|ys]; cbn [jvalue_eqb]; try discriminate.
  - done.
  - intros H. f_equal. by apply Bool.eqb_prop.
  - intros H. f_equal. by apply Z.eqb_eq.
  - intros H. f_equal. by apply String.eqb_eq.
  - intros H. f_equal. revert ys H.
    induction IH as [|x xs Hx _ IHxs]; intros [|y ys]; try discriminate; [done|].
    intros [H1 H2]%andb_true_iff. f_equal; [by apply Hx|by apply IHxs].
  - intros H. f_equal. revert ys H.
    induction IH as [|[k x] xs Hx _ IHxs]; intros [|[k' y] ys];
      try discriminate; [done|].
    intros [[H0 H1]%andb_true_iff H2]%andb_true_iff.
    apply String.eqb_eq in H0 as ->. cbn in Hx.
    f_equal; [f_equal; by apply Hx|by apply IHxs].
Qed.

Lemma obj_get_entry k (o : Props) v : obj_get k o = Some v -> (k, v) ∈ o.
Proof.
  induction o as [|[k0 v0] o IH]; simpl; [discriminate|].
  destruct (String.eqb_spec k k0) as [->|Hne].
  - intros [= ->]. left.
  - intros H. right. by apply IH.
Qed.

Lemma obj_get_key k (o : Props) v : (k, v) ∈ o -> is_Some (obj_get k o).
Proof.
  induction o as [|[k0 v0] o IH]; simpl.
  - by intros ?%elem_of_nil.
  - intros [[= -> ->]|H]%elem_of_cons.
    + rewrite String.eqb_refl. by eexists.
    + destruct (String.eqb k k0); [by eexists|by apply IH].
Qed.

Lemma value_same_obj xs ys :
  value_same (JObj xs) (JObj ys)
  = forallb (fun kv => match obj_get kv.1 ys with
                       | Some y => value_same kv.2 y
                       | None => false
                       end) xs
    && forallb (fun kv => match obj_get kv.1 xs with
                          | Some _ => true
                          | None => false
                          end) ys.
Proof.
  cbn [value_same]. f_equal.
  induction xs as [|[k x] xs IH]; [done|]. cbn [forallb fst snd].
  by rewrite <- IH.
Qed.

Lemma props_same_lookups p q : props_same p q = true -> lookups_agree p q.
Proof.
  unfold props_same. rewrite value_same_obj.
  intros [H1 H2]%andb_true_iff k.
  rewrite forallb_forall in H1, H2.
  destruct (obj_get k p) as [v|] eqn:Hp.
  - apply obj_get_entry, list_elem_of_In, H1 in Hp. cbn [fst snd] in Hp.
    by destruct (obj_get k q).
  - destruct (obj_get k q) as [w|] eqn:Hq; [|done].
    apply obj_get_entry, list_elem_of_In, H2 in Hq. cbn [fst] in Hq.
    by rewrite Hp in Hq.
Qed.

Lemma value_same_atom a b :
  value_same a b = true ->
  match a with
  | JArr _ | JObj _ => True
  | _ => b = a
  end.
Proof.
  destruct a, b; cbn [value_same]; try done.
  - by intros ->%Bool.eqb_prop.
  - by intros ->%Z.eqb_eq.
  - by intros ->%String.eqb_eq.
Qed.

Lemma truthy_value_same a b :
  match a, b with
  | Some v, Some w => value_same v w = true
  | None, None => True
  | _, _ => False
  end ->
  JS.truthy_value a = JS.truthy_value b.
Proof.
  destruct a as [v|], b as [w|]; try done.
  intros H. pose proof (value_same_atom _ _ H) as Ha.
  destruct v; try by subst w.
  - by destruct w.
  - by destruct w.
Qed.

Lemma lookup_same_atom p q k v :
  lookups_agree p q -> obj_get k p = Some v ->
  match v with JArr _ | JObj _ => False | _ => True end ->
  obj_get k q = Some v.
Proof.
  intros H Hp Hv. specialize (H k). rewrite Hp in H.
  destruct (obj_get k q) as [w|]; [|done].
  apply value_same_atom in H. by destruct v; subst.
Qed.

Lemma parse_chart_item_same p a b :
  value_same a b = true -> (Zod.parse_chart_item p a).1 = [] ->
  Zod.parse_chart_item p b = Zod.parse_chart_item p a.
Proof.
  destruct a as [| | | | |fs]; try by (cbn; discriminate).
  destruct b as [| | | | |gs]; [done..|].
  intros H%props_same_lookups. unfold Zod.parse_chart_item.
  destruct (obj_get "label" fs) as [l|] eqn:Hl;
    [|by cbn; destruct (obj_get "value" fs) as [[]|]].
  destruct (obj_get "value" fs) as [v|] eqn:Hv;
    [|by destruct l].
  destruct l; try by (cbn; destruct v).
  destruct v; try by cbn.
  intros _.
  by rewrite (lookup_same_atom _ _ _ _ H Hl), (lookup_same_atom _ _ _ _ H Hv).
Qed.

Lemma parse_chart_items_same p xs : forall ys i,
  value_same (JArr xs) (JArr ys) = true ->
  (Zod.parse_chart_items p i xs).1 = [] ->
  Zod.parse_chart_items p i ys = Zod.parse_chart_items p i xs.
Proof.
  induction xs as [|x xs IH]; intros [|y ys] i; cbn [value_same];
    try discriminate; [done|].
  intros [Hx Hxs]%andb_true_iff. cbn [Zod.parse_chart_items].
  destruct (Zod.parse_chart_item (p ++ [pretty i]) x) as [is1 o1] eqn:E1.
  destruct (Zod.parse_chart_items p (S i) xs) as [is2 o2] eqn:E2.
  cbn [fst]. intros [-> ->]%app_eq_nil.
  rewrite (parse_chart_item_same _ _ _ Hx) by by rewrite E1.
  rewrite E1. rewrite (IH ys (S i) Hxs) by by rewrite E2.
  by rewrite E2.
Qed.

Lemma parse_type_same ty p a b :
  value_same a b = true -> (Zod.parse_type ty p a).1 = [] ->
  Zod.parse_type ty p b = Zod.parse_type ty p a.
Proof.
  intros H Hok. pose proof (value_same_atom _ _ H) as Ha.
  destruct a as [| | | |xs|fs]; try by subst b.
  - destruct ty; try by (cbn in Hok; discriminate).
    destruct b as [| | | |ys|]; try done.
    cbn [Zod.parse_type] in *.
    destruct (Zod.parse_chart_items p 0 xs) as [iss out] eqn:E.
    cbn [fst] in Hok. subst iss.
    rewrite (parse_chart_items_same _ _ _ _ H) by by rewrite E.
    by rewrite E.
  - destruct ty; cbn in Hok; discriminate.
Qed.

Lemma parse_fields_same shape p q :
  lookups_agree p q -> (Zod.parse_fields shape p).1 = [] ->
  Zod.parse_fields shape q = Zod.parse_fields shape p.
Proof.
  intros H. induction shape as [|f shape IH]; [done|].
  cbn [Zod.parse_fields].
  destruct (Zod.parse_fields shape p) as [is2 out2] eqn:E2.
  pose proof (H (Zod.fname f)) as Hf.
  destruct (obj_get (Zod.fname f) p) as [v|] eqn:Hv.
  - destruct (obj_get (Zod.fname f) q) as [w|]; [|done].
    destruct (Zod.parse_type (Zod.ftype f) [Zod.fname f] v) as [is1 o1] eqn:E1.
    cbn [fst]. intros [-> ->]%app_eq_nil.
    rewrite IH by done.
    rewrite (parse_type_same _ _ _ _ Hf) by by rewrite E1.
    by rewrite E1.
  - destruct (obj_get (Zod.fname f) q) as [w|]; [done|].
    destruct (Zod.fdefault f); cbn [fst]; intros ->; by rewrite IH.
Qed.

Lemma filter_nil_all {A} (P : A -> Prop) `{!forall x, Decision (P x)}
    (l : list A) :
  filter P l = [] <-> forall x, x ∈ l -> ~ P x.
Proof.
  split.
  - intros Hnil x Hx HP.
    assert (Hin : x ∈ filter P l) by by apply list_elem_of_filter.
    rewrite Hnil in Hin. by apply elem_of_nil in Hin.
  - intros Hall. destruct (filter P l) as [|x l'] eqn:E; [done|].
    assert (Hin : x ∈ filter P l) by (rewrite E; left).
    apply list_elem_of_filter in Hin as [HP Hx]. by destruct (Hall x Hx).
Qed.

Lemma elem_of_keys_get k (o : Props) : k ∈ keys o <-> is_Some (obj_get k o).
Proof.
  unfold keys. induction o as [|[k0 v0] o IH]; cbn.
  - split; [by intros ?%elem_of_nil|by intros [? ?]].
  - rewrite elem_of_cons, IH.
    destruct (String.eqb_spec k k0) as [->|Hne].
    + split; [by eexists|by left].
    + split; [by intros [?|?]|by right].
Qed.

Lemma extra_keys_same shape p q :
  lookups_agree p q -> Zod.extra_keys shape p = [] ->
  Zod.extra_keys shape q = [].
Proof.
  intros H. unfold Zod.extra_keys. rewrite !filter_nil_all.
  intros Hp k Hk. apply Hp.
  rewrite elem_of_keys_entries, elem_of_keys_get in Hk.
  destruct Hk as [w Hw].
  rewrite elem_of_keys_entries, elem_of_keys_get.
  specialize (H k). rewrite Hw in H.
  destruct (obj_get k p); [by eexists|done].
Qed.

Lemma safeParse_same shape p q :
  lookups_agree p q -> Conformance.satisfies shape p = true ->
  Zod.safeParse shape q = Zod.safeParse shape p.
Proof.
  intros H. unfold Conformance.satisfies, Zod.safeParse.
  destruct (Zod.parse_fields shape p) as [iss out] eqn:E.
  destruct (Zod.extra_keys shape p) as [|k ks] eqn:Ex.
  - destruct iss as [|i iss]; [|done]. intros _.
    rewrite (parse_fields_same _ _ _ H) by by rewrite E.
    rewrite E. by rewrite (extra_keys_same _ _ _ H Ex).
  - by destruct iss.
Qed.

Lemma allowed_has_schema type :
  string_in type ALLOWED_COMPONENT_TYPES = true -> is_Some (schema_for type).
Proof.
  intros H. apply string_in_spec in H. unfold ALLOWED_COMPONENT_TYPES in H.
  cbn in H.
  repeat (apply elem_of_cons in H as [->|H]; [by eexists|]).
  by apply elem_of_nil in H.
Qed.

Lemma validateAndClean_same type p q :
  props_same p q = true ->
  match schema_for type with
  | Some schema => Conformance.satisfies schema p
  | None => true
  end = true ->
  string_in type ALLOWED_COMPONENT_TYPES = true ->
  validateAndClean type q = validateAndClean type p.
Proof.
  intros H%props_same_lookups Hs Ht.
  destruct (allowed_has_schema type Ht) as [schema E]. rewrite E in Hs.
  unfold validateAndClean, validateNodeProps. rewrite E.
  rewrite (safeParse_same _ _ _ H Hs).
  unfold Conformance.satisfies in Hs.
  by destruct (Zod.safeParse schema p).
Qed.

Lemma scan_flags_same type p q f :
  props_same p q = true -> scan_flags type p f = scan_flags type q f.
Proof.
  intros H%props_same_lookups. unfold scan_flags.
  by rewrite (truthy_value_same _ _ (H "collapsible")),
             (truthy_value_same _ _ (H "hasDropdown")).
Qed.

Lemma scan_node_same a : forall b,
  node_same a b = true -> forall f, scan_node a f = scan_node b f.
Proof.
  induction a as [|s|type props children IH] using UINode_tree_ind;
    intros [|t|type' props' children']; cbn [node_same]; try discriminate.
  - done.
  - by intros ->%String.eqb_eq.
  - intros [[H0 H1]%andb_true_iff H2]%andb_true_iff f.
    apply String.eqb_eq in H0 as <-. cbn [scan_node].
    rewrite (scan_flags_same _ _ _ _ H1).
    generalize (Exn.ret (scan_flags type props' f)). revert children' H2.
    induction IH as [|x xs Hx _ IHxs]; intros [|y ys]; try discriminate;
      [done|].
    intros [Hxy Hrest]%andb_true_iff acc. cbn [fold_left].
    rewrite (IHxs ys Hrest). f_equal.
    destruct acc as [e|f']; [done|]. cbn [Exn.bind]. by apply Hx.
Qed.

Lemma scanForState_same a : forall b,
  nodes_same a b = true -> forall f, scanForState a f = scanForState b f.
Proof.
  unfold scanForState. intros b H f. generalize (Exn.ret f). revert b H.
  induction a as [|x a IH]; intros [|y b]; cbn [nodes_same];
    try discriminate; [done|].
  intros [Hxy Hrest]%andb_true_iff acc. cbn [fold_left].
  rewrite (IH b Hrest). f_equal.
  destruct acc as [e|f']; [done|]. cbn [Exn.bind]. by apply scan_node_same.
Qed.

Lemma renderNode_same a : forall b,
  node_same a b = true -> strict_node a = true ->
  forall indent st, renderNode a indent st = renderNode b indent st.
Proof.
  induction a as [|s|type props children IH] using UINode_tree_ind;
    intros [|t|type' props' children']; cbn [node_same]; try discriminate.
  - done.
  - by intros ->%String.eqb_eq.
  - intros [[H0 H1]%andb_true_iff H2]%andb_true_iff.
    apply String.eqb_eq in H0 as <-. cbn [strict_node].
    intros [Hs Hch]%andb_true_iff indent st. cbn [renderNode].
    destruct (string_in type ALLOWED_COMPONENT_TYPES) eqn:Ht; cbn [negb];
      [|done].
    rewrite (validateAndClean_same _ _ _ H1 Hs Ht).
    destruct (validateAndClean type props) as [[sanitized pe] pw].
    assert (Hfold : forall acc : list string * GenState,
              fold_left
                (fun (acc : list string * GenState) child =>
                   let '(s1, st') := renderNode child (indent + 1) acc.2 in
                   (acc.1 ++ [s1], st'))
                children acc
              = fold_left
                  (fun (acc : list string * GenState) child =>
                     let '(s1, st') := renderNode child (indent + 1) acc.2 in
                     (acc.1 ++ [s1], st'))
                  children' acc).
    { clear -IH H2 Hch. revert children' H2 Hch.
      induction IH as [|x xs Hx _ IHxs]; intros [|y ys]; try discriminate;
        [done|].
      intros [Hxy Hrest]%andb_true_iff. cbn [forallb].
      intros [Hsx Hsxs]%andb_true_iff acc. cbn [fold_left].
      rewrite (Hx y Hxy Hsx). by apply IHxs. }
    by rewrite Hfold.
Qed.

Lemma render_all_same a : forall b,
  nodes_same a b = true -> forallb strict_node a = true ->
  forall st, render_all a st = render_all b st.
Proof.
  unfold render_all. intros b H Hs st.
  generalize (@nil string, st). revert b H Hs.
  induction a as [|x a IH]; intros [|y b]; cbn [nodes_same];
    try discriminate; [done|].
  intros [Hxy Hrest]%andb_true_iff. cbn [forallb].
  intros [Hsx Hsa]%andb_true_iff acc. cbn [fold_left].
  rewrite (renderNode_same x y Hxy Hsx). by apply IH.
Qed.

(** C10, the claim as stated fails: where the strict parse of the
    properties of a node fails, the generator writes the properties as
    the node holds them, in the order their keys were created.  Two
    documents that are structurally equal, a button with the same two
    properties in two orders, get different code when the variant is none
    of the button; and when the two properties are not declared by the
    schema, both documents validate and get different code and different
    errors. *)
Lemma key_order_reaches_generated_code :
  ast_same Examples.bogus_doc Examples.bogus_doc_reordered = true
  /\ (exists r1 r2,
        generateCodeFromAST Examples.bogus_doc = inr r1
        /\ generateCodeFromAST Examples.bogus_doc_reordered = inr r2
        /\ code r1
           = Examples.button_page
               ("<Button variant=" +:+ quoted "bogus" +:+ " size="
                +:+ quoted "lg" +:+ " />")
        /\ code r2
           = Examples.button_page
               ("<Button size=" +:+ quoted "lg" +:+ " variant="
                +:+ quoted "bogus" +:+ " />"))
  /\ ast_same Examples.extras_doc Examples.extras_doc_reordered = true
  /\ valid (validateUIAST Examples.extras_doc) = true
  /\ valid (validateUIAST Examples.extras_doc_reordered) = true
  /\ (exists r1 r2,
        generateCodeFromAST Examples.extras_doc = inr r1
        /\ generateCodeFromAST Examples.extras_doc_reordered = inr r2
        /\ code r1
           = Examples.button_page
               ("<Button foo=" +:+ quoted "a" +:+ " bar=" +:+ quoted "b"
                +:+ " />")
        /\ code r2
           = Examples.button_page
               ("<Button bar=" +:+ quoted "b" +:+ " foo=" +:+ quoted "a"
                +:+ " />")
        /\ errors r1 = [": Unrecognized key(s) in object: 'foo', 'bar'"]
        /\ errors r2 = [": Unrecognized key(s) in object: 'bar', 'foo'"]).
Proof.
  split_and!; try (vm_compute; reflexivity).
  - eexists _, _. split_and!; vm_compute; reflexivity.
  - eexists _, _. split_and!; vm_compute; reflexivity.
Qed.

(** C10, as amended: the result of [generateCodeFromAST] is a function of
    the document, and it does not depend on the order in which the keys
    of an object were created as long as the properties of every node of
    a registry type pass the strict parse of the schema of the type: on
    two structurally equal documents of that kind, two calls both throw
    the same error or both return, with the same [code], [errors],
    [warnings], [usedComponents] and [usedIcons]. *)
Theorem generation_is_deterministic (D1 D2 : UIAST) :
  ast_same D1 D2 = true -> strict D1 = true ->
  generateCodeFromAST D1 = generateCodeFromAST D2.
Proof.
  unfold ast_same, strict. intros [_ H]%andb_true_iff Hs.
  unfold generateCodeFromAST.
  rewrite (scanForState_same _ _ H).
  by rewrite (render_all_same _ _ H Hs).
Qed.

(** C10 at a button with a variant and a size, and the same button with
    the size created first. *)
Lemma generation_is_deterministic_witness :
  generateCodeFromAST Examples.sized_doc
  = generateCodeFromAST Examples.sized_doc_reordered.
Proof.
  apply (generation_is_deterministic Examples.sized_doc
           Examples.sized_doc_reordered); vm_compute; reflexivity.
Defined.

(* ================================================================== *)
(** * Further properties *)
(* ================================================================== *)

Import Paths Closed.

(* ================================================================== *)
(** ** More of the patch engine *)
(* ================================================================== *)

(** *** Reading a written path back *)

Lemma digit_of_char (d : N) :
  (d < 10)%N ->
  is_digit (pretty_N_char d) = true
  /\ digit_value (pretty_N_char d) = N.to_nat d.
Proof.
  intros H.
  assert (d = 0 \/ d = 1 \/ d = 2 \/ d = 3 \/ d = 4 \/ d = 5 \/ d = 6
          \/ d = 7 \/ d = 8 \/ d = 9)%N as Hd by lia.
  repeat (destruct Hd as [->|Hd]; [by vm_compute|]). subst. by vm_compute.
Qed.

Lemma read_digits_pretty_go (x : N) : forall s rest acc len,
  exists k,
    read_digits (pretty_N_go x s +:+ rest) acc len
    = read_digits (s +:+ rest) (acc * 10 ^ k + N.to_nat x) (len + k)
    /\ String.length (pretty_N_go x s) = k + String.length s
    /\ ((0 < x)%N -> 0 < k).
Proof.
  induction (N.lt_wf_0 x) as [x _ IH]; intros s rest acc len.
  destruct (decide (x = 0%N)) as [->|Hx].
  - exists 0. rewrite pretty_N_go_0. cbn. rewrite Nat.mul_1_r, !Nat.add_0_r.
    split_and!; [done|done|lia].
  - rewrite pretty_N_go_step by lia.
    destruct (IH (x `div` 10)%N ltac:(apply N.div_lt; lia)
                (String (pretty_N_char (x `mod` 10)) s) rest acc len)
      as (k & Hk & Hlen & _).
    exists (S k). rewrite Hk, Hlen.
    destruct (digit_of_char (x `mod` 10)%N ltac:(apply N.mod_lt; lia))
      as [Hd Hv].
    change (String ?c s +:+ rest) with (String c (s +:+ rest)).
    cbn [read_digits String.length]. rewrite Hd, Hv.
    split_and!; [|lia|lia].
    f_equal; [|lia].
    assert (Hx10 : N.to_nat x
                   = 10 * N.to_nat (x `div` 10) + N.to_nat (x `mod` 10)).
    { rewrite (N.div_mod x 10) at 1 by lia.
      rewrite N2Nat.inj_add, N2Nat.inj_mul. reflexivity. }
    rewrite Hx10. cbn [Nat.pow]. nia.
Qed.

Lemma read_digits_pretty (n : nat) (rest : string) :
  exists k,
    read_digits (pretty n +:+ rest) 0 0 = read_digits rest n k
    /\ String.length (pretty n) = k /\ 0 < k.
Proof.
  unfold pretty, pretty_nat, pretty, pretty_N.
  destruct (decide (N.of_nat n = 0%N)) as [H0|H0].
  - exists 1. assert (n = 0) as -> by lia. cbn. split_and!; [done|done|lia].
  - destruct (read_digits_pretty_go (N.of_nat n) EmptyString rest 0 0)
      as (k & Hk & Hlen & Hpos).
    exists k. rewrite Hk. cbn in Hlen |- *. rewrite Nat2N.id.
    split_and!; [done|lia|apply Hpos; lia].
Qed.

Lemma match_segment_written (n : nat) (rest : string) :
  match_segment ("children[" +:+ pretty n +:+ "]" +:+ rest)
  = Some (n, 9 + String.length (pretty n) + 1).
Proof.
  unfold match_segment.
  change (strip_prefix "children[" ("children[" +:+ pretty n +:+ "]" +:+ rest))
    with (Some (pretty n +:+ "]" +:+ rest)).
  destruct (read_digits_pretty n ("]" +:+ rest)) as (k & -> & -> & Hk).
  rewrite string_app_cons. cbn [read_digits].
  change (is_digit "]") with false. cbv iota.
  destruct k; [lia|]. reflexivity.
Qed.

Lemma concat_cons (f : nat -> string) n ns :
  String.concat EmptyString (map f (n :: ns))
  = f n +:+ String.concat EmptyString (map f ns).
Proof.
  cbn [map String.concat]. destruct (map f ns) eqn:H.
  - cbn [String.concat]. by rewrite string_app_nil_r.
  - reflexivity.
Qed.

Lemma scan_path_written ns :
  scan_path
    (String.concat EmptyString
       (map (fun k => ".children[" +:+ pretty k +:+ "]") ns)) 0
  = ns.
Proof.
  induction ns as [|n ns IH]; [reflexivity|].
  rewrite concat_cons.
  set (R := String.concat EmptyString _) in *.
  change (".children[" +:+ pretty n +:+ "]")
    with (String "." ("children[" +:+ pretty n +:+ "]")).
  rewrite string_app_cons. cbn [scan_path].
  change (match_segment (String "." ?s)) with (@None (nat * nat)). cbv iota.
  rewrite !string_app_assoc.
  change ("children[" +:+ pretty n +:+ "]" +:+ R)
    with (String "c" ("hildren[" +:+ pretty n +:+ "]" +:+ R)).
  cbn [scan_path].
  change (String "c" ("hildren[" +:+ pretty n +:+ "]" +:+ R))
    with ("children[" +:+ pretty n +:+ "]" +:+ R).
  rewrite match_segment_written. f_equal.
  replace (9 + String.length (pretty n) + 1 - 1)
    with (String.length ("hildren[" +:+ pretty n +:+ "]")).
  - rewrite <- (scan_path_skip ("hildren[" +:+ pretty n +:+ "]") R) in IH.
    rewrite !string_app_assoc in IH. exact IH.
  - rewrite !string_length_app. cbn [String.length]. lia.
Qed.

Lemma parsePath_written (indices : list nat) :
  parsePath (path_of indices) = indices.
Proof.
  unfold parsePath, path_of.
  change ("root" +:+ ?s) with (String "r" (String "o" (String "o" (String "t" s)))).
  cbn [scan_path].
  repeat (change (match_segment (String ?c ?s)) with (@None (nat * nat)) at 1;
          cbv iota; cbn [scan_path]).
  apply scan_path_written.
Qed.

(** X1: [parsePath] reads back every path written in the form the patches
    use: for every list of indices, none above 2^53, the path [root]
    followed by one [.children[k]] per index, each [k] in decimal, parses
    to exactly that list. *)
Theorem parsePath_path_of (indices : list nat) :
  Forall (fun k => (Z.of_nat k <= 2 ^ 53)%Z) indices ->
  parsePath (path_of indices) = indices.
Proof. intros _. apply parsePath_written. Qed.

(** X1 at the path [root.children[0].children[12]]. *)
Lemma parsePath_path_of_witness :
  parsePath "root.children[0].children[12]" = [0; 12].
Proof.
  apply (parsePath_path_of [0; 12]).
  repeat constructor; vm_compute; discriminate.
Defined.

Lemma navigateToTarget_written D ns i :
  navigateToTarget D (path_of (ns ++ [i]))
  = Exn.bind (descend (components D) ns 0)
      (fun cs => Exn.ret {| parentPath := ns; parentChildren := cs; index := i |}).
Proof.
  unfold navigateToTarget. rewrite parsePath_written.
  destruct (ns ++ [i]) as [|s0 steps] eqn:E.
  - by destruct ns.
  - rewrite <- E. rewrite removelast_last, last_last. reflexivity.
Qed.

Lemma applySinglePatch_shape D p D' :
  applySinglePatch D p = inr D' -> layout D' = layout D /\ theme D' = theme D.
Proof.
  unfold applySinglePatch.
  destruct (String.eqb (action p) "add").
  { unfold addNode. destruct (parsePath (targetPath p)).
    - unfold Exn.ret. intros H; inversion H. done.
    - destruct (navigateToTarget D (targetPath p)); [discriminate|].
      unfold Exn.bind, Exn.ret. intros H; inversion H. done. }
  destruct (String.eqb (action p) "update").
  { unfold updateNode.
    destruct (navigateToTarget D (targetPath p)) as [|tg]; [discriminate|].
    unfold Exn.bind.
    destruct (parentChildren tg !! index tg) as [[| |t q ch]|]; try discriminate.
    destruct (truthy (component p)).
    - unfold Exn.ret. intros H; inversion H. done.
    - destruct (props p); unfold Exn.ret; intros H; inversion H; done. }
  destruct (String.eqb (action p) "remove"); [|discriminate].
  unfold removeNode.
  destruct (navigateToTarget D (targetPath p)) as [|tg]; [discriminate|].
  unfold Exn.bind. destruct (_ <=? _)%nat; [discriminate|].
  unfold Exn.ret. intros H; inversion H. done.
Qed.

Lemma run_patches_shape ps : forall st,
  layout (current (run_patches st ps)) = layout (current st)
  /\ theme (current (run_patches st ps)) = theme (current st).
Proof.
  induction ps as [|p ps IH]; intros st; [done|].
  rewrite run_patches_cons.
  destruct (IH (patch_step st p)) as [-> ->].
  unfold patch_step.
  destruct (applySinglePatch (current st) p) as [msg|next] eqn:E; [done|].
  cbn [current]. by apply applySinglePatch_shape in E.
Qed.

(** X2: [applyPatches] never changes [layout] or [theme], whatever the
    patches are and whether they apply or fail. *)
Theorem applyPatches_keeps_layout_and_theme (D : UIAST) (ps : list Patch) :
  layout (ast (applyPatches D ps)) = layout D
  /\ theme (ast (applyPatches D ps)) = theme D.
Proof. unfold applyPatches. cbn [ast]. apply (run_patches_shape ps). Qed.

Lemma run_patches_from ps : forall st,
  let r := run_patches {| current := current st; errs := []; appliedCount := 0 |} ps in
  run_patches st ps
  = {| current := current r; errs := errs st ++ errs r;
       appliedCount := appliedCount st + appliedCount r |}.
Proof.
  induction ps as [|p ps IH]; intros st.
  - cbn. rewrite app_nil_r, Nat.add_0_r. by destruct st.
  - cbn zeta. rewrite !run_patches_cons.
    rewrite (IH (patch_step st p)).
    rewrite (IH (patch_step {| current := current st; errs := []; appliedCount := 0 |} p)).
    unfold patch_step. cbn [current errs appliedCount].
    destruct (applySinglePatch (current st) p) as [msg|next];
      cbn [current errs appliedCount]; f_equal.
    + by rewrite <- app_assoc.
    + lia.
Qed.

Lemma run_patches_app st ps qs :
  run_patches st (ps ++ qs) = run_patches (run_patches st ps) qs.
Proof. apply fold_left_app. Qed.

(** X3: applying a batch in two parts is applying it at once: the second
    part starts from the document the first part returns, the errors are
    those of the first part followed by those of the second, the counts
    add up, and the whole succeeds exactly when both parts do. *)
Theorem applyPatches_app (D : UIAST) (ps qs : list Patch) :
  let r1 := applyPatches D ps in
  let r2 := applyPatches (ast r1) qs in
  let r := applyPatches D (ps ++ qs) in
  ast r = ast r2
  /\ PatchEngine.errors r = PatchEngine.errors r1 ++ PatchEngine.errors r2
  /\ appliedPatches r = appliedPatches r1 + appliedPatches r2
  /\ PatchEngine.success r = PatchEngine.success r1 && PatchEngine.success r2.
Proof.
  cbn zeta. unfold applyPatches. cbn [ast PatchEngine.errors appliedPatches PatchEngine.success].
  rewrite run_patches_app.
  set (s1 := run_patches _ ps).
  rewrite (run_patches_from qs s1). cbn zeta.
  set (s2 := run_patches _ qs). cbn [current errs appliedCount].
  split_and!; try done.
  destruct (errs s1), (errs s2); done.
Qed.

Lemma filter_nodes cs :
  Forall (fun c => is_string c = false) cs ->
  filter (fun c => is_string c = false) cs = cs.
Proof.
  induction 1 as [|c cs Hc _ IH]; [done|].
  rewrite filter_cons. destruct (decide (is_string c = false)); [|done].
  by rewrite IH.
Qed.

Lemma components_are_nodes_strings D :
  components_are_nodes D -> Forall (fun c => is_string c = false) (components D).
Proof.
  unfold components_are_nodes. intros H. eapply Forall_impl; [exact H|].
  intros c (t & p & ch & ->). done.
Qed.

Lemma navigateToTarget_top D i :
  navigateToTarget D (path_of [i])
  = inr {| parentPath := []; parentChildren := components D; index := i |}.
Proof. apply (navigateToTarget_written D [] i). Qed.

(** X4: at the top level, [add] and [remove] are inverse.  In a document
    whose components are all nodes, adding a node at [root.children[i]]
    returns, puts the node right after position [i] (at the end when [i]
    is past the end), and removing at the position it went to gives the
    original document back. *)
Theorem add_then_remove_top_level (D : UIAST) (i : nat) (c : UINode) :
  components_are_nodes D ->
  is_string c = false ->
  let j := Nat.min (i + 1) (List.length (components D)) in
  exists D1,
    addNode D (path_of [i]) c = inr D1
    /\ components D1 = take j (components D) ++ c :: drop j (components D)
    /\ removeNode D1 (path_of [j]) = inr D.
Proof.
  intros HD Hc j. apply components_are_nodes_strings in HD.
  set (cs := components D) in *.
  assert (Hadd : addNode D (path_of [i]) c
                 = inr (with_components D (take j cs ++ c :: drop j cs))).
  { unfold addNode. rewrite parsePath_written, navigateToTarget_top.
    unfold Exn.bind, Exn.ret. cbn [parentChildren index]. fold cs.
    unfold mutate_parent. cbn [parentPath set_children].
    f_equal. unfold with_components. cbn [layout theme components]. f_equal.
    destruct (Nat.leb_spec (List.length cs) i) as [Hle|Hlt].
    - subst j. rewrite Nat.min_r by lia.
      rewrite firstn_all, drop_all.
      apply filter_nodes. apply Forall_app. split; [done|]. by apply Forall_singleton.
    - subst j. rewrite Nat.min_l by lia. unfold splice_in.
      apply filter_nodes. apply Forall_app. split; [by apply Forall_take|].
      apply Forall_cons. split; [done|]. by apply Forall_drop. }
  eexists. split; [exact Hadd|]. split; [reflexivity|].
  unfold removeNode. rewrite navigateToTarget_top.
  unfold Exn.bind, Exn.ret. cbn [parentChildren index components with_components].
  assert (Hj : j <= List.length cs) by (subst j; lia).
  assert (Hlen : List.length (take j cs) = j) by (rewrite length_take; lia).
  destruct (Nat.leb_spec (List.length (take j cs ++ c :: drop j cs)) j) as [Hle|_].
  { rewrite length_app in Hle. cbn [List.length] in Hle. lia. }
  f_equal. unfold mutate_parent. cbn [parentPath set_children].
  unfold with_components. cbn [layout theme components].
  replace (delete j (take j cs ++ c :: drop j cs)) with cs.
  - subst cs. by destruct D.
  - rewrite <- Hlen at 1. rewrite delete_middle. by rewrite take_drop.
Qed.

Lemma add_then_remove_top_level_witness :
  exists D1,
    addNode Examples.nested_doc (path_of [0]) Examples.button = inr D1
    /\ components D1
       = take 1 (components Examples.nested_doc)
         ++ Examples.button :: drop 1 (components Examples.nested_doc)
    /\ removeNode D1 (path_of [1]) = inr Examples.nested_doc.
Proof.
  apply (add_then_remove_top_level Examples.nested_doc 0 Examples.button).
  - unfold components_are_nodes. cbn. repeat constructor; eauto.
  - reflexivity.
Defined.

(** X5: an update that carries a component replaces the target.  When it
    applies, the same path resolves in the new document to the same parent
    and index, the parent's children are the old ones with the component
    at that index, and the payload [props], if any, is not looked at. *)
Theorem update_replaces_target (D D' : UIAST) (T : string) (c : UINode)
    (ps : option Props) :
  truthy c = true ->
  updateNode D T c ps = inr D' ->
  exists tg tg',
    navigateToTarget D T = inr tg
    /\ navigateToTarget D' T = inr tg'
    /\ parentPath tg' = parentPath tg /\ index tg' = index tg
    /\ parentChildren tg' = <[index tg := c]> (parentChildren tg)
    /\ parentChildren tg' !! index tg' = Some c.
Proof.
  intros Hc. unfold updateNode.
  destruct (navigateToTarget D T) as [msg|tg] eqn:Hnav; [discriminate|].
  unfold Exn.bind.
  destruct (parentChildren tg !! index tg) as [[| |t p ch]|] eqn:Hidx;
    try discriminate.
  rewrite Hc. unfold Exn.ret. intros H; inversion H; subst D'; clear H.
  exists tg. eexists. split; [done|].
  split; [by apply navigateToTarget_mutated|].
  cbn [parentPath index parentChildren]. split_and!; try done.
  apply list_lookup_insert_eq. by eapply lookup_lt_Some.
Qed.

Lemma update_replaces_target_witness :
  exists tg tg',
    navigateToTarget Examples.nested_doc "root.children[0].children[0]" = inr tg
    /\ navigateToTarget
         (with_components Examples.nested_doc
            [Elem "Card" [] [Examples.heading]; Examples.button])
         "root.children[0].children[0]" = inr tg'
    /\ parentPath tg' = parentPath tg /\ index tg' = index tg
    /\ parentChildren tg' = <[index tg := Examples.heading]> (parentChildren tg)
    /\ parentChildren tg' !! index tg' = Some Examples.heading.
Proof.
  apply (update_replaces_target Examples.nested_doc _
           "root.children[0].children[0]" Examples.heading None).
  - reflexivity.
  - vm_compute. reflexivity.
Defined.

Section MergeFacts.
Context {V : Type}.
Implicit Types (o dst src a b : list (string * V)) (k : string).

Lemma obj_get_elem_of k o v : obj_get k o = Some v -> (k, v) ∈ o.
Proof.
  induction o as [|[k0 v0] o IH]; simpl; [discriminate|].
  destruct (String.eqb_spec k k0) as [->|Hne].
  - intros [= ->]. left.
  - intros H. right. by apply IH.
Qed.

Lemma obj_get_None k o : obj_get k o = None -> k ∉ keys o.
Proof.
  unfold keys. induction o as [|[k0 v0] o IH]; simpl.
  - intros _. apply not_elem_of_nil.
  - destruct (String.eqb_spec k k0) as [->|Hne]; [discriminate|].
    intros H. apply not_elem_of_cons. split; [done|]. by apply IH.
Qed.

Lemma obj_assign_lookup dst src k :
  NoDup (keys src) ->
  obj_get k (obj_assign dst src)
  = match obj_get k src with Some v => Some v | None => obj_get k dst end.
Proof.
  intros Hnd. destruct (obj_get k src) as [v|] eqn:E.
  - apply obj_assign_get; [done|]. by apply obj_get_elem_of.
  - apply obj_assign_other. by apply obj_get_None.
Qed.

Lemma obj_spread_lookup a b k :
  NoDup (keys a) -> NoDup (keys b) ->
  obj_get k (obj_spread a b)
  = match obj_get k b with Some v => Some v | None => obj_get k a end.
Proof.
  intros Ha Hb. unfold obj_spread.
  rewrite obj_assign_lookup by done. destruct (obj_get k b); [done|].
  rewrite obj_assign_lookup by done. by destruct (obj_get k a).
Qed.
End MergeFacts.

(** X6: an update by properties applies at every path that resolves to a
    node, keeps the node's type and children, and leaves it with the
    merged properties: a key the patch supplies has the supplied value,
    every other key keeps the value the node had. *)
Theorem update_merges_props (D : UIAST) (T : string) (P : Props)
    (tg : Target) (t : string) (p : Props) (ch : list UINode) :
  navigateToTarget D T = inr tg ->
  parentChildren tg !! index tg = Some (Elem t p ch) ->
  obj_wf p -> obj_wf P ->
  exists D' tg' q,
    updateNode D T Undefined (Some P) = inr D'
    /\ navigateToTarget D' T = inr tg'
    /\ parentChildren tg' !! index tg' = Some (Elem t q ch)
    /\ obj_wf q
    /\ forall k, obj_get k q
                 = match obj_get k P with
                   | Some v => Some v
                   | None => obj_get k p
                   end.
Proof.
  intros Hnav Hidx Hp HP.
  eexists _, _, (obj_spread p P). unfold updateNode.
  rewrite Hnav. unfold Exn.bind. rewrite Hidx. cbn [truthy]. unfold Exn.ret.
  split; [reflexivity|].
  split; [by apply navigateToTarget_mutated|].
  cbn [parentChildren index].
  split; [apply list_lookup_insert_eq; by eapply lookup_lt_Some|].
  split; [apply obj_spread_wf|].
  intros k. by apply obj_spread_lookup.
Qed.

Lemma update_merges_props_witness :
  exists D' tg' q,
    updateNode Examples.nested_doc "root.children[1]" Undefined
      (Some [("size", JStr "lg")]) = inr D'
    /\ navigateToTarget D' "root.children[1]" = inr tg'
    /\ parentChildren tg' !! index tg'
       = Some (Elem "Button" q [Text "Click me"])
    /\ obj_wf q
    /\ forall k, obj_get k q
                 = match obj_get k [("size", JStr "lg")] with
                   | Some v => Some v
                   | None => obj_get k [("variant", JStr "primary")]
                   end.
Proof.
  apply (update_merges_props Examples.nested_doc "root.children[1]"
           [("size", JStr "lg")]
           {| parentPath := []; parentChildren := components Examples.nested_doc;
              index := 1 |}).
  - vm_compute. reflexivity.
  - reflexivity.
  - unfold obj_wf. cbn. apply NoDup_singleton.
  - unfold obj_wf. cbn. apply NoDup_singleton.
Defined.


(* ================================================================== *)
(** ** More of the validator *)
(* ================================================================== *)

Lemma report_issues_warnings path type issues : forall r,
  r_warnings (fold_left (report_issue path type) issues r) = [] <->
  r_warnings r = [] /\ Forall (fun i => Zod.code i <> unrecognized_keys) issues.
Proof.
  induction issues as [|i issues IH]; intros r; cbn [fold_left].
  - split; [intros H; split; [done|constructor]|tauto].
  - rewrite IH. unfold report_issue. rewrite Forall_cons.
    destruct (Zod.code i); cbn; split;
      try (intros [H ?]; by apply app_eq_nil in H as [_ ?]);
      try (by intros [_ [? _]]); try tauto.
    all: intros [? ?]; split_and!; done.
Qed.

Lemma validate_props_warnings schema props path type r :
  r_warnings match safeParse schema props with
             | inr _ => r
             | inl issues => fold_left (report_issue path type) issues r
             end = [] <->
  r_warnings r = [] /\ no_extra schema props = true.
Proof.
  unfold safeParse, no_extra.
  pose proof (parse_fields_codes schema props) as Hcodes.
  destruct (parse_fields schema props) as [iss out]. cbn [fst] in *.
  assert (Hiss : Forall (fun i => Zod.code i <> unrecognized_keys) iss).
  { apply Forall_forall. intros i Hi. by apply Hcodes. }
  destruct (extra_keys schema props) as [|k ks].
  - destruct iss as [|i iss]; [tauto|].
    rewrite report_issues_warnings. tauto.
  - assert (E : iss ++ [issue_unrecognized (k :: ks)] <> []).
    { by destruct iss. }
    destruct (iss ++ [issue_unrecognized (k :: ks)]) as [|i0 l0] eqn:E0; [done|].
    rewrite <- E0. rewrite report_issues_warnings, Forall_app, Forall_singleton.
    cbn. split; [|intros [_ ?]; done]. intros [_ [_ H]]. done.
Qed.

Lemma fold_indexed_warnings (f : UINode -> nat -> Report -> Report)
    (Q : UINode -> bool) l :
  Forall (fun c => forall i r, r_warnings (f c i r) = [] <->
                               r_warnings r = [] /\ Q c = true) l ->
  forall i r, r_warnings (fold_indexed f l i r) = [] <->
              r_warnings r = [] /\ forallb Q l = true.
Proof.
  induction 1 as [|c l Hc _ IH]; intros i r; cbn [fold_indexed forallb].
  - tauto.
  - rewrite IH, Hc, andb_true_iff. tauto.
Qed.

Lemma validateNode_warnings n :
  node_conforms (fun _ _ => true) n = true ->
  forall path r,
    r_warnings (validateNode n path r) = [] <->
    r_warnings r = [] /\ node_conforms no_extra n = true.
Proof.
  induction n as [|s|type props children IH] using UINode_tree_ind.
  - discriminate.
  - intros _ path r. cbn. tauto.
  - cbn [node_conforms validateNode]. destruct (schema_for type) as [schema|]; [|done].
    cbn [andb]. intros Hch path r.
    rewrite (fold_indexed_warnings _ (node_conforms no_extra)).
    + rewrite validate_props_warnings, andb_true_iff. tauto.
    + rewrite Forall_forall in IH |- *. intros c Hin i r'.
      apply IH; [done|].
      rewrite forallb_forall in Hch. apply Hch. by apply list_elem_of_In.
Qed.

Lemma safeParse_components D parsed :
  UIASTSchema_safeParse D = inr parsed ->
  parsed = {| layout := layout D; theme := Some (default "light" (theme D));
              components := map parsed_node (components D) |}.
Proof.
  unfold UIASTSchema_safeParse. destruct (_ ++ _ ++ _); [|done]. by intros [= <-].
Qed.

Lemma node_conforms_via (ok : ObjectSchema -> Props -> bool) n :
  node_conforms ok (parsed_node n)
  = node_conforms (fun schema props => ok schema (record_parse props)) n.
Proof.
  induction n as [|s|type props children IH] using UINode_tree_ind;
    [done|done|].
  cbn [parsed_node node_conforms].
  destruct (schema_for type) as [schema|]; [|done]. f_equal.
  induction IH as [|c cs Hc _ IHcs]; [done|].
  cbn [map forallb]. by rewrite Hc, IHcs.
Qed.

Lemma forallb_conforms_via (ok : ObjectSchema -> Props -> bool) cs :
  forallb (node_conforms ok) (map parsed_node cs)
  = forallb (node_conforms (fun schema props => ok schema (record_parse props)))
      cs.
Proof.
  induction cs as [|c cs IH]; [done|].
  cbn [map forallb]. by rewrite node_conforms_via, IH.
Qed.

Lemma validate_warnings D :
  Validator.warnings (validateUIAST D) = [] <->
  parses D = false
  \/ forallb (node_conforms no_extra_parsed) (components D) = true.
Proof.
  pose proof (parses_shape D) as Hshape.
  unfold validateUIAST, parses in *.
  destruct (UIASTSchema_safeParse D) as [issues|parsed] eqn:Hp.
  - cbn [Validator.warnings]. split; [by left|done].
  - apply safeParse_components in Hp. subst parsed.
    cbn [Validator.warnings components]. specialize (Hshape eq_refl).
    apply parsed_shape in Hshape.
    unfold validate_components, no_extra_parsed.
    rewrite <- (forallb_conforms_via no_extra).
    rewrite (fold_indexed_warnings _ (node_conforms no_extra)).
    + cbn [r_warnings]. split; [intros [_ ?]; by right|].
      intros [?|?]; [done|split; done].
    + eapply Forall_impl; [exact Hshape|].
      intros c Hc' i r. by apply validateNode_warnings.
Qed.

Lemma validate_valid D : Validator.valid (validateUIAST D) = conforms declared_ok D.
Proof.
  unfold conforms. pose proof (parses_shape D) as Hshape.
  unfold validateUIAST, parses in *.
  destruct (UIASTSchema_safeParse D) as [issues|parsed] eqn:Hp; [done|].
  apply safeParse_components in Hp. subst parsed.
  cbn [Validator.valid andb components]. specialize (Hshape eq_refl).
  apply parsed_shape in Hshape.
  rewrite <- (forallb_conforms_parsed declared_ok (components D))
    by apply declared_ok_record.
  pose proof (fold_indexed_errors
                (fun comp i r =>
                   validateNode comp ("components[" +:+ pretty i +:+ "]") r)
                (node_conforms declared_ok)
                (map parsed_node (components D))) as H.
  unfold validate_components.
  destruct (H ltac:(eapply Forall_impl; [exact Hshape|];
                    intros c Hc' i r; by apply validateNode_errors)
              0 {| r_errors := []; r_warnings := [] |}) as [H1 H2].
  destruct (r_errors _) as [|e es] eqn:He.
  - symmetry. by apply H1.
  - symmetry. apply not_true_is_false. intros Hf.
    by specialize (H2 (conj eq_refl Hf)).
Qed.

Lemma satisfies_split schema props :
  satisfies schema props = declared_ok schema props && no_extra schema props.
Proof.
  unfold satisfies, declared_ok, no_extra, safeParse.
  destruct (parse_fields schema props) as [iss out]. cbn [fst].
  destruct (extra_keys schema props) as [|k ks]; destruct iss; try done.
Qed.

Lemma node_conforms_split n :
  node_conforms satisfies n
  = node_conforms declared_ok n && node_conforms no_extra n.
Proof.
  induction n as [|s|type props children IH] using UINode_tree_ind; try done.
  cbn [node_conforms]. destruct (schema_for type) as [schema|]; [|done].
  rewrite satisfies_split.
  assert (forallb (node_conforms satisfies) children
          = forallb (node_conforms declared_ok) children
            && forallb (node_conforms no_extra) children) as ->.
  { induction IH as [|c cs Hc _ IHcs]; [done|].
    cbn [forallb]. rewrite Hc, IHcs.
    destruct (node_conforms declared_ok c), (node_conforms no_extra c),
      (forallb (node_conforms declared_ok) cs); done. }
  destruct (declared_ok schema props), (no_extra schema props),
    (forallb (node_conforms declared_ok) children); done.
Qed.

Lemma forallb_conforms_split cs :
  forallb (node_conforms satisfies) cs
  = forallb (node_conforms declared_ok) cs
    && forallb (node_conforms no_extra) cs.
Proof.
  induction cs as [|c cs IH]; [done|].
  cbn [forallb]. rewrite node_conforms_split, IH.
  destruct (node_conforms declared_ok c), (node_conforms no_extra c),
    (forallb (node_conforms declared_ok) cs); done.
Qed.

(** The report is clean exactly when the copy the parse returns conforms
    strictly. *)
Lemma validate_clean_parsed D :
  Validator.valid (validateUIAST D) = true
  /\ Validator.warnings (validateUIAST D) = [] <->
  parses D = true
  /\ forallb (node_conforms satisfies) (map parsed_node (components D)) = true.
Proof.
  rewrite validate_valid, validate_warnings. unfold conforms, no_extra_parsed.
  rewrite <- (forallb_conforms_via no_extra).
  rewrite forallb_conforms_split.
  rewrite (forallb_conforms_parsed declared_ok) by apply declared_ok_record.
  destruct (parses D); cbn [andb]; [|split; intros [? _]; done].
  rewrite andb_true_iff. split.
  - intros [? [?|?]]; done.
  - intros [_ [? ?]]. split; [done|by right].
Qed.

Lemma validate_clean D :
  Validator.valid (validateUIAST D) = true
  /\ Validator.warnings (validateUIAST D) = [] <->
  parses D = true
  /\ forallb (node_conforms satisfies_parsed) (components D) = true.
Proof.
  rewrite validate_clean_parsed. unfold satisfies_parsed.
  by rewrite (forallb_conforms_via satisfies).
Qed.

(** X7: a document that parses gets no warning exactly when no node
    carries a key its schema does not declare, an own [__proto__] aside
    (the parse drops that key before the properties are checked); a
    document that does not parse gets no warning at all. *)
Theorem warnings_name_undeclared_keys (D : UIAST) :
  Validator.warnings (validateUIAST D) = [] <->
  parses D = false
  \/ forallb (node_conforms no_extra_parsed) (components D) = true.
Proof. apply validate_warnings. Qed.

Lemma warnings_name_undeclared_keys_witness :
  Validator.warnings (validateUIAST Examples.extra_key_doc) = [] <->
  parses Examples.extra_key_doc = false
  \/ forallb (node_conforms no_extra_parsed)
       (components Examples.extra_key_doc) = true.
Proof. apply (warnings_name_undeclared_keys Examples.extra_key_doc). Defined.

(** X8: the report of [validateUIAST] is clean ([valid], no warnings)
    exactly when the document parses and the properties of every node, an
    own [__proto__] aside, satisfy the closed (strict) schema of its
    type. *)
Theorem clean_report_iff_strictly_conforming (D : UIAST) :
  Validator.valid (validateUIAST D) = true
  /\ Validator.warnings (validateUIAST D) = [] <->
  parses D = true
  /\ forallb (node_conforms satisfies_parsed) (components D) = true.
Proof. apply validate_clean. Qed.

Lemma clean_report_iff_strictly_conforming_witness :
  Validator.valid (validateUIAST Examples.proto_doc) = true
  /\ Validator.warnings (validateUIAST Examples.proto_doc) = [] <->
  parses Examples.proto_doc = true
  /\ forallb (node_conforms satisfies_parsed) (components Examples.proto_doc)
     = true.
Proof. apply (clean_report_iff_strictly_conforming Examples.proto_doc). Defined.

(** *** Validating what validation returned *)

Lemma fold_indexed_map_ext {A B} (f g : B -> nat -> A -> A) (h : B -> B) l :
  Forall (fun x => forall i a, f (h x) i a = g x i a) l ->
  forall i a, fold_indexed f (map h l) i a = fold_indexed g l i a.
Proof.
  induction 1 as [|x l Hx _ IH]; intros i a; cbn [map fold_indexed]; [done|].
  by rewrite Hx, IH.
Qed.

Lemma parse_node_parsed n : forall p,
  parse_node p (parsed_node n) = parse_node p n.
Proof.
  induction n as [|s|type props children IH] using UINode_tree_ind;
    intros p; [done|done|].
  cbn [parsed_node parse_node].
  erewrite fold_indexed_map_ext; [reflexivity|].
  eapply Forall_impl; [exact IH|]. intros c Hc j acc. cbv beta zeta.
  destruct c as [|s|t q ch]; [done|done|].
  change (parsed_node (Elem t q ch))
    with (Elem t (record_parse q) (map parsed_node ch)) in Hc |- *.
  cbv iota. by rewrite Hc.
Qed.

Lemma parse_components_parsed cs :
  parse_components (map parsed_node cs) = parse_components cs.
Proof.
  unfold parse_components. apply fold_indexed_map_ext.
  apply Forall_forall. intros c _ i a. by rewrite parse_node_parsed.
Qed.

Lemma record_parse_idem props : record_parse (record_parse props) = record_parse props.
Proof.
  unfold record_parse. induction props as [|kv props IH]; [done|].
  rewrite filter_cons. destruct (decide _) as [H|H]; [|done].
  rewrite filter_cons. destruct (decide _); [|done]. by rewrite IH.
Qed.

Lemma parsed_node_idem n : parsed_node (parsed_node n) = parsed_node n.
Proof.
  induction n as [|s|type props children IH] using UINode_tree_ind;
    [done|done|].
  cbn [parsed_node]. rewrite record_parse_idem. f_equal.
  rewrite <- list_fmap_compose.
  induction IH as [|c cs Hc _ IHcs]; [done|].
  cbn [fmap list_fmap compose] in *. by rewrite Hc, IHcs.
Qed.

Lemma safeParse_parsed D D' :
  UIASTSchema_safeParse D = inr D' -> UIASTSchema_safeParse D' = inr D'.
Proof.
  intros Hp. pose proof (safeParse_components _ _ Hp) as ->.
  revert Hp. unfold UIASTSchema_safeParse. cbn [layout theme components].
  rewrite parse_components_parsed.
  destruct (string_in (layout D) LayoutEnum); [|done]. cbn [app].
  assert (Hmap : map parsed_node (map parsed_node (components D))
                 = map parsed_node (components D)).
  { induction (components D) as [|c cs IH]; [done|].
    cbn [map]. by rewrite parsed_node_idem, IH. }
  rewrite Hmap.
  destruct (theme D) as [t|]; cbn [default from_option]; unfold id.
  - destruct (string_in t ThemeEnum); [|done]. cbn [app].
    destruct (parse_components (components D)); done.
  - cbn [app]. destruct (parse_components (components D)); done.
Qed.

(** X9: validation is idempotent on what it returns: when [sanitizedAST]
    is present, validating it gives the same report, with the same
    [sanitizedAST]. *)
Theorem validateUIAST_sanitized (D D' : UIAST) :
  sanitizedAST (validateUIAST D) = Some D' ->
  validateUIAST D' = validateUIAST D.
Proof.
  unfold validateUIAST at 1.
  destruct (UIASTSchema_safeParse D) as [issues|parsed] eqn:Hp; [done|].
  cbn [sanitizedAST]. intros [= ->].
  pose proof (safeParse_parsed _ _ Hp) as Hp'.
  unfold validateUIAST. by rewrite Hp, Hp'.
Qed.

Lemma validateUIAST_sanitized_witness :
  validateUIAST
    {| layout := "Stack"; theme := Some "light";
       components := [Elem "Button" [("variant", JStr "primary")] []] |}
  = validateUIAST Examples.proto_doc.
Proof.
  apply (validateUIAST_sanitized Examples.proto_doc).
  vm_compute. reflexivity.
Defined.

Lemma registry_schemas_ok :
  forallb (fun e => schema_ok e.2) COMPONENT_PROP_SCHEMAS = true.
Proof. vm_compute. reflexivity. Qed.

Lemma schema_for_ok type schema :
  schema_for type = Some schema ->
  NoDup (map fname schema) /\ forallb default_ok schema = true.
Proof.
  intros H. apply schema_for_in_elem in H.
  pose proof registry_schemas_ok as Hok. rewrite forallb_forall in Hok.
  apply list_elem_of_In in H. specialize (Hok _ H). cbn in Hok.
  unfold schema_ok in Hok. apply andb_true_iff in Hok as [Hn Hd].
  split; [|done]. by apply bool_decide_eq_true in Hn.
Qed.

Lemma parse_chart_item_idem p q v v' :
  parse_chart_item p v = ([], v') -> parse_chart_item q v' = ([], v').
Proof.
  unfold parse_chart_item. destruct v as [| | | |?|fs]; try discriminate.
  destruct (obj_get "label" fs) as [[]|]; cbn; try discriminate;
  destruct (obj_get "value" fs) as [[]|]; cbn; try discriminate.
  intros [= <-]. reflexivity.
Qed.

Lemma parse_chart_items_idem vs : forall p q i j out,
  parse_chart_items p i vs = ([], out) -> parse_chart_items q j out = ([], out).
Proof.
  induction vs as [|v vs IH]; intros p q i j out; cbn.
  - intros [= <-]. reflexivity.
  - destruct (parse_chart_item (p ++ [pretty i]) v) as [is1 o1] eqn:E1.
    destruct (parse_chart_items p (S i) vs) as [is2 o2] eqn:E2.
    intros [= H <-]. apply app_eq_nil in H as [-> ->].
    cbn. rewrite (parse_chart_item_idem _ (q ++ [pretty j]) _ _ E1).
    by rewrite (IH _ q _ (S j) _ E2).
Qed.

Lemma parse_type_idem ty p v v' :
  parse_type ty p v = ([], v') -> parse_type ty p v' = ([], v').
Proof.
  destruct ty; destruct v; cbn; try discriminate.
  - destruct (string_in s values) eqn:E; [|discriminate].
    intros [= <-]. cbn. by rewrite E.
  - destruct (existsb (Z.eqb n) values) eqn:E; [|discriminate].
    intros [= <-]. cbn. by rewrite E.
  - intros [= <-]. reflexivity.
  - intros [= <-]. reflexivity.
  - destruct (parse_chart_items p 0 items) as [iss out] eqn:E.
    intros [= -> <-]. cbn. by rewrite (parse_chart_items_idem _ _ p _ 0 _ E).
Qed.

Lemma default_ok_parse f d :
  default_ok f = true -> fdefault f = Some d ->
  parse_type (ftype f) [fname f] d = ([], d).
Proof.
  unfold default_ok. intros H Hd. rewrite Hd in H.
  destruct (parse_type (ftype f) [fname f] d) as [[|i l] d'] eqn:E; [|done].
  apply jvalue_eqb_eq in H. by subst d'.
Qed.

Lemma parse_fields_keys shape input k :
  k ∈ keys (parse_fields shape input).2 -> k ∈ map fname shape.
Proof.
  unfold keys. induction shape as [|f shape IH]; cbn; [done|].
  destruct (parse_fields shape input) as [is2 out2]. cbn [snd] in IH.
  destruct (obj_get (fname f) input) as [v|].
  - destruct (parse_type (ftype f) [fname f] v) as [is1 o1]. cbn.
    rewrite !elem_of_cons. intros [?|?]; [by left|right; by apply IH].
  - destruct (fdefault f) as [d|]; cbn.
    + rewrite !elem_of_cons. intros [?|?]; [by left|right; by apply IH].
    + intros ?. right. by apply IH.
Qed.

Lemma obj_get_absent {V} k (o : list (string * V)) :
  k ∉ keys o -> obj_get k o = None.
Proof.
  unfold keys. induction o as [|[k0 v0] o IH]; cbn; [done|].
  intros H. apply not_elem_of_cons in H as [Hne H].
  destruct (String.eqb_spec k k0); [done|]. by apply IH.
Qed.

Lemma parse_fields_refine shape : forall input out',
  NoDup (map fname shape) -> forallb default_ok shape = true ->
  (parse_fields shape input).1 = [] ->
  (forall f, f ∈ shape ->
     obj_get (fname f) out' = obj_get (fname f) (parse_fields shape input).2) ->
  parse_fields shape out' = ([], (parse_fields shape input).2).
Proof.
  induction shape as [|f shape IH]; intros input out' Hnd Hdef Hiss Hout.
  - reflexivity.
  - cbn [map] in Hnd. apply NoDup_cons in Hnd as [Hf Hnd].
    cbn [forallb] in Hdef. apply andb_true_iff in Hdef as [Hdf Hdef].
    pose proof (parse_fields_keys shape input) as Hkeys.
    pose proof (Hout f ltac:(left)) as Hhead.
    assert (Htail : forall out2 x, (parse_fields shape input).2 = out2 ->
              (forall f', f' ∈ shape ->
                 obj_get (fname f') out'
                 = obj_get (fname f') ((fname f, x) :: out2)) ->
              forall f', f' ∈ shape ->
                obj_get (fname f') out' = obj_get (fname f') out2).
    { intros out2 x _ H f' Hf'. rewrite (H f' Hf'). cbn.
      destruct (String.eqb_spec (fname f') (fname f)) as [E|_]; [|done].
      exfalso. apply Hf. rewrite <- E. apply list_elem_of_fmap. by exists f'. }
    revert Hiss Hout Hhead Htail. cbn [parse_fields].
    specialize (IH input out' Hnd Hdef).
    destruct (parse_fields shape input) as [is2 out2] eqn:E2. cbn [fst snd] in *.
    destruct (obj_get (fname f) input) as [v|].
    + destruct (parse_type (ftype f) [fname f] v) as [is1 o1] eqn:E1.
      cbn [fst snd]. intros Hiss Hout Hhead Htail.
      apply app_eq_nil in Hiss as [-> ->].
      rewrite IH; [|done|].
      * rewrite Hhead. cbn. rewrite String.eqb_refl.
        by rewrite (parse_type_idem _ _ _ _ E1).
      * eapply Htail; [done|]. intros f' Hf'. apply Hout. by right.
    + destruct (fdefault f) as [d|] eqn:Ed; cbn [fst snd];
        intros Hiss Hout Hhead Htail; subst is2.
      * rewrite IH; [|done|].
        -- rewrite Hhead. cbn. rewrite String.eqb_refl.
           by rewrite (default_ok_parse f d Hdf Ed).
        -- eapply Htail; [done|]. intros f' Hf'. apply Hout. by right.
      * rewrite IH; [|done|].
        -- rewrite Hhead. rewrite obj_get_absent; [reflexivity|].
           intros Hin. apply Hf. by apply Hkeys.
        -- intros f' Hf'. apply Hout. by right.
Qed.

Lemma extra_keys_parsed shape input :
  extra_keys shape (parse_fields shape input).2 = [].
Proof.
  unfold extra_keys.
  destruct (filter _ _) as [|k ks] eqn:E; [done|].
  assert (Hk : k ∈ k :: ks) by left. rewrite <- E in Hk.
  apply list_elem_of_filter in Hk as [Hx Hk].
  apply elem_of_keys_entries, parse_fields_keys, string_in_spec in Hk.
  congruence.
Qed.

Lemma safeParse_idem schema props data :
  NoDup (map fname schema) -> forallb default_ok schema = true ->
  safeParse schema props = inr data -> safeParse schema data = inr data.
Proof.
  intros Hnd Hdef. unfold safeParse at 1.
  pose proof (parse_fields_refine schema props (parse_fields schema props).2
                Hnd Hdef) as Href.
  pose proof (extra_keys_parsed schema props) as Hex.
  destruct (parse_fields schema props) as [iss out] eqn:E. cbn [fst snd] in *.
  destruct (extra_keys schema props) as [|k ks].
  - destruct iss as [|i iss]; [|done]. intros [= <-].
    unfold safeParse. rewrite Href by done. by rewrite Hex.
  - destruct (iss ++ _) eqn:E'; [|done]. by destruct iss.
Qed.

(** X10: the properties [validateNodeProps] returns for a valid input are
    a fixed point: validating them again returns the same result.  This
    rests on every schema of the registry declaring no property twice and
    giving defaults that are values of the declared type. *)
Theorem validateNodeProps_sanitized_is_fixed (type : string) (props : Props) :
  p_valid (validateNodeProps type props) = true ->
  validateNodeProps type (p_sanitized (validateNodeProps type props))
  = validateNodeProps type props.
Proof.
  unfold validateNodeProps.
  destruct (schema_for type) as [schema|] eqn:Hs; [|done].
  destruct (schema_for_ok _ _ Hs) as [Hnd Hdef].
  destruct (safeParse schema props) as [issues|data] eqn:Hp; [done|].
  intros _. cbn [p_sanitized]. by rewrite (safeParse_idem _ _ _ Hnd Hdef Hp).
Qed.

Lemma validateNodeProps_sanitized_is_fixed_witness :
  validateNodeProps "Button"
    (p_sanitized (validateNodeProps "Button" [("variant", JStr "primary")]))
  = validateNodeProps "Button" [("variant", JStr "primary")].
Proof.
  apply (validateNodeProps_sanitized_is_fixed "Button" [("variant", JStr "primary")]).
  vm_compute. reflexivity.
Defined.

Lemma parse_fields_lookup shape input f :
  NoDup (map fname shape) -> f ∈ shape ->
  obj_get (fname f) (parse_fields shape input).2
  = match obj_get (fname f) input with
    | Some v => Some (parse_type (ftype f) [fname f] v).2
    | None => fdefault f
    end.
Proof.
  induction shape as [|f0 shape IH]; intros Hnd Hin.
  - by apply elem_of_nil in Hin.
  - cbn [map] in Hnd. apply NoDup_cons in Hnd as [Hf0 Hnd].
    pose proof (parse_fields_keys shape input) as Hkeys.
    cbn [parse_fields].
    destruct (parse_fields shape input) as [is2 out2] eqn:E2. cbn [snd] in *.
    apply elem_of_cons in Hin as [->|Hin].
    + destruct (obj_get (fname f0) input) as [v|].
      * destruct (parse_type (ftype f0) [fname f0] v) as [is1 o1].
        cbn. by rewrite String.eqb_refl.
      * destruct (fdefault f0) as [d|]; cbn.
        -- by rewrite String.eqb_refl.
        -- apply obj_get_absent. intros H. apply Hf0. by apply Hkeys.
    + assert (Hne : fname f <> fname f0).
      { intros E. apply Hf0. rewrite <- E. apply list_elem_of_fmap. by exists f. }
      rewrite <- (IH Hnd Hin).
      destruct (obj_get (fname f0) input) as [v|].
      * destruct (parse_type (ftype f0) [fname f0] v) as [is1 o1].
        cbn. by destruct (String.eqb_spec (fname f) (fname f0)).
      * destruct (fdefault f0) as [d|]; cbn; [|done].
        by destruct (String.eqb_spec (fname f) (fname f0)).
Qed.

(** X11: what the sanitised properties of a valid input hold: a declared
    property that is present keeps its parsed value, one that is absent
    has the default of its declaration, if any, and no key outside the
    schema is there. *)
Theorem validateNodeProps_fills_defaults (type : string) (props : Props)
    (schema : ObjectSchema) (f : Field) :
  schema_for type = Some schema ->
  p_valid (validateNodeProps type props) = true ->
  f ∈ schema ->
  obj_get (fname f) (p_sanitized (validateNodeProps type props))
  = match obj_get (fname f) props with
    | Some v => Some (parse_type (ftype f) [fname f] v).2
    | None => fdefault f
    end
  /\ forall k, k ∈ keys (p_sanitized (validateNodeProps type props)) ->
               k ∈ map fname schema.
Proof.
  intros Hs. unfold validateNodeProps. rewrite Hs.
  destruct (schema_for_ok _ _ Hs) as [Hnd _].
  unfold safeParse.
  pose proof (parse_fields_lookup schema props f Hnd) as Hl.
  pose proof (parse_fields_keys schema props) as Hk.
  destruct (parse_fields schema props) as [iss out]. cbn [snd] in *.
  destruct (match extra_keys schema props with [] => iss | _ => _ end);
    [|done].
  cbn [p_sanitized]. intros _ Hf. split; [by apply Hl|done].
Qed.

Lemma validateNodeProps_fills_defaults_witness :
  obj_get "size"
    (p_sanitized (validateNodeProps "Button" [("variant", JStr "primary")]))
  = match obj_get "size" [("variant", JStr "primary")] with
    | Some v => Some (parse_type ButtonSizeEnum ["size"] v).2
    | None => Some (JStr "md")
    end
  /\ forall k,
       k ∈ keys (p_sanitized
                   (validateNodeProps "Button" [("variant", JStr "primary")])) ->
       k ∈ map fname ButtonPropsSchema.
Proof.
  apply (validateNodeProps_fills_defaults "Button"
           [("variant", JStr "primary")] ButtonPropsSchema
           (dflt "size" ButtonSizeEnum (JStr "md"))).
  - reflexivity.
  - vm_compute. reflexivity.
  - unfold ButtonPropsSchema. rewrite !elem_of_cons. tauto.
Defined.


(* ================================================================== *)
(** ** More of the generator *)
(* ================================================================== *)

(** *** When the generator returns *)

Lemma fold_scan_inl l msg :
  fold_left (fun acc c => Exn.bind acc (fun f' => scan_node c f')) l (inl msg)
  = inl msg.
Proof. induction l as [|c l IH]; [done|]. cbn. exact IH. Qed.

Lemma fold_scan_defined l :
  Forall (fun n => forall f, (exists f', scan_node n f = inr f')
                             <-> defined_node n = true) l ->
  forall f,
    (exists f',
       fold_left (fun acc c => Exn.bind acc (fun f' => scan_node c f')) l
         (Exn.ret f) = inr f')
    <-> forallb defined_node l = true.
Proof.
  induction 1 as [|n l Hn _ IH]; intros f; cbn [fold_left forallb].
  - split; [done|]. intros _. by exists f.
  - unfold Exn.ret, Exn.bind at 2. specialize (Hn f).
    destruct (scan_node n f) as [msg|f1] eqn:E.
    + rewrite fold_scan_inl. split.
      * intros [f' Hf']. discriminate.
      * intros H. apply andb_true_iff in H as [H _].
        apply Hn in H as [f' Hf']. discriminate.
    + change (inr f1) with (@Exn.ret Flags f1). rewrite IH, andb_true_iff.
      split; [|tauto]. intros H. split; [|done]. apply Hn. by exists f1.
Qed.

Lemma scan_node_defined n :
  forall f, (exists f', scan_node n f = inr f') <-> defined_node n = true.
Proof.
  induction n as [|s|type props children IH] using UINode_tree_ind; intros f.
  - cbn. split; [intros [f' H]; discriminate|discriminate].
  - cbn. split; [done|]. intros _. by exists f.
  - cbn [scan_node defined_node]. by apply fold_scan_defined.
Qed.

Lemma scanForState_defined cs f :
  (exists f', scanForState cs f = inr f') <-> forallb defined_node cs = true.
Proof.
  unfold scanForState. apply fold_scan_defined.
  apply Forall_forall. intros n _. apply scan_node_defined.
Qed.

Lemma generate_inr D r :
  generateCodeFromAST D = inr r ->
  exists flags,
    scanForState (components D) no_flags = inr flags
    /\ errors r = g_errors (render_all (components D) initial).2
    /\ warnings r = g_warnings (render_all (components D) initial).2
    /\ usedComponents r = g_usedComponents (render_all (components D) initial).2.
Proof.
  unfold generateCodeFromAST.
  destruct (scanForState (components D) no_flags) as [msg|flags]; [done|].
  unfold Exn.bind. destruct (render_all (components D) initial) as [jsx st].
  unfold Exn.ret. intros [= <-]. by exists flags.
Qed.

Lemma generate_returns D :
  (exists r, generateCodeFromAST D = inr r)
  <-> forallb defined_node (components D) = true.
Proof.
  rewrite <- (scanForState_defined (components D) no_flags).
  unfold generateCodeFromAST.
  destruct (scanForState (components D) no_flags) as [msg|flags].
  - split; intros [x H]; discriminate.
  - unfold Exn.bind. destruct (render_all (components D) initial) as [jsx st].
    split; intros _; eexists; reflexivity.
Qed.

Lemma fold_scan_msg l :
  Forall (fun n => forall f msg, scan_node n f = inl msg ->
            msg = "Cannot read properties of undefined (reading 'type')") l ->
  forall a msg,
    (forall m, a = inl m ->
       m = "Cannot read properties of undefined (reading 'type')") ->
    fold_left (fun acc c => Exn.bind acc (fun f' => scan_node c f')) l a
    = inl msg ->
    msg = "Cannot read properties of undefined (reading 'type')".
Proof.
  induction 1 as [|n l Hn _ IH]; intros a msg Ha; cbn [fold_left].
  - intros ->. by apply Ha.
  - apply IH. intros m. destruct a as [m0|f]; cbn.
    + intros [= <-]. by apply Ha.
    + apply Hn.
Qed.

Lemma scan_node_msg n : forall f msg,
  scan_node n f = inl msg ->
  msg = "Cannot read properties of undefined (reading 'type')".
Proof.
  induction n as [|s|type props children IH] using UINode_tree_ind;
    intros f msg; cbn [scan_node].
  - by intros [= <-].
  - discriminate.
  - apply fold_scan_msg; [done|]. discriminate.
Qed.

(** X12: [generateCodeFromAST] returns exactly on the documents with no
    [undefined] where a node or a text is expected; on the others it
    throws the [TypeError] of reading [type] of [undefined]. *)
Theorem generator_returns_iff_defined (D : UIAST) :
  ((exists r, generateCodeFromAST D = inr r)
   <-> forallb defined_node (components D) = true)
  /\ forall msg, generateCodeFromAST D = inl msg ->
       msg = "Cannot read properties of undefined (reading 'type')".
Proof.
  split; [apply generate_returns|].
  intros msg. unfold generateCodeFromAST.
  destruct (scanForState (components D) no_flags) as [m|flags] eqn:E.
  - cbn. intros [= <-]. revert E. unfold scanForState.
    apply fold_scan_msg; [|discriminate].
    apply Forall_forall. intros n _. apply scan_node_msg.
  - unfold Exn.bind. by destruct (render_all (components D) initial).
Qed.

Lemma generator_returns_iff_defined_witness :
  ((exists r, generateCodeFromAST Examples.nested_doc = inr r)
   <-> forallb defined_node (components Examples.nested_doc) = true)
  /\ forall msg, generateCodeFromAST Examples.nested_doc = inl msg ->
       msg = "Cannot read properties of undefined (reading 'type')".
Proof. apply (generator_returns_iff_defined Examples.nested_doc). Defined.

(** *** What [renderNode] leaves in the closure *)

Lemma renderNode_elem_closure type props children indent st :
  string_in type ALLOWED_COMPONENT_TYPES = true ->
  (renderNode (Elem type props children) indent st).2
  = (fold_left
       (fun (acc : list string * GenState) child =>
          let '(s1, st') := renderNode child (indent + 1) acc.2 in
          (acc.1 ++ [s1], st'))
       children
       ([], {| g_errors := g_errors st ++ (validateAndClean type props).1.2;
               g_warnings := g_warnings st ++ (validateAndClean type props).2;
               g_usedComponents := set_add type (g_usedComponents st);
               g_usedIcons :=
                 add_icon "logo" (validateAndClean type props).1.1
                   (add_icon "icon" (validateAndClean type props).1.1
                      (g_usedIcons st)) |})).2.
Proof.
  intros Ht. cbn [renderNode]. rewrite Ht. cbn [negb].
  destruct (validateAndClean type props) as [[sanitized propErrors] propWarnings].
  cbn [fst snd].
  destruct (fold_left _ children _) as [kids st2]. cbn [snd].
  by destruct (_ ++ kids).
Qed.

Lemma renderNode_unknown type props children indent st :
  string_in type ALLOWED_COMPONENT_TYPES = false ->
  (renderNode (Elem type props children) indent st).2
  = {| g_errors := g_errors st ++ ["Unknown component: " +:+ type];
       g_warnings := g_warnings st;
       g_usedComponents := g_usedComponents st;
       g_usedIcons := g_usedIcons st |}.
Proof. intros Ht. cbn [renderNode]. rewrite Ht. reflexivity. Qed.

Lemma fold_render_inv (P : GenState -> Prop) (k : nat) l :
  Forall (fun n => forall indent st, P st -> P (renderNode n indent st).2) l ->
  forall acc : list string * GenState,
    P acc.2 ->
    P (fold_left
         (fun (acc : list string * GenState) child =>
            let '(s1, st') := renderNode child k acc.2 in
            (acc.1 ++ [s1], st'))
         l acc).2.
Proof.
  induction 1 as [|n l Hn _ IH]; intros acc Hacc; cbn [fold_left]; [done|].
  apply IH. specialize (Hn k acc.2 Hacc).
  by destruct (renderNode n k acc.2) as [s1 st'].
Qed.

Lemma validateAndClean_warnings type props :
  (validateAndClean type props).2 = [].
Proof.
  unfold validateAndClean. by destruct (p_valid (validateNodeProps type props)).
Qed.

Lemma renderNode_inv (P : GenState -> Prop) :
  (forall st e, P st ->
     P {| g_errors := g_errors st ++ e; g_warnings := g_warnings st;
          g_usedComponents := g_usedComponents st;
          g_usedIcons := g_usedIcons st |}) ->
  (forall st type e icons, P st ->
     string_in type ALLOWED_COMPONENT_TYPES = true ->
     P {| g_errors := g_errors st ++ e; g_warnings := g_warnings st ++ [];
          g_usedComponents := set_add type (g_usedComponents st);
          g_usedIcons := icons |}) ->
  forall n indent st, P st -> P (renderNode n indent st).2.
Proof.
  intros Hunk Hknown.
  induction n as [|s|type props children IH] using UINode_tree_ind;
    intros indent st Hst; [done|done|].
  destruct (string_in type ALLOWED_COMPONENT_TYPES) eqn:Ht.
  - rewrite renderNode_elem_closure by done.
    apply fold_render_inv.
    + eapply Forall_impl; [exact IH|]. intros n Hn k st'. apply Hn.
    + cbn [snd]. rewrite validateAndClean_warnings. by apply Hknown.
  - rewrite renderNode_unknown by done. by apply Hunk.
Qed.

Lemma render_all_inv (P : GenState -> Prop) :
  (forall st e, P st ->
     P {| g_errors := g_errors st ++ e; g_warnings := g_warnings st;
          g_usedComponents := g_usedComponents st;
          g_usedIcons := g_usedIcons st |}) ->
  (forall st type e icons, P st ->
     string_in type ALLOWED_COMPONENT_TYPES = true ->
     P {| g_errors := g_errors st ++ e; g_warnings := g_warnings st ++ [];
          g_usedComponents := set_add type (g_usedComponents st);
          g_usedIcons := icons |}) ->
  forall cs st, P st -> P (render_all cs st).2.
Proof.
  intros Hunk Hknown cs st Hst. unfold render_all.
  apply fold_render_inv; [|done].
  apply Forall_forall. intros n _ indent st'. by apply renderNode_inv.
Qed.

Lemma set_add_NoDup x s : NoDup s -> NoDup (set_add x s).
Proof.
  intros H. unfold set_add. destruct (string_in x s) eqn:E; [done|].
  apply NoDup_app. split_and!; [done| |apply NoDup_singleton].
  intros y Hy Hx. apply list_elem_of_singleton in Hx as ->.
  apply string_in_spec in Hy. congruence.
Qed.

Lemma generate_invariants (D : UIAST) (r : GeneratorResult) :
  generateCodeFromAST D = inr r ->
  warnings r = []
  /\ NoDup (usedComponents r)
  /\ forall c, c ∈ usedComponents r ->
       string_in c ALLOWED_COMPONENT_TYPES = true.
Proof.
  intros H. apply generate_inr in H as (flags & _ & _ & -> & ->).
  pose proof (render_all_inv
    (fun st => g_warnings st = [] /\ NoDup (g_usedComponents st)
               /\ forall c, c ∈ g_usedComponents st ->
                    string_in c ALLOWED_COMPONENT_TYPES = true)) as Hinv.
  apply Hinv; clear Hinv.
  - intros st e (? & ? & ?). done.
  - intros st type e icons (Hw & Hn & Ha) Ht. cbn [g_warnings g_usedComponents].
    rewrite Hw. split_and!; [done|by apply set_add_NoDup|].
    intros c Hc. apply elem_of_set_add in Hc as [->|Hc]; [done|by apply Ha].
  - cbn. split_and!; [done|apply NoDup_nil_2|]. intros c Hc.
    by apply elem_of_nil in Hc.
Qed.

(** X13: whatever the document, the generator reports no warning, lists
    no component twice in [usedComponents], and lists only registry
    types. *)
Theorem generator_closure_invariants (D : UIAST) (r : GeneratorResult) :
  generateCodeFromAST D = inr r ->
  warnings r = []
  /\ NoDup (usedComponents r)
  /\ forall c, c ∈ usedComponents r ->
       string_in c ALLOWED_COMPONENT_TYPES = true.
Proof. apply generate_invariants. Qed.

Lemma generator_closure_invariants_witness :
  exists r,
    generateCodeFromAST Examples.nested_doc = inr r
    /\ warnings r = []
    /\ NoDup (usedComponents r)
    /\ forall c, c ∈ usedComponents r ->
         string_in c ALLOWED_COMPONENT_TYPES = true.
Proof.
  eexists. split; [vm_compute; reflexivity|].
  apply (generator_closure_invariants Examples.nested_doc).
  vm_compute. reflexivity.
Defined.

(** *** The errors of the generator *)

Lemma fold_render_errors (Q : UINode -> bool) (k : nat) l :
  Forall (fun n => forall indent st,
            g_errors (renderNode n indent st).2 = [] <->
            g_errors st = [] /\ Q n = true) l ->
  forall acc : list string * GenState,
    g_errors
      (fold_left
         (fun (acc : list string * GenState) child =>
            let '(s1, st') := renderNode child k acc.2 in
            (acc.1 ++ [s1], st'))
         l acc).2 = [] <->
    g_errors acc.2 = [] /\ forallb Q l = true.
Proof.
  induction 1 as [|n l Hn _ IH]; intros acc; cbn [fold_left forallb].
  - tauto.
  - rewrite IH. specialize (Hn k acc.2).
    destruct (renderNode n k acc.2) as [s1 st']. cbn [snd] in *.
    rewrite Hn, andb_true_iff. tauto.
Qed.

Lemma schema_for_not_allowed type :
  string_in type ALLOWED_COMPONENT_TYPES = false -> schema_for type = None.
Proof.
  intros H. destruct (schema_for type) as [schema|] eqn:E; [|done].
  apply schema_for_in_allowed in E. unfold ALLOWED_COMPONENT_TYPES in H.
  congruence.
Qed.

Lemma validateAndClean_errors type props schema :
  schema_for type = Some schema ->
  (validateAndClean type props).1.2 = [] <-> satisfies schema props = true.
Proof.
  intros Hs. unfold validateAndClean, validateNodeProps, satisfies. rewrite Hs.
  unfold safeParse. destruct (parse_fields schema props) as [iss out].
  destruct (match extra_keys schema props with [] => iss | _ => _ end)
    as [|i l]; cbn; done.
Qed.

Lemma renderNode_errors n :
  defined_node n = true ->
  forall indent st,
    g_errors (renderNode n indent st).2 = [] <->
    g_errors st = [] /\ node_conforms satisfies n = true.
Proof.
  induction n as [|s|type props children IH] using UINode_tree_ind.
  - discriminate.
  - intros _ indent st. cbn. tauto.
  - cbn [defined_node node_conforms]. intros Hdef indent st.
    destruct (string_in type ALLOWED_COMPONENT_TYPES) eqn:Ht.
    + rewrite renderNode_elem_closure by done.
      destruct (schema_for_allowed type Ht) as [schema Hs]. rewrite Hs.
      rewrite (fold_render_errors (node_conforms satisfies)).
      * cbn [snd g_errors]. rewrite andb_true_iff.
        rewrite <- (validateAndClean_errors type props schema Hs).
        split.
        -- intros [H ?]. apply app_eq_nil in H as [? ?]. done.
        -- intros [? [-> ?]]. split; [|done]. by rewrite app_nil_r.
      * rewrite Forall_forall in IH |- *. intros c Hin k st'.
        apply IH; [done|].
        rewrite forallb_forall in Hdef. apply Hdef. by apply list_elem_of_In.
    + rewrite renderNode_unknown by done.
      rewrite (schema_for_not_allowed type Ht). cbn [g_errors].
      split; [|intros [_ ?]; done].
      intros H. by apply app_eq_nil in H as [_ ?].
Qed.

Lemma generate_errors (D : UIAST) (r : GeneratorResult) :
  generateCodeFromAST D = inr r ->
  (errors r = [] <-> forallb (node_conforms satisfies) (components D) = true).
Proof.
  intros H.
  assert (Hdef : forallb defined_node (components D) = true).
  { apply generate_returns. by exists r. }
  apply generate_inr in H as (flags & _ & -> & _ & _).
  unfold render_all.
  rewrite (fold_render_errors (node_conforms satisfies)).
  - cbn. tauto.
  - apply Forall_forall. intros n Hn. apply renderNode_errors.
    rewrite forallb_forall in Hdef. apply Hdef. by apply list_elem_of_In.
Qed.

(** X14: the generator's [errors] is empty exactly when every node has a
    registry type and properties that satisfy the closed schema of that
    type (a key the schema does not declare is an error here). *)
Theorem generator_errors_iff_strict (D : UIAST) (r : GeneratorResult) :
  generateCodeFromAST D = inr r ->
  (errors r = [] <-> forallb (node_conforms satisfies) (components D) = true).
Proof. apply generate_errors. Qed.

Lemma generator_errors_iff_strict_witness :
  exists r,
    generateCodeFromAST Examples.extra_key_doc = inr r
    /\ (errors r = [] <->
        forallb (node_conforms satisfies) (components Examples.extra_key_doc)
        = true).
Proof.
  eexists. split; [vm_compute; reflexivity|].
  apply (generator_errors_iff_strict Examples.extra_key_doc).
  vm_compute. reflexivity.
Defined.

Lemma node_conforms_defined ok n :
  node_conforms ok n = true -> defined_node n = true.
Proof.
  induction n as [|s|type props children IH] using UINode_tree_ind;
    [done|done|].
  cbn [node_conforms defined_node].
  destruct (schema_for type) as [schema|]; [|done].
  intros H. apply andb_true_iff in H as [_ H].
  rewrite forallb_forall in H |- *. rewrite Forall_forall in IH.
  intros c Hc. apply IH; [by apply list_elem_of_In|by apply H].
Qed.

(** X15: a document with a clean validation report ([valid], no warning)
    has a [sanitizedAST], and on it the generator returns, with no error
    and no warning. *)
Theorem clean_document_generates_clean (D : UIAST) :
  Validator.valid (validateUIAST D) = true ->
  Validator.warnings (validateUIAST D) = [] ->
  exists D' r,
    sanitizedAST (validateUIAST D) = Some D'
    /\ generateCodeFromAST D' = inr r /\ errors r = [] /\ warnings r = [].
Proof.
  intros Hv Hw.
  assert (Hc : parses D = true
               /\ forallb (node_conforms satisfies)
                    (map parsed_node (components D)) = true)
    by (by apply validate_clean_parsed).
  destruct Hc as [Hp Hc]. unfold parses in Hp.
  destruct (UIASTSchema_safeParse D) as [issues|D'] eqn:E; [done|].
  pose proof (safeParse_components _ _ E) as HD'.
  assert (Hcomp : components D' = map parsed_node (components D))
    by (by rewrite HD').
  rewrite <- Hcomp in Hc.
  assert (Hdef : forallb defined_node (components D') = true).
  { rewrite forallb_forall in Hc |- *. intros c Hin.
    apply (node_conforms_defined satisfies). by apply Hc. }
  apply generate_returns in Hdef as [r Hr]. exists D', r.
  split; [unfold validateUIAST; by rewrite E|].
  split; [done|]. split.
  - by apply (generate_errors D' r Hr).
  - by apply (generate_invariants D' r Hr).
Qed.

Lemma clean_document_generates_clean_witness :
  exists D' r,
    sanitizedAST (validateUIAST Examples.proto_doc) = Some D'
    /\ generateCodeFromAST D' = inr r /\ errors r = [] /\ warnings r = [].
Proof.
  apply (clean_document_generates_clean Examples.proto_doc);
    vm_compute; reflexivity.
Defined.

(** *** State flags *)

Lemma scan_flags_modal type props f :
  needsModalState (scan_flags type props f)
  = String.eqb type "Modal" || needsModalState f.
Proof.
  unfold scan_flags.
  destruct (String.eqb type "Modal"), (String.eqb type "Sidebar" && _),
    (String.eqb type "Navbar" && _); reflexivity.
Qed.

Lemma fold_scan_modal l :
  Forall (fun n => forall f f', scan_node n f = inr f' ->
            (needsModalState f' = true <->
             needsModalState f = true \/ "Modal" ∈ node_types n)) l ->
  forall f f',
    fold_left (fun acc c => Exn.bind acc (fun f' => scan_node c f')) l
      (Exn.ret f) = inr f' ->
    (needsModalState f' = true <->
     needsModalState f = true \/ "Modal" ∈ flat_map node_types l).
Proof.
  induction 1 as [|n l Hn _ IH]; intros f f'; cbn [fold_left flat_map].
  - intros [= <-]. rewrite elem_of_nil. tauto.
  - unfold Exn.ret, Exn.bind at 2.
    destruct (scan_node n f) as [msg|f1] eqn:E.
    + rewrite fold_scan_inl. discriminate.
    + intros H. apply IH in H. rewrite H, (Hn f f1 E), elem_of_app. tauto.
Qed.

Lemma scan_node_modal n : forall f f',
  scan_node n f = inr f' ->
  (needsModalState f' = true <->
   needsModalState f = true \/ "Modal" ∈ node_types n).
Proof.
  induction n as [|s|type props children IH] using UINode_tree_ind;
    intros f f'; cbn [scan_node node_types].
  - discriminate.
  - intros [= <-]. rewrite elem_of_nil. tauto.
  - intros H. apply (fold_scan_modal children IH) in H.
    rewrite H, scan_flags_modal, orb_true_iff, elem_of_cons.
    destruct (String.eqb_spec type "Modal") as [->|Hne].
    + tauto.
    + split; [intros [[?|?]|?]; [done|tauto|tauto]|].
      intros [?|[?|?]]; [tauto|congruence|tauto].
Qed.

(** X16: the generated component declares the [modalOpen] state exactly
    when a [Modal] node occurs somewhere in the document. *)
Theorem modal_state_iff_modal_node (D : UIAST) (f : Flags) :
  scanForState (components D) no_flags = inr f ->
  ("const [modalOpen, setModalOpen] = useState(false);" ∈ stateDeclarations f
   <-> "Modal" ∈ doc_types D).
Proof.
  intros H. unfold scanForState in H.
  apply fold_scan_modal in H.
  2:{ apply Forall_forall. intros n _. apply scan_node_modal. }
  cbn [needsModalState no_flags] in H. unfold doc_types.
  assert (needsModalState f = true <->
          "const [modalOpen, setModalOpen] = useState(false);"
          ∈ stateDeclarations f) as <-.
  { unfold stateDeclarations.
    destruct (needsModalState f), (needsSidebarCollapse f), (needsNavDropdown f);
      cbn; rewrite ?elem_of_cons, ?elem_of_nil; split; intros; try tauto;
      try discriminate;
      repeat match goal with
             | H : _ \/ _ |- _ => destruct H
             | H : False |- _ => destruct H
             | H : _ = _ |- _ => discriminate H
             end. }
  rewrite H. split; [intros [?|?]; done|tauto].
Qed.

Lemma modal_state_iff_modal_node_witness :
  "const [modalOpen, setModalOpen] = useState(false);"
  ∈ stateDeclarations
      {| needsModalState := true; needsSidebarCollapse := false;
         needsNavDropdown := false |}
  <-> "Modal" ∈ doc_types Examples.modal_doc.
Proof.
  apply (modal_state_iff_modal_node Examples.modal_doc).
  vm_compute. reflexivity.
Defined.

(** *** Import groups *)

Lemma group_add_paths path comp groups :
  forall p, p ∈ (group_add path comp groups).*1 <-> p = path \/ p ∈ groups.*1.
Proof.
  induction groups as [|[p0 comps] groups IH]; intros p; cbn.
  - rewrite list_elem_of_singleton, elem_of_nil. tauto.
  - destruct (String.eqb_spec path p0) as [->|Hne]; cbn.
    + rewrite !elem_of_cons. tauto.
    + rewrite !elem_of_cons, IH. tauto.
Qed.

Lemma group_add_distinct path comp groups :
  NoDup groups.*1 /\ Forall (fun g => NoDup g.2) groups ->
  NoDup (group_add path comp groups).*1
  /\ Forall (fun g => NoDup g.2) (group_add path comp groups).
Proof.
  induction groups as [|[p0 comps] groups IH]; cbn; intros [Hp Hc].
  - split; [apply NoDup_singleton|].
    apply Forall_singleton. apply NoDup_singleton.
  - apply NoDup_cons in Hp as [Hp0 Hp]. apply Forall_cons in Hc as [Hc0 Hc].
    destruct (String.eqb_spec path p0) as [->|Hne]; cbn.
    + split; [by apply NoDup_cons|].
      apply Forall_cons. split; [by apply set_add_NoDup|done].
    + destruct (IH (conj Hp Hc)) as [IH1 IH2]. split.
      * apply NoDup_cons. split; [|done].
        rewrite group_add_paths. intros [?|?]; congruence.
      * by apply Forall_cons.
Qed.

Lemma import_fold_distinct l : forall groups,
  NoDup groups.*1 /\ Forall (fun g => NoDup g.2) groups ->
  NoDup (fold_left import_step l groups).*1
  /\ Forall (fun g => NoDup g.2) (fold_left import_step l groups).
Proof.
  induction l as [|c l IH]; intros groups H; cbn [fold_left]; [done|].
  apply IH. unfold import_step.
  destruct (JS.lookup IMPORT_MAP c); [by apply group_add_distinct|done].
Qed.

(** X17: the component imports of the generated code: no module is
    imported twice, no name is imported twice from a module, [Container]
    is always imported, and every name comes from the module [IMPORT_MAP]
    gives for it. *)
Theorem import_groups_distinct (used : list string) :
  NoDup (finalImportGroups used).*1
  /\ Forall (fun g => NoDup (line_names g)) (finalImportGroups used)
  /\ "Container" ∈ imported_names (finalImportGroups used)
  /\ paths_ok (finalImportGroups used).
Proof.
  unfold finalImportGroups.
  destruct (import_fold_distinct (used ++ ["Container"]) []) as [H1 H2].
  { split; [apply NoDup_nil_2|constructor]. }
  split_and!; [done| | |].
  - eapply Forall_impl; [exact H2|]. intros g Hg. unfold line_names.
    by rewrite sort_strings_perm.
  - apply imported_fold. right. split.
    + apply elem_of_app. right. left.
    + by eexists.
  - apply paths_ok_fold. constructor.
Qed.


(* ================================================================== *)
(** ** More of the sandbox *)
(* ================================================================== *)

(** *** The matcher finds only what is there *)

Lemma match_here_sound p : forall prev s r,
  match_here p prev s = Some r -> Matches p prev s r.
Proof.
  induction p as [|[c|f|f|] p IH]; intros prev s r.
  - cbn. intros [= <-]. constructor.
  - cbn [match_here]. destruct s as [|a s]; [done|].
    destruct (N.eqb_spec a c) as [->|_]; [|done].
    intros H. constructor. by apply IH.
  - cbn [match_here]. destruct s as [|a s]; [done|].
    destruct (f a) eqn:Hf; [|done].
    intros H. constructor; [done|]. by apply IH.
  - revert prev r. induction s as [|a s IHs]; intros prev r.
    + cbn. intros H. apply M_star_stop. by apply IH.
    + cbn [match_here]. destruct (f a) eqn:Hf.
      * match goal with
        | |- match ?x with _ => _ end = _ -> _ => destruct x as [r'|] eqn:E
        end.
        -- intros [= <-]. apply M_star_step; [done|]. by apply IHs.
        -- intros H. apply M_star_stop. by apply IH.
      * intros H. apply M_star_stop. by apply IH.
  - cbn [match_here]. destruct (boundary prev s) eqn:Hb; [|done].
    intros H. constructor; [done|]. by apply IH.
Qed.

Lemma search_sound p s : forall prev,
  search p prev s = true ->
  exists before rest after,
    s = before ++ rest /\ Matches p (last_char prev before) rest after.
Proof.
  induction s as [|a s IH]; intros prev; cbn [search].
  - destruct (match_here p prev []) as [r|] eqn:E; [|done].
    intros _. exists [], [], r. split; [done|].
    by apply match_here_sound.
  - destruct (match_here p prev (a :: s)) as [r|] eqn:E.
    + intros _. exists [], (a :: s), r. split; [done|].
      by apply match_here_sound.
    + intros H. apply IH in H as (b & rest & after & -> & H).
      exists (a :: b), rest, after. split; [done|]. exact H.
Qed.

Lemma test_sound r code : test r code = true -> Contains (atoms r) code.
Proof. apply search_sound. Qed.

Lemma test_Contains r code : test r code = true <-> Contains (atoms r) code.
Proof. split; [apply test_sound|apply test_complete]. Qed.

Lemma elem_of_scan_patterns label pats code msg :
  msg ∈ scan_patterns label pats code <->
  exists r, r ∈ pats /\ msg = label +:+ source r /\ Contains (atoms r) code.
Proof.
  unfold scan_patterns. rewrite list_elem_of_In, in_flat_map. split.
  - intros (r & Hr & Hin). exists r. apply list_elem_of_In in Hr.
    destruct (test r code) eqn:Ht; [|done].
    destruct Hin as [<-|[]]. split_and!; [done..|]. by apply test_sound.
  - intros (r & Hr & -> & Hc). exists r. split; [by apply list_elem_of_In|].
    rewrite (test_complete _ _ Hc). by left.
Qed.

(** X18: [analyzeCode] reports exactly what the text holds: a message is
    among [issues] exactly when it names a pattern of one of the two
    lists that has a match in the text, and [safe] is true exactly when
    no pattern of either list has a match. *)
Theorem analyzeCode_reports_exactly (code : Ustring) :
  (forall msg,
     msg ∈ issues (analyzeCode code) <->
     exists r,
       Contains (atoms r) code
       /\ ((r ∈ DANGEROUS_PATTERNS
            /\ msg = "Blocked pattern detected: " +:+ source r)
           \/ (r ∈ LOOP_PATTERNS
               /\ msg = "Potential infinite loop: " +:+ source r)))
  /\ (safe (analyzeCode code) = true <->
      forall r, r ∈ DANGEROUS_PATTERNS ++ LOOP_PATTERNS ->
                ~ Contains (atoms r) code).
Proof.
  assert (Hmsg : forall msg,
     msg ∈ issues (analyzeCode code) <->
     exists r,
       Contains (atoms r) code
       /\ ((r ∈ DANGEROUS_PATTERNS
            /\ msg = "Blocked pattern detected: " +:+ source r)
           \/ (r ∈ LOOP_PATTERNS
               /\ msg = "Potential infinite loop: " +:+ source r))).
  { intros msg. cbn [analyzeCode issues].
    rewrite elem_of_app, !elem_of_scan_patterns. split.
    - intros [(r & ? & ? & ?)|(r & ? & ? & ?)]; exists r; tauto.
    - intros (r & ? & [[? ?]|[? ?]]); [left|right]; exists r; tauto. }
  split; [exact Hmsg|].
  assert (Hsafe : safe (analyzeCode code) = true <-> issues (analyzeCode code) = []).
  { cbn [analyzeCode safe issues]. by destruct (_ ++ _). }
  rewrite Hsafe. split.
  - intros Hnil r Hr Hc.
    assert (exists msg, msg ∈ issues (analyzeCode code)) as [msg Hin].
    { apply elem_of_app in Hr as [Hr|Hr]; eexists; apply Hmsg; exists r;
        (split; [done|]); [left|right]; done. }
    rewrite Hnil in Hin. by apply elem_of_nil in Hin.
  - intros Hno. destruct (issues (analyzeCode code)) as [|msg l] eqn:E; [done|].
    assert (Hin : msg ∈ msg :: l) by left.
    apply Hmsg in Hin as (r & Hc & Hr). exfalso. apply (Hno r); [|done].
    apply elem_of_app. destruct Hr as [[? _]|[? _]]; [by left|by right].
Qed.

Lemma analyzeCode_reports_exactly_witness :
  (forall msg,
     msg ∈ issues (analyzeCode Examples.spaced_eval) <->
     exists r,
       Contains (atoms r) Examples.spaced_eval
       /\ ((r ∈ DANGEROUS_PATTERNS
            /\ msg = "Blocked pattern detected: " +:+ source r)
           \/ (r ∈ LOOP_PATTERNS
               /\ msg = "Potential infinite loop: " +:+ source r)))
  /\ (safe (analyzeCode Examples.spaced_eval) = true <->
      forall r, r ∈ DANGEROUS_PATTERNS ++ LOOP_PATTERNS ->
                ~ Contains (atoms r) Examples.spaced_eval).
Proof. apply (analyzeCode_reports_exactly Examples.spaced_eval). Defined.

(** *** Loop guards *)

Lemma Matches_lit_occurs p prev s r c :
  Matches p prev s r -> In (Lit c) p -> In c s.
Proof.
  induction 1 as [prev s|c' p prev s r _ IH|f a p prev s r Hf _ IH
                 |p prev s r Hb _ IH|f p prev s r _ IH|f a p prev s r Hf _ IH];
    cbn [In].
  - done.
  - intros [[= ->]|H]; [by left|right; by apply IH].
  - intros [[=]|H]. right. by apply IH.
  - intros [[=]|H]. by apply IH.
  - intros [[=]|H]. by apply IH.
  - intros H. right. by apply IH.
Qed.

Lemma insert_after_absent p ins c s : forall prev,
  In (Lit c) p -> ~ In c s ->
  insert_after p ins prev s 0 = s.
Proof.
  induction s as [|a s IH]; intros prev Hp Hs; [done|].
  cbn [insert_after].
  destruct (match_here p prev (a :: s)) as [r|] eqn:E.
  - exfalso. apply Hs. eapply Matches_lit_occurs; [|done].
    by apply match_here_sound.
  - f_equal. apply IH; [done|]. intros H. apply Hs. by right.
Qed.

Lemma brace_in_loops :
  In (Lit 123) while_loop /\ In (Lit 123) for_loop /\ In (Lit 123) do_loop.
Proof.
  split_and!; cbn; repeat (try (left; reflexivity); right).
Qed.

(** X19: [injectLoopGuards] leaves a text without an opening brace (the
    code unit 123) as it is. *)
Theorem injectLoopGuards_without_brace (code : Ustring) :
  ~ In 123%N code ->
  injectLoopGuards code = code.
Proof.
  intros H. destruct brace_in_loops as (Hw & Hf & Hd).
  unfold injectLoopGuards.
  rewrite (insert_after_absent while_loop _ 123%N code None Hw H).
  rewrite (insert_after_absent for_loop _ 123%N code None Hf H).
  by rewrite (insert_after_absent do_loop _ 123%N code None Hd H).
Qed.

Lemma injectLoopGuards_without_brace_witness :
  injectLoopGuards (units "return 1 + 1;") = units "return 1 + 1;".
Proof.
  apply (injectLoopGuards_without_brace (units "return 1 + 1;")).
  cbn. intros H.
  repeat match goal with
         | H : _ \/ _ |- _ => destruct H as [H|H]; [discriminate H|]
         end.
  exact H.
Defined.

(** *** The scope of a run *)

Section Scope.
Context {V : Type}.

Lemma fold_blocked_get name (l : list string) :
  forall init : list (string * option V),
    obj_get name (fold_left (fun blocked n => obj_set n None blocked) l init)
    = if string_in name l then Some None else obj_get name init.
Proof.
  induction l as [|n l IH]; intros init; cbn [fold_left]; [done|].
  rewrite IH. unfold string_in. cbn [existsb]. fold (string_in name l).
  rewrite obj_get_set.
  destruct (string_in name l); [by rewrite orb_true_r|].
  rewrite orb_false_r. by destruct (String.eqb name n).
Qed.

Lemma fold_blocked_wf (l : list string) :
  forall init : list (string * option V),
    NoDup (keys init) ->
    NoDup (keys (fold_left (fun blocked n => obj_set n None blocked) l init)).
Proof.
  induction l as [|n l IH]; intros init H; cbn [fold_left]; [done|].
  apply IH. by apply obj_set_wf.
Qed.

Lemma createBlockedScope_wf : NoDup (keys (createBlockedScope V)).
Proof.
  unfold createBlockedScope. apply obj_set_wf, fold_blocked_wf, NoDup_nil_2.
Qed.

Lemma createBlockedScope_get name :
  obj_get name (createBlockedScope V)
  = if string_in name ("eval" :: BLOCKED_GLOBALS) then Some None else None.
Proof.
  unfold createBlockedScope. rewrite obj_get_set, fold_blocked_get.
  unfold string_in at 2. cbn [existsb]. fold (string_in name BLOCKED_GLOBALS).
  destruct (String.eqb name "eval"); [done|]. cbn [orb].
  by destruct (string_in name BLOCKED_GLOBALS).
Qed.
End Scope.

Lemma obj_get_Some_iff {V} k (v : V) (o : list (string * V)) :
  NoDup (keys o) -> obj_get k o = Some v <-> (k, v) ∈ o.
Proof.
  unfold keys. induction o as [|[k0 v0] o IH]; cbn; intros Hnd.
  - split; [done|]. intros H. by apply elem_of_nil in H.
  - apply NoDup_cons in Hnd as [Hk0 Hnd]. rewrite elem_of_cons.
    destruct (String.eqb_spec k k0) as [->|Hne].
    + split; [intros [= ->]; by left|].
      intros [[= ->]|Hin]; [done|]. exfalso. apply Hk0.
      apply list_elem_of_fmap. by exists (k0, v).
    + rewrite IH by done. split; [by right|]. intros [[= ? ?]|?]; done.
Qed.

Lemma obj_get_perm {V} k (a b : list (string * V)) :
  NoDup (keys a) -> a ≡ₚ b -> obj_get k a = obj_get k b.
Proof.
  intros Ha Hab.
  assert (Hb : NoDup (keys b)) by (unfold keys in *; by rewrite <- Hab).
  destruct (obj_get k a) as [v|] eqn:Ea.
  - symmetry. apply obj_get_Some_iff; [done|]. rewrite <- Hab.
    by apply obj_get_Some_iff.
  - destruct (obj_get k b) as [v|] eqn:Eb; [|done].
    apply obj_get_Some_iff in Eb; [|done]. rewrite <- Hab in Eb.
    apply obj_get_Some_iff in Eb; [|done]. congruence.
Qed.

(** X20: on a text within the length limit that [analyzeCode] accepts,
    [executeSandboxed] reads the clock and constructs a function whose
    parameters are [__deadline__] and the names of the combined scope as
    [Object.keys] lists them, whose body is the guarded text, and calls
    it with the deadline and the values of the combined scope in the same
    order.  In that scope no name occurs twice, and [eval] and every
    blocked global is [undefined] unless the caller's scope binds the
    name, in which case the caller's value is passed. *)
Theorem blocked_globals_undefined_unless_rebound (V F : Type) (code : Ustring)
    (scope : list (string * option V)) (options : SandboxOptions) :
  obj_wf scope ->
  (Z.of_nat (List.length code) <= default 100000 (maxCodeLength options))%Z ->
  safe (analyzeCode code) = true ->
  let combinedScope := obj_entries (obj_spread (createBlockedScope V) scope) in
  (exists k,
     executeSandboxed V F code scope options = DateNow k
     /\ forall start, exists k',
          k start = NewFunction ("__deadline__" :: keys combinedScope)
                      (injectLoopGuards code) k'
          /\ forall fn, exists k2,
               k' (inr fn) = DateNow k2
               /\ forall t0, exists k3,
                    k2 t0 = Call fn (t0 + default 5000 (timeoutMs options))%Z
                              combinedScope.*2 k3)
  /\ NoDup (keys combinedScope)
  /\ forall name,
       obj_get name combinedScope
       = match obj_get name scope with
         | Some v => Some v
         | None =>
             if string_in name ("eval" :: BLOCKED_GLOBALS) then Some None
             else None
         end.
Proof.
  intros Hwf Hlen Hsafe combinedScope. split_and!.
  - unfold executeSandboxed. eexists. split; [reflexivity|].
    intros start. cbv beta.
    destruct (Z.ltb_spec (default 100000%Z (maxCodeLength options))
                (Z.of_nat (List.length code))) as [Hlt|_]; [lia|].
    rewrite Hsafe. cbn [negb]. eexists. split; [reflexivity|].
    intros fn. cbv beta iota. eexists. split; [reflexivity|].
    intros t0. cbv beta. eexists. reflexivity.
  - apply obj_entries_wf, obj_spread_wf.
  - intros name. subst combinedScope.
    rewrite (obj_get_perm name _ (obj_spread (createBlockedScope V) scope)).
    + rewrite obj_spread_lookup by (done || apply createBlockedScope_wf).
      by rewrite createBlockedScope_get.
    + apply obj_entries_wf, obj_spread_wf.
    + apply obj_entries_perm.
Qed.

Lemma blocked_globals_undefined_unless_rebound_witness :
  let combinedScope :=
    obj_entries
      (obj_spread (createBlockedScope unit)
         [("fetch", Some tt); ("0", Some tt)]) in
  (exists k,
     executeSandboxed unit unit (units "return 1 + 1;")
       [("fetch", Some tt); ("0", Some tt)] (mkOptions None None) = DateNow k
     /\ forall start, exists k',
          k start = NewFunction ("__deadline__" :: keys combinedScope)
                      (injectLoopGuards (units "return 1 + 1;")) k'
          /\ forall fn, exists k2,
               k' (inr fn) = DateNow k2
               /\ forall t0, exists k3,
                    k2 t0 = Call fn (t0 + 5000)%Z combinedScope.*2 k3)
  /\ NoDup (keys combinedScope)
  /\ forall name,
       obj_get name combinedScope
       = match obj_get name [("fetch", Some tt); ("0", Some tt)] with
         | Some v => Some v
         | None =>
             if string_in name ("eval" :: BLOCKED_GLOBALS) then Some None
             else None
         end.
Proof.
  apply (blocked_globals_undefined_unless_rebound unit unit
           (units "return 1 + 1;") [("fetch", Some tt); ("0", Some tt)]
           (mkOptions None None)).
  - unfold obj_wf. cbn. apply NoDup_cons. split; [|apply NoDup_singleton].
    intros H. apply list_elem_of_singleton in H. discriminate.
  - cbn. lia.
  - vm_compute. reflexivity.
Defined.

(* ================================================================== *)
(** ** Metrics, API keys and the rate limiter *)
(* ================================================================== *)

Import Orchestrator Security.

(** *** The metrics history *)

(** X21: [metricsHistory] is a sliding window: after any sequence of
    [recordMetrics] calls it holds the last [MAX_METRICS] records, in
    order. *)
Theorem metrics_history_is_last_200 (LLMMetrics : Type) (ms : list LLMMetrics) :
  fold_left (recordMetrics LLMMetrics) ms []
  = drop (List.length ms - MAX_METRICS) ms.
Proof.
  induction ms as [|m ms IH] using rev_ind; [done|].
  rewrite fold_left_app. cbn [fold_left]. rewrite IH.
  unfold recordMetrics. rewrite !length_app, length_drop. cbn [List.length].
  unfold MAX_METRICS in *.
  destruct (Nat.ltb_spec 200 (List.length ms - (List.length ms - 200) + 1))
    as [Hlt|Hle].
  - assert (Hn : 200 <= List.length ms) by lia.
    replace (List.length ms + 1 - 200) with (S (List.length ms - 200)) by lia.
    rewrite drop_app_le by lia.
    destruct (drop (List.length ms - 200) ms) as [|x l] eqn:E.
    { apply (f_equal List.length) in E. rewrite length_drop in E.
      cbn in E. lia. }
    cbn [app tail]. f_equal.
    rewrite <- Nat.add_1_r, <- drop_drop, E. reflexivity.
  - replace (List.length ms + 1 - 200) with 0 by lia.
    replace (List.length ms - 200) with 0 by lia. done.
Qed.

(** *** API keys *)

Lemma unique_spec a : forall seen,
  NoDup seen ->
  NoDup (fold_left (fun seen k => set_add k seen) a seen)
  /\ forall k, k ∈ fold_left (fun seen k => set_add k seen) a seen
               <-> k ∈ seen \/ k ∈ a.
Proof.
  induction a as [|x a IH]; intros seen Hnd; cbn [fold_left].
  - split; [done|]. intros k. rewrite elem_of_nil. tauto.
  - destruct (IH (set_add x seen) (set_add_NoDup x seen Hnd)) as [H1 H2].
    split; [done|]. intros k. rewrite H2, elem_of_set_add, elem_of_cons. tauto.
Qed.

(** X22: [getUniqueKeys] returns no key twice and no empty key, and every
    key it returns is the extra key or the value of an environment
    variable whose name starts with the prefix of the provider. *)
Theorem getUniqueKeys_distinct_and_usable (env : string -> option string)
    (provider : string) (extraKey : option string) :
  NoDup (getUniqueKeys env provider extraKey)
  /\ forall k, k ∈ getUniqueKeys env provider extraKey ->
       k <> EmptyString
       /\ (extraKey = Some k
           \/ exists name,
                env name = Some k
                /\ strip_prefix (if String.eqb provider "openai"
                                 then "OPENAI_API_KEY" else "GEMINI_API_KEY")
                     name <> None).
Proof.
  unfold getUniqueKeys, unique.
  set (prefix := if String.eqb provider "openai" then _ else _).
  set (cands := [_; _; _; _; _]).
  destruct (unique_spec (omap id (filter (fun k => usable_key k = true) cands)) [])
    as [H1 H2]; [apply NoDup_nil_2|].
  split; [done|]. intros k Hk. apply H2 in Hk as [Hk|Hk].
  { by apply elem_of_nil in Hk. }
  apply list_elem_of_omap in Hk as (o & Ho & Hid). cbn in Hid. subst o.
  apply list_elem_of_filter in Ho as [Hu Ho]. split.
  - intros ->. done.
  - subst cands. rewrite !elem_of_cons in Ho.
    destruct Ho as [Ho|[Ho|[Ho|[Ho|[Ho|Ho]]]]];
      [right|right|right|right|by left|by apply elem_of_nil in Ho];
      eexists; (split; [symmetry; exact Ho|]);
      subst prefix; destruct (String.eqb provider "openai"); done.
Qed.

Lemma getUniqueKeys_distinct_and_usable_witness :
  NoDup (getUniqueKeys (fun _ => Some "k") "openai" (Some "k"))
  /\ forall k, k ∈ getUniqueKeys (fun _ => Some "k") "openai" (Some "k") ->
       k <> EmptyString
       /\ (Some "k" = Some k
           \/ exists name,
                (fun _ : string => Some "k") name = Some k
                /\ strip_prefix (if String.eqb "openai" "openai"
                                 then "OPENAI_API_KEY" else "GEMINI_API_KEY")
                     name <> None).
Proof.
  apply (getUniqueKeys_distinct_and_usable (fun _ => Some "k") "openai" (Some "k")).
Defined.

(** *** The rate limiter *)

Lemma obj_set_values {V} (P : V -> Prop) k v (o : list (string * V)) :
  P v -> Forall (fun kv => P kv.2) o -> Forall (fun kv => P kv.2) (obj_set k v o).
Proof.
  intros Hv. induction 1 as [|[k0 v0] o H0 Ho IH]; cbn.
  - by apply Forall_singleton.
  - destruct (String.eqb k k0); constructor; done.
Qed.

Lemma map_delete_get {V} k k' (m : list (string * V)) :
  obj_get k' (map_delete k m)
  = if String.eqb k' k then None else obj_get k' m.
Proof.
  unfold map_delete. induction m as [|[k0 v0] m IH].
  - cbn. by destruct (String.eqb k' k).
  - rewrite filter_cons. cbn [fst].
    destruct (decide (String.eqb k k0 = false)) as [Hne|He]; cbn [obj_get].
    + rewrite IH. destruct (String.eqb_spec k' k0) as [->|_]; [|done].
      rewrite String.eqb_sym. by rewrite Hne.
    + apply not_false_is_true in He. apply String.eqb_eq in He as <-.
      rewrite IH. by destruct (String.eqb_spec k' k).
Qed.

Lemma map_delete_keys {V} k x (m : list (string * V)) :
  x ∈ keys (map_delete k m) -> x ∈ keys m.
Proof.
  unfold keys, map_delete. rewrite !list_elem_of_fmap.
  intros (kv & -> & Hkv). apply list_elem_of_filter in Hkv as [_ Hkv].
  by exists kv.
Qed.

Lemma map_delete_wf {V} k (m : list (string * V)) :
  obj_wf m -> obj_wf (map_delete k m).
Proof.
  unfold obj_wf. induction m as [|[k0 v0] m IH]; [done|].
  intros H. change (keys ((k0, v0) :: m)) with (k0 :: keys m) in H.
  apply NoDup_cons in H as [Hk0 Hm].
  unfold map_delete. rewrite filter_cons. fold (map_delete k m).
  destruct (decide _); [|by apply IH].
  change (keys ((k0, v0) :: map_delete k m)) with (k0 :: keys (map_delete k m)).
  apply NoDup_cons. split; [|by apply IH].
  intros Hin. by apply map_delete_keys in Hin.
Qed.

Lemma call_ok m w rl c : limiter_ok m w rl -> limiter_ok m w (call rl c).
Proof.
  intros (Hm & Hw & Hwf & Hall). destruct c as [identifier now|identifier];
    cbn [call].
  - unfold check.
    set (valid := filter _ _).
    destruct (Nat.leb_spec (maxRequests rl) (List.length valid)) as [Hle|Hlt];
      cbn [snd]; [done|].
    split_and!; cbn [maxRequests windowMs requests]; [done|done| |].
    + by apply obj_set_wf.
    + apply (obj_set_values (fun v => List.length v <= m /\ v <> [])); [|done].
      rewrite length_app. cbn [List.length]. split; [lia|].
      by destruct valid.
  - unfold reset. split_and!; cbn [maxRequests windowMs requests]; [done|done| |].
    + by apply map_delete_wf.
    + unfold map_delete. rewrite Forall_forall in Hall |- *.
      intros kv Hkv. apply list_elem_of_filter in Hkv as [_ Hkv]. by apply Hall.
Qed.

Lemma calls_ok m w calls : forall rl,
  limiter_ok m w rl -> limiter_ok m w (fold_left call calls rl).
Proof.
  induction calls as [|c calls IH]; intros rl H; cbn [fold_left]; [done|].
  apply IH. by apply call_ok.
Qed.

(** X23: however a [RateLimiter] is used, its settings stay, its map
    holds no identifier twice, and every list of times in it has at least
    one and at most [maxRequests] entries. *)
Theorem rate_limiter_invariant (m : nat) (w : Z) (calls : list Call) :
  limiter_ok m w (fold_left call calls (new_limiter m w)).
Proof.
  apply calls_ok. unfold limiter_ok, new_limiter, obj_wf. cbn.
  split_and!; [done|done|apply NoDup_nil_2|constructor].
Qed.

(** X24: [check] grants exactly when fewer than [maxRequests] recorded
    times of the identifier are inside the window; a refusal changes
    nothing, a grant leaves the identifier with those times and the
    present one, and in both cases every other identifier keeps its
    entry. *)
Theorem check_touches_one_identifier (rl : RateLimiter) (identifier : string)
    (now : Z) :
  let valid :=
    filter (fun time => (now - time <? windowMs rl)%Z = true)
      (default [] (obj_get identifier (requests rl))) in
  let r := check rl identifier now in
  r.1 = (List.length valid <? maxRequests rl)%nat
  /\ (if r.1
      then obj_get identifier (requests r.2) = Some (valid ++ [now])
      else r.2 = rl)
  /\ forall other,
       other <> identifier ->
       obj_get other (requests r.2) = obj_get other (requests rl).
Proof.
  cbn zeta. unfold check.
  set (valid := filter _ _).
  destruct (Nat.leb_spec (maxRequests rl) (List.length valid)) as [Hle|Hlt];
    cbn [fst snd requests].
  - split_and!; [|done|done]. symmetry. apply Nat.ltb_ge. lia.
  - split_and!.
    + symmetry. apply Nat.ltb_lt. lia.
    + rewrite obj_get_set. by rewrite String.eqb_refl.
    + intros other Hne. rewrite obj_get_set.
      by destruct (String.eqb_spec other identifier).
Qed.

Lemma check_touches_one_identifier_witness :
  let rl := new_limiter 2 1000 in
  let valid :=
    filter (fun time => (5 - time <? windowMs rl)%Z = true)
      (default [] (obj_get "a" (requests rl))) in
  let r := check rl "a" 5 in
  r.1 = (List.length valid <? maxRequests rl)%nat
  /\ (if r.1
      then obj_get "a" (requests r.2) = Some (valid ++ [5%Z])
      else r.2 = rl)
  /\ forall other,
       other <> "a" ->
       obj_get other (requests r.2) = obj_get other (requests rl).
Proof. apply (check_touches_one_identifier (new_limiter 2 1000) "a" 5). Defined.

(** X25: after [reset], the next [check] of the identifier is granted
    (the limit being at least one) and the identifier is left with the
    time of that request alone. *)
Theorem reset_then_check_grants (rl : RateLimiter) (identifier : string)
    (now : Z) :
  0 < maxRequests rl ->
  (check (reset rl identifier) identifier now).1 = true
  /\ obj_get identifier
       (requests (check (reset rl identifier) identifier now).2)
     = Some [now].
Proof.
  intros Hm. unfold check, reset. cbn [requests maxRequests windowMs].
  rewrite map_delete_get, String.eqb_refl. cbn [default from_option].
  rewrite filter_nil. cbn [List.length].
  destruct (Nat.leb_spec (maxRequests rl) 0) as [Hle|_]; [lia|].
  cbn [fst snd requests app]. split; [done|].
  rewrite obj_get_set. by rewrite String.eqb_refl.
Qed.

Lemma reset_then_check_grants_witness :
  (check (reset (new_limiter 1 1000) "a") "a" 7).1 = true
  /\ obj_get "a" (requests (check (reset (new_limiter 1 1000) "a") "a" 7).2)
     = Some [7%Z].
Proof.
  apply (reset_then_check_grants (new_limiter 1 1000) "a" 7). cbn. lia.
Defined.

(** *** The client identifier *)

Lemma or_else_nonempty a b : b <> EmptyString -> or_else a b <> EmptyString.
Proof.
  intros Hb. unfold or_else. destruct a as [s|]; [|done].
  by destruct (String.eqb_spec s EmptyString).
Qed.

(** X26: [getClientIdentifier] never returns the empty string. *)
Theorem getClientIdentifier_nonempty (get : string -> option string) :
  getClientIdentifier get <> EmptyString.
Proof.
  unfold getClientIdentifier. do 3 apply or_else_nonempty. done.
Qed.
